(** * StGit: the [hide] command and the Python GIT interface

    A shallow embedding of [stgit/commands/hide.py] and of the parts of
    [stgit/git.py] that decide how patches are hidden, how merges and
    direct applications report failure, and how the module-level caches
    (HEAD, commits) behave.

    Python lists are [list], [set(...)] is a [gset], dictionaries are
    [gmap]s, module-level variables are fields of an explicit world
    record, and exceptions are values of a result type. *)

From stdpp Require Import gmap strings list.

(** The double-quote character, for the messages that quote a name. *)
Definition dquote : string := String (Ascii.ascii_of_nat 34) EmptyString.

(** Number of occurrences of [x] in a Python list. *)
Definition occurrences (x : string) (l : list string) : nat :=
  length (filter (λ y, y = x) l).

(** * The hide command (stgit/commands/hide.py) *)
Module Hide.

(** The three ordered name lists a transaction exposes
    ([trans.applied], [trans.unapplied], [trans.hidden]). *)
Record StackState := mkStack {
  applied : list string;
  unapplied : list string;
  hidden : list string
}.

#[export] Instance StackState_eq_dec : EqDecision StackState.
Proof. solve_decision. Defined.

(** [trans.all_patches] *)
Definition all_patches (st : StackState) : list string :=
  applied st ++ unapplied st ++ hidden st.

(** ['Patch "%s" already hidden' % p] (hide.py line 52) *)
Definition already_hidden_message (p : string) : string :=
  "Patch " +:+ dquote +:+ p +:+ dquote +:+ " already hidden".

(** Lines 50-52: one [out.warn] per requested name found in
    [trans.hidden], in request order. *)
Definition hide_warnings (trans : StackState) (patches : list string) : list string :=
  flat_map (λ p, if bool_decide (p ∈ hidden trans)
                 then [already_hidden_message p] else []) patches.

(** Line 53: [patches = [p for p in patches if p not in set(trans.hidden)]] *)
Definition hide_patches (trans : StackState) (patches : list string) : list string :=
  let hidden_set : gset string := list_to_set (hidden trans) in
  filter (λ p, p ∉ hidden_set) patches.

(** Lines 55-57: the three lists handed to [reorder_patches]. *)
Definition hide_target (trans : StackState) (patches : list string) : StackState :=
  let patches := hide_patches trans patches in
  let patch_set : gset string := list_to_set patches in
  {| applied := filter (λ p, p ∉ patch_set) (applied trans);
     unapplied := filter (λ p, p ∉ patch_set) (unapplied trans);
     hidden := patches ++ hidden trans |}.

(** ** The transaction engine

    [stgit.lib.transaction] is not part of the sources at hand; the
    engine is written down from its specification. *)

(** Modelled from the spec: the two ways a target is rejected by
    [stgit.lib.transaction], which is missing from the sources. *)
Inductive InvalidTarget :=
  | UnknownPatch (name : string)
  | DuplicatePatch (name : string).

(** Modelled from the spec: what [StackTransaction.run], missing
    from the sources, reports to its caller. *)
Inductive Outcome :=
  | Success
  | Conflict (patch : string) (files : list string)
  | Race.

(** Modelled from the spec: what the engine of
    [stgit.lib.transaction], missing from the sources, asks of the
    backend, in order. *)
Inductive BackendOp :=
  | OpPop (patch : string)
  | OpPush (patch : string)
  | OpPublish (old new : StackState).

(** Modelled from the spec: the duplicate check of the missing
    [StackTransaction.setTarget]; the first name occurring twice in a
    list. *)
Fixpoint first_duplicate (l : list string) : option string :=
  match l with
  | [] => None
  | x :: l' => if bool_decide (x ∈ l') then Some x else first_duplicate l'
  end.

(** Modelled from the spec: [StackTransaction.setTarget] (the method
    behind [trans.reorder_patches]) is missing from the sources.  It
    validates the three sequences against the current patch universe:
    [UnknownPatch] for a name outside the union of the current lists,
    [DuplicatePatch] for a name occurring more than once across or
    within the sequences; no backend call. *)
Definition setTarget (current : StackState) (a u h : list string)
    : InvalidTarget + StackState :=
  let names := a ++ u ++ h in
  match List.find (λ p, bool_decide (p ∉ all_patches current)) names with
  | Some p => inl (UnknownPatch p)
  | None =>
      match first_duplicate names with
      | Some p => inl (DuplicatePatch p)
      | None => inr (mkStack a u h)
      end
  end.

(** Modelled from the spec: step 1 of the missing
    [StackTransaction.run]; the length of the longest common prefix
    of two name lists. *)
Fixpoint commonPrefixLen (l1 l2 : list string) : nat :=
  match l1, l2 with
  | x :: l1', y :: l2' => if bool_decide (x = y) then S (commonPrefixLen l1' l2') else 0
  | _, _ => 0
  end.

Section Engine.
(** Modelled from the spec: the Merge/Push Engine, missing from
    the sources, run on the backend; it gives the conflicted paths
    of pushing a patch on top of the given applied chain (none for a
    clean push). *)
Variable push : string → list string → list string.

(** Modelled from the spec: the push phase of the missing
    [StackTransaction.run], bottom to top, stopping at the first
    conflict.  Returns the applied chain reached, the backend calls made, the
    conflict if any, and the patches not processed. *)
Fixpoint push_phase (live : list string) (todo : list string)
    : list string * list BackendOp * option (string * list string) * list string :=
  match todo with
  | [] => (live, [], None, [])
  | p :: rest =>
      match push p live with
      | [] =>
          let '(live', ops, c, rest') := push_phase (live ++ [p]) rest in
          (live', OpPush p :: ops, c, rest')
      | files => (live ++ [p], [OpPush p], Some (p, files), rest)
      end
  end.

(** Modelled from the spec: [StackTransaction.run] is missing from
    the sources.  Steps 1-6 of the specified algorithm: common
    prefix, pops from the top down, pushes from the bottom up until
    the first conflict, then a compare-and-swap publish keyed on the
    pre-transaction state; a failed compare-and-swap writes nothing
    and yields [Race]. *)
Definition run (current target stored : StackState)
    : Outcome * StackState * list BackendOp :=
  let n := commonPrefixLen (applied current) (applied target) in
  let pops := OpPop <$> reverse (drop n (applied current)) in
  let '(live, pushes, conflict, unprocessed) :=
    push_phase (take n (applied current)) (drop n (applied target)) in
  let published :=
    match conflict with
    | None => target
    | Some _ => mkStack live (unprocessed ++ unapplied target) (hidden target)
    end in
  if bool_decide (stored = current)
  then (match conflict with
        | None => Success
        | Some (p, files) => Conflict p files
        end,
        published, pops ++ pushes ++ [OpPublish current published])
  else (Race, stored, pops ++ pushes).

(** ** [func] *)

Inductive exn :=
  | ParserError (msg : string)
  | CmdException (msg : string)
  | TransactionError (e : InvalidTarget).

(** [common.parse_patches] is not part of the sources: it is taken
    as given, returning the requested names or raising. *)
Variable parse_patches : list string → list string → exn + list string.

(** What one invocation leaves behind: the warnings printed, the
    value returned (or the exception raised), the stack state stored
    afterwards and the backend calls made. *)
Record Ran := mkRan {
  warned : list string;
  returned : exn + Outcome;
  stored_after : StackState;
  backend_ops : list BackendOp
}.

(** Lines 50-60, once [patches] has been parsed. *)
Definition func_body (trans : StackState) (patches : list string) : Ran :=
  let warnings := hide_warnings trans patches in
  let t := hide_target trans patches in
  match setTarget trans (applied t) (unapplied t) (hidden t) with
  | inl e => mkRan warnings (inl (TransactionError e)) trans []
  | inr target =>
      let '(outcome, st, ops) := run trans target trans in
      mkRan warnings (inr outcome) st ops
  end.

(** [func(parser, options, args)]: the stack is read, the
    transaction opened on it, and the request parsed against
    [trans.all_patches]. *)
Definition func (args : list string) (stack : StackState) : Ran :=
  let trans := stack in
  match args with
  | [] => mkRan [] (inl (ParserError "No patches specified")) stack []
  | _ =>
      match parse_patches args (all_patches trans) with
      | inl e => mkRan [] (inl e) stack []
      | inr patches => func_body trans patches
      end
  end.
End Engine.

End Hide.

(** * The Python GIT interface (stgit/git.py) *)
Module Git.

(** ** Python string helpers *)

(** Truth value of a Python string. *)
Definition nonempty (s : string) : bool :=
  match s with EmptyString => false | _ => true end.

(** Truth value of a Python value that is [None] or a string. *)
Definition truthy (o : option string) : bool :=
  match o with Some s => nonempty s | None => false end.

Definition char (n : nat) : Ascii.ascii := Ascii.ascii_of_nat n.
Definition NUL : Ascii.ascii := char 0.
Definition TAB : Ascii.ascii := char 9.
Definition LF : Ascii.ascii := char 10.
Definition SPACE : Ascii.ascii := char 32.
Definition TILDE : string := String (char 126) EmptyString.

Definition snoc (s : string) (c : Ascii.ascii) : string := s +:+ String c EmptyString.

(** [s.split(sep, n)] for a one-character separator: at most [n]
    splits, from the left; [cur] is the piece being read. *)
Fixpoint split_from (sep : Ascii.ascii) (n : nat) (cur : string) (s : string) : list string :=
  match s with
  | EmptyString => [cur]
  | String c s' =>
      match n with
      | S n' =>
          if bool_decide (c = sep)
          then cur :: split_from sep n' EmptyString s'
          else split_from sep n (snoc cur c) s'
      | O => [cur +:+ s]
      end
  end.

(** [s.split(sep, n)] *)
Definition split_n (sep : Ascii.ascii) (n : nat) (s : string) : list string :=
  split_from sep n EmptyString s.

(** [s.split(sep)] *)
Definition split (sep : Ascii.ascii) (s : string) : list string :=
  split_from sep (String.length s) EmptyString s.

(** Python's whitespace, as [str.strip] sees it. *)
Definition is_space (c : Ascii.ascii) : bool :=
  let n := Ascii.nat_of_ascii c in
  bool_decide (n = 32) || (bool_decide (9 ≤ n) && bool_decide (n ≤ 13)).

Fixpoint lstrip (s : string) : string :=
  match s with
  | String c s' => if is_space c then lstrip s' else s
  | EmptyString => EmptyString
  end.

(** [s.rstrip()] *)
Fixpoint rstrip (s : string) : string :=
  match s with
  | EmptyString => EmptyString
  | String c s' =>
      match rstrip s' with
      | EmptyString => if is_space c then EmptyString else String c EmptyString
      | r => String c r
      end
  end.

(** [s.strip()] *)
Definition strip (s : string) : string := lstrip (rstrip s).

(** [sep.join(l)] *)
Fixpoint join (sep : string) (l : list string) : string :=
  match l with
  | [] => EmptyString
  | [x] => x
  | x :: l' => x +:+ sep +:+ join sep l'
  end.

(** ** Subprocesses and exceptions *)

(** A subprocess as [GRun] starts it: its command line, what it is fed
    on standard input, and the environment variables added. *)
Record call := mkCall {
  argv : list string;
  input : option string;
  environ : list (string * string)
}.

(** [GitRunException] is a subclass of [GitException], raised by
    [GRun] for the subprocess that failed; the others are Python's own. *)
Inductive exn :=
  | GitException (msg : string)
  | GitRunException (c : call) (msg : string)
  | DetachedHeadException
  | AssertionError
  | IndexError
  | ValueError
  | NameError
  | IOError.

(** [except GitException:] catches the subclasses too. *)
Definition is_GitException (e : exn) : bool :=
  match e with
  | GitException _ | GitRunException _ _ | DetachedHeadException => true
  | _ => false
  end.

Definition is_GitRunException (e : exn) : bool :=
  match e with GitRunException _ _ => true | _ => false end.

(** [str(ex)] of a git exception. *)
Definition str_exn (e : exn) : string :=
  match e with
  | GitException msg | GitRunException _ msg => msg
  | DetachedHeadException => "Not on any branch"
  | _ => EmptyString
  end.

Inductive res (A : Type) :=
  | Ok (a : A)
  | Raise (e : exn).
Arguments Ok {A} a.
Arguments Raise {A} e.

(** ** The world the module runs in *)

(** What a subprocess did: it ran and printed [stdout], or it failed,
    which [GRun] turns into a [GitRunException] with the given text. *)
Inductive reply :=
  | Done (stdout : string)
  | Failed (text : string).

(** What has happened so far, oldest first: subprocesses, and the
    single-file merges handed to [gitmergeonefile]. *)
Inductive event :=
  | Ran (c : call)
  | MergedFile (path : string) (code : Z).

(** What [stgit.out] was asked to print. *)
Inductive out_msg :=
  | OutWarn (msg : string)
  | OutStart (msg : string)
  | OutDone.

(** A commit object as [Commit.__init__] fills it in; an attribute
    that was never assigned is [None]. *)
Record Commit := mkCommit {
  commit_id_hash : string;
  commit_tree : option string;
  commit_author : option string;
  commit_committer : option string;
  commit_log : string
}.

(** The module-level variables ([__head], [__commits]) and everything
    outside the process that the module reads or writes. *)
Record world := mkWorld {
  refs : gmap string string;
  symbolic_head : option string;
  __head : option string;
  __commits : gmap string nat;
  heap : list Commit;
  fs : gmap string string;
  stdin : string;
  history : list event;
  printed : list out_msg
}.

(** The state monad with exceptions in which the module's functions run. *)
Definition M (A : Type) : Type := world → res A * world.

Definition ret {A} (a : A) : M A := λ w, (Ok a, w).
Definition raise {A} (e : exn) : M A := λ w, (Raise e, w).
Definition bind {A B} (m : M A) (k : A → M B) : M B :=
  λ w, match m w with
       | (Ok a, w') => k a w'
       | (Raise e, w') => (Raise e, w')
       end.

(** [try: m except <caught>: handler] *)
Definition try_except {A} (m : M A) (caught : exn → bool) (handler : exn → M A) : M A :=
  λ w, match m w with
       | (Ok a, w') => (Ok a, w')
       | (Raise e, w') => if caught e then handler e w' else (Raise e, w')
       end.

Declare Scope git_scope.
Delimit Scope git_scope with git.
Notation "x <- m ;; k" := (bind m (λ x, k))
  (at level 100, m at next level, right associativity) : git_scope.
Notation "m ;; k" := (bind m (λ _, k))
  (at level 100, right associativity) : git_scope.
Local Open Scope git_scope.

(** [for x in l: body x] *)
Fixpoint for_each {A} (l : list A) (body : A → M unit) : M unit :=
  match l with
  | [] => ret tt
  | x :: l' => body x ;; for_each l' body
  end.

Definition get_world : M world := λ w, (Ok w, w).
Definition log_event (e : event) : M unit :=
  λ w, (Ok tt, mkWorld (refs w) (symbolic_head w) (__head w) (__commits w)
                       (heap w) (fs w) (stdin w) (history w ++ [e]) (printed w)).
Definition set___head (v : option string) : M unit :=
  λ w, (Ok tt, mkWorld (refs w) (symbolic_head w) v (__commits w)
                       (heap w) (fs w) (stdin w) (history w) (printed w)).
Definition set_refs (r : gmap string string) : M unit :=
  λ w, (Ok tt, mkWorld r (symbolic_head w) (__head w) (__commits w)
                       (heap w) (fs w) (stdin w) (history w) (printed w)).
Definition set_symbolic_head (h : option string) : M unit :=
  λ w, (Ok tt, mkWorld (refs w) h (__head w) (__commits w)
                       (heap w) (fs w) (stdin w) (history w) (printed w)).
Definition set_fs (f : gmap string string) : M unit :=
  λ w, (Ok tt, mkWorld (refs w) (symbolic_head w) (__head w) (__commits w)
                       (heap w) f (stdin w) (history w) (printed w)).
Definition set_commits (c : gmap string nat) (h : list Commit) : M unit :=
  λ w, (Ok tt, mkWorld (refs w) (symbolic_head w) (__head w) c
                       h (fs w) (stdin w) (history w) (printed w)).
(** [out.warn(msg)], [out.start(msg)], [out.done()] *)
Definition out_print (m : out_msg) : M unit :=
  λ w, (Ok tt, mkWorld (refs w) (symbolic_head w) (__head w) (__commits w)
                       (heap w) (fs w) (stdin w) (history w) (printed w ++ [m])).

(** The commit a ref name stands for in the ref store; [HEAD] is
    followed to the branch it points to unless it is detached. *)
Definition resolve (w : world) (name : string) : option string :=
  if bool_decide (name = "HEAD")
  then match symbolic_head w with
       | Some branch_ref => refs w !! branch_ref
       | None => refs w !! "HEAD"
       end
  else refs w !! name.

(** The ref store after [git-update-ref ref val]. *)
Definition update_ref (w : world) (ref val : string) : gmap string string :=
  if bool_decide (ref = "HEAD")
  then match symbolic_head w with
       | Some branch_ref => <[branch_ref := val]> (refs w)
       | None => <["HEAD" := val]> (refs w)
       end
  else <[ref := val]> (refs w).

(** The [files] dictionary of [merge]: path to stage to (mode, hash). *)
Abbreviation stage_dict := (gmap string (string * string)).
Abbreviation files_dict := (gmap string (gmap string (string * string))).

Section Interface.

(** The repository and the git programs, seen from outside: what a
    subprocess answers, given everything that happened before.  The
    commands that read or write a ref act on the ref store of the
    world; for them only failure is taken from here. *)
Variable git : list event → call → reply.

(** [gitmergeonefile.merge(orig_hash, file1_hash, file2_hash, path,
    orig_mode, file1_mode, file2_mode)] is not part of the sources: it
    works on the files and returns an exit code. *)
Variable gitmergeonefile_merge :
  string → string → string → string → string → string → string →
  gmap string string → Z * gmap string string.

(** [basedir.get()] and [config.get(name)], from modules that are not
    part of the sources. *)
Variable basedir : string.
Variable config_get : string → option string.

(** [os.path.join(a, b)] for a relative [b] *)
Definition path_join (a b : string) : string := a +:+ "/" +:+ b.

(** ** [GRun]

    [stgit.run.Run] is not part of the sources.  A run is logged; a
    failing one raises [GitRunException]; [git-update-ref],
    [git-symbolic-ref HEAD <ref>] and [git-rev-parse --verify <ref>]
    act on the ref store. *)
Definition store_effect (c : call) (out : string) : M string :=
  w <- get_world ;;
  match argv c with
  | [prog; a; b] =>
      if bool_decide (prog = "git-update-ref")
      then set_refs (update_ref w a b) ;; ret out
      else if bool_decide (prog = "git-symbolic-ref" ∧ a = "HEAD")
      then set_symbolic_head (Some b) ;; ret out
      else if bool_decide (prog = "git-rev-parse" ∧ a = "--verify")
      then match resolve w b with
           | Some sha1 => ret (snoc sha1 LF)
           | None => ret out
           end
      else ret out
  | _ => ret out
  end.

Definition GRun_io (c : call) : M string :=
  w <- get_world ;;
  log_event (Ran c) ;;
  match git (history w) c with
  | Failed text => raise (GitRunException c text)
  | Done out => store_effect c out
  end.

Definition cmd (args : list string) : call := mkCall args None [].

(** [GRun(..).run()], [.no_output()], [.discard_output()] *)
Definition GRun_run (c : call) : M unit := GRun_io c ;; ret tt.

(** [GRun(..).raw_output()] *)
Definition GRun_raw_output (c : call) : M string := GRun_io c.

(** The lines of an output: a final newline ends the last line. *)
Definition lines_of (out : string) : list string :=
  match split LF out with
  | [] => []
  | pieces => if nonempty (List.last pieces EmptyString) then pieces
              else removelast pieces
  end.

(** [GRun(..).output_lines()] *)
Definition GRun_output_lines (c : call) : M (list string) :=
  out <- GRun_io c ;; ret (lines_of out).

(** [GRun(..).output_one_line()]: exactly one line, or the run
    counts as failed. *)
Definition GRun_output_one_line (c : call) : M string :=
  out <- GRun_io c ;;
  match lines_of out with
  | [line] => ret line
  | _ => raise (GitRunException c "expected 1 line")
  end.

(** [GRun(..).xargs(files)]: the command, run on the given files. *)
Definition GRun_xargs (args : list string) (files : list string) : M unit :=
  GRun_run (cmd (args ++ files)).

(** ** The functions of the module, in source order *)

(** Truth value of a Python list that may be [None]. *)
Definition list_truthy {A} (l : option (list A)) : bool :=
  match l with Some (_ :: _) => true | _ => false end.

(** [f.readlines()]: the lines of a file, each with its newline. *)
Fixpoint readlines_from (cur : string) (s : string) : list string :=
  match s with
  | EmptyString => if nonempty cur then [cur] else []
  | String c s' =>
      if bool_decide (c = LF)
      then snoc cur c :: readlines_from EmptyString s'
      else readlines_from (snoc cur c) s'
  end.
Definition readlines (s : string) : list string := readlines_from EmptyString s.

(** [Commit.__init__]: the header loop.  It stops at the first empty
    line, whose successors make up the log; a header without a space
    cannot be unpacked into key and value. *)
Fixpoint read_headers (lines : list string) (c : Commit) : res (Commit * list string) :=
  match lines with
  | [] => Ok (c, [])
  | line :: rest =>
      if nonempty line then
        match split_n SPACE 1 line with
        | [key; val] =>
            read_headers rest
              (if bool_decide (key = "tree")
               then mkCommit (commit_id_hash c) (Some val) (commit_author c)
                             (commit_committer c) (commit_log c)
               else if bool_decide (key = "author")
               then mkCommit (commit_id_hash c) (commit_tree c) (Some val)
                             (commit_committer c) (commit_log c)
               else if bool_decide (key = "committer")
               then mkCommit (commit_id_hash c) (commit_tree c) (commit_author c)
                             (Some val) (commit_log c)
               else c)
        | _ => Raise ValueError
        end
      else Ok (c, rest)
  end.

(** [Commit(id_hash)] (lines 82-99) *)
Definition Commit_init (id_hash : string) : M Commit :=
  lines <- GRun_output_lines (cmd ["git-cat-file"; "commit"; id_hash]) ;;
  match lines with
  | [] => raise NameError
  | _ =>
      match read_headers lines (mkCommit id_hash None None None EmptyString) with
      | Ok (c, rest) =>
          ret (mkCommit (commit_id_hash c) (commit_tree c) (commit_author c)
                        (commit_committer c) (join (String LF EmptyString) rest))
      | Raise e => raise e
      end
  end.

(** [get_commit(id_hash)] (lines 137-148); the result is the object
    itself, that is, its place in the heap. *)
Definition get_commit (id_hash : string) : M nat :=
  w <- get_world ;;
  match __commits w !! id_hash with
  | Some commit => ret commit
  | None =>
      c <- Commit_init id_hash ;;
      w' <- get_world ;;
      let commit := length (heap w') in
      set_commits (<[id_hash := commit]> (__commits w')) (heap w' ++ [c]) ;;
      ret commit
  end.

(** [get_conflicts()] (lines 150-160) *)
Definition get_conflicts : M (option (list string)) :=
  w <- get_world ;;
  let conflicts_file := path_join basedir "conflicts" in
  match fs w !! conflicts_file with
  | Some content => ret (Some (strip <$> readlines content))
  | None => ret None
  end.

(** [exclude_files()] (lines 162-167) *)
Definition exclude_files : list string :=
  [path_join (path_join basedir "info") "exclude"]
  ++ match config_get "core.excludesfile" with
     | Some user_exclude => if nonempty user_exclude then [user_exclude] else []
     | None => []
     end.

(** [refresh_index()] (lines 323-326) *)
Definition refresh_index : M unit :=
  GRun_run (cmd ["git-update-index"; "-q"; "--unmerged"; "--refresh"]).

(** One line of [git-diff-index] in [tree_status]:
    [fs = tuple(line.rstrip().split(' ',4)[-1].split('\t',1))], kept
    unless [fs[1]] is a conflict. *)
Definition diff_index_entry (conflicts : list string) (line : string)
    : res (list (string * string)) :=
  match split_n TAB 1 (List.last (split_n SPACE 4 (rstrip line)) EmptyString) with
  | [status; path] =>
      if bool_decide (path ∉ conflicts) then Ok [(status, path)] else Ok []
  | _ => Raise IndexError
  end.

Fixpoint diff_index_entries (conflicts : list string) (lines : list string)
    : M (list (string * string)) :=
  match lines with
  | [] => ret []
  | line :: rest =>
      match diff_index_entry conflicts line with
      | Ok e => es <- diff_index_entries conflicts rest ;; ret (e ++ es)
      | Raise e => raise e
      end
  end.

(** [tree_status(files, tree_id, unknown, noexclude, verbose,
    diff_flags)] (lines 190-242) *)
Definition tree_status (files : option (list string)) (tree_id : string)
    (unknown noexclude verbose : bool) (diff_flags : list string)
    : M (list (string * string)) :=
  if list_truthy files && unknown then raise AssertionError else
  (if verbose
   then out_print (OutStart "Checking for changes in the working directory")
   else ret tt) ;;
  refresh_index ;;
  (* unknown files *)
  unknown_files <-
    (if unknown then
       w <- get_world ;;
       let exclude :=
         if noexclude then [] else
           ((λ s, "--exclude=" +:+ s) <$>
              ["*.[ao]"; "*.pyc"; ".*"; "*~"; "#*"; "TAGS"; "tags"])
           ++ ["--exclude-per-directory=.gitignore"]
           ++ ((λ fn, "--exclude-from=" +:+ fn) <$>
                 filter (λ fn, is_Some (fs w !! fn)) exclude_files) in
       out <- GRun_raw_output
                (cmd (["git-ls-files"; "-z"; "--others"; "--directory";
                       "--no-empty-directory"] ++ exclude)) ;;
       ret ((λ line, ("?", line)) <$> filter (λ line, nonempty line = true) (split NUL out))
     else ret []) ;;
  (* conflicted files *)
  conflicts <- get_conflicts ;;
  let conflicts := match conflicts with Some ((_ :: _) as l) => l | _ => [] end in
  let conflicted :=
    (λ filename, ("C", filename)) <$>
      filter (λ filename, list_truthy files = false ∨ filename ∈ default [] files)
             conflicts in
  (* the rest *)
  let args := diff_flags ++ [tree_id]
              ++ (if list_truthy files then "--" :: default [] files else []) in
  lines <- GRun_output_lines (cmd ("git-diff-index" :: args)) ;;
  rest <- diff_index_entries conflicts lines ;;
  (if verbose then out_print OutDone else ret tt) ;;
  ret (unknown_files ++ conflicted ++ rest).

(** [rev_parse(git_id)] (lines 328-335) *)
Definition rev_parse (git_id : string) : M string :=
  try_except (GRun_output_one_line (cmd ["git-rev-parse"; "--verify"; git_id]))
    is_GitRunException
    (λ _, raise (GitException ("Unknown revision: " +:+ git_id))).

(** [get_head()] (lines 260-267) *)
Definition get_head : M string :=
  w <- get_world ;;
  if truthy (__head w) then ret (default EmptyString (__head w))
  else
    head <- rev_parse "HEAD" ;;
    set___head (Some head) ;;
    ret head.

(** [__clear_head_cache()] (lines 316-321) *)
Definition __clear_head_cache : M unit := set___head None.

(** [set_head_file(ref)] (lines 283-292) *)
Definition set_head_file (ref : string) : M unit :=
  __clear_head_cache ;;
  try_except (GRun_run (cmd ["git-symbolic-ref"; "HEAD"; "refs/heads/" +:+ ref]))
    is_GitRunException
    (λ _, raise (GitException
                   ("Could not set head to " +:+ dquote +:+ ref +:+ dquote))).

(** [set_ref(ref, val)] (lines 294-299) *)
Definition set_ref (ref val : string) : M unit :=
  try_except (GRun_run (cmd ["git-update-ref"; ref; val]))
    is_GitRunException
    (λ _, raise (GitException
                   ("Could not update " +:+ ref +:+ " to " +:+ dquote +:+ val
                    +:+ dquote +:+ "."))).

(** [set_branch(branch, val)] (lines 301-302) *)
Definition set_branch (branch val : string) : M unit :=
  set_ref ("refs/heads/" +:+ branch) val.

(** [__set_head(val)] (lines 304-314) *)
Definition __set_head (val : string) : M unit :=
  w <- get_world ;;
  (if negb (truthy (__head w)) || bool_decide (__head w ≠ Some val)
   then set_ref "HEAD" val ;; set___head (Some val)
   else ret tt) ;;
  w' <- get_world ;;
  if bool_decide (String.length (default EmptyString (__head w')) = 40)
  then ret tt else raise AssertionError.

(** [update_cache(files, force)] (lines 580-603) *)
Definition update_cache (files : option (list string)) (force : bool) : M bool :=
  cache_files <- tree_status files "HEAD" false true false [] ;;
  match cache_files with
  | [] => ret false
  | _ =>
      let has x l := bool_decide (x.1 ∈ (l : list string)) in
      if negb force
         && list_truthy (Some (filter (λ x, has x ["M"; "N"; "A"; "D"] = false) cache_files))
      then raise (GitException "Updating cache failed: unresolved conflicts")
      else
        let add_files := snd <$> filter (λ x, has x ["N"; "A"] = true) cache_files in
        let rm_files := snd <$> filter (λ x, has x ["D"] = true) cache_files in
        let m_files := snd <$> filter (λ x, has x ["M"] = true) cache_files in
        GRun_xargs ["git-update-index"; "--add"; "--"] add_files ;;
        GRun_xargs ["git-update-index"; "--force-remove"; "--"] rm_files ;;
        GRun_xargs ["git-update-index"; "--"] m_files ;;
        ret true
  end.

(** Whether [message[-1:]] is a newline. *)
Fixpoint ends_with_newline (s : string) : bool :=
  match s with
  | EmptyString => false
  | String c EmptyString => bool_decide (c = LF)
  | String _ s' => ends_with_newline s'
  end.

(** The keyword arguments of [commit] other than [message]. *)
Record commit_options := mkCommitOptions {
  co_files : option (list string);
  co_parents : option (list string);
  co_allowempty : bool;
  co_cache_update : bool;
  co_tree_id : option string;
  co_set_head : bool;
  co_author_name : option string;
  co_author_email : option string;
  co_author_date : option string;
  co_committer_name : option string;
  co_committer_email : option string
}.

(** The defaults of [commit]'s keyword arguments. *)
Definition commit_defaults : commit_options :=
  mkCommitOptions None None false true None false None None None None None.

(** [commit(message, ...)] (lines 605-649) *)
Definition commit (message : string) (o : commit_options) : M string :=
  let parents := if list_truthy (co_parents o) then default [] (co_parents o) else [] in
  (* Get the tree status *)
  (if co_cache_update o && bool_decide (parents ≠ [])
   then changes <- update_cache (co_files o) false ;;
        if negb changes && negb (co_allowempty o)
        then raise (GitException "No changes to commit") else ret tt
   else ret tt) ;;
  (* get the commit message *)
  let message :=
    if negb (nonempty message) then String LF EmptyString
    else if negb (ends_with_newline message) then snoc message LF
    else message in
  (* write the index to repository *)
  tree_and_flag <-
    match co_tree_id o with
    | None =>
        tree_id <- GRun_output_one_line (cmd ["git-write-tree"]) ;;
        ret (tree_id, true)
    | Some tree_id => ret (tree_id, co_set_head o)
    end ;;
  let '(tree_id, set_head) := tree_and_flag in
  (* the commit *)
  let var name v := if truthy v then [(name, default EmptyString v)] else [] in
  let env := var "GIT_AUTHOR_NAME" (co_author_name o)
             ++ var "GIT_AUTHOR_EMAIL" (co_author_email o)
             ++ var "GIT_AUTHOR_DATE" (co_author_date o)
             ++ var "GIT_COMMITTER_NAME" (co_committer_name o)
             ++ var "GIT_COMMITTER_EMAIL" (co_committer_email o) in
  commit_id <- GRun_output_one_line
                 (mkCall (["git-commit-tree"; tree_id]
                          ++ flat_map (λ p, ["-p"; p]) parents)
                         (Some message) env) ;;
  (if set_head then __set_head commit_id else ret tt) ;;
  ret commit_id.

(** [diff(files, rev1, rev2, diff_flags)] (lines 747-765) *)
Definition diff (files : option (list string)) (rev1 rev2 : option string)
    (diff_flags : list string) : M string :=
  let files := if list_truthy files then default [] files else [] in
  let name rev := default EmptyString rev in
  if truthy rev1 && truthy rev2 then
    GRun_raw_output (cmd (["git-diff-tree"; "-p"]
                          ++ diff_flags ++ [name rev1; name rev2; "--"] ++ files))
  else if truthy rev1 || truthy rev2 then
    refresh_index ;;
    if truthy rev2 then
      GRun_raw_output (cmd (["git-diff-index"; "-p"; "-R"]
                            ++ diff_flags ++ [name rev2; "--"] ++ files))
    else
      GRun_raw_output (cmd (["git-diff-index"; "-p"]
                            ++ diff_flags ++ [name rev1; "--"] ++ files))
  else ret EmptyString.

(** The [git-apply] run of [apply_diff]. *)
Definition apply_diff_call (check_index : bool) (diff_str : string) : call :=
  let index_opt := if check_index then ["--index"] else [] in
  mkCall ("git-apply" :: index_opt) (Some diff_str) [].

(** [apply_diff(rev1, rev2, check_index, files)] (lines 651-673) *)
Definition apply_diff (rev1 rev2 : option string) (check_index : bool)
    (files : option (list string)) : M bool :=
  let files := if list_truthy files then files else Some [] in
  diff_str <- diff files rev1 rev2 [] ;;
  if nonempty diff_str then
    try_except (GRun_run (apply_diff_call check_index diff_str) ;; ret true)
      is_GitRunException
      (λ _, ret false)
  else ret true.

(** ** [merge] *)

Definition is_octal_digit (c : Ascii.ascii) : bool :=
  let n := Ascii.nat_of_ascii c in bool_decide (48 ≤ n) && bool_decide (n ≤ 55).
Definition is_hex_digit (c : Ascii.ascii) : bool :=
  let n := Ascii.nat_of_ascii c in
  (bool_decide (48 ≤ n) && bool_decide (n ≤ 57))
  || (bool_decide (97 ≤ n) && bool_decide (n ≤ 102)).
Definition is_stage_digit (c : Ascii.ascii) : bool :=
  let n := Ascii.nat_of_ascii c in bool_decide (49 ≤ n) && bool_decide (n ≤ 51).

(** The longest prefix of characters of one class, and what follows. *)
Fixpoint span (f : Ascii.ascii → bool) (s : string) : string * string :=
  match s with
  | String c s' =>
      if f c then let '(p, r) := span f s' in (String c p, r) else (EmptyString, s)
  | EmptyString => (EmptyString, EmptyString)
  end.

(** Exactly [n] characters of one class, and what follows. *)
Fixpoint exactly (n : nat) (f : Ascii.ascii → bool) (s : string) : option (string * string) :=
  match n, s with
  | O, _ => Some (EmptyString, s)
  | S n', String c s' =>
      if f c then
        match exactly n' f s' with
        | Some (p, r) => Some (String c p, r)
        | None => None
        end
      else None
  | S _, EmptyString => None
  end.

(** [stages_re.findall(line)] (line 704): the pattern, anchored at
    the start and compiled with [re.S], asks for octal digits (the
    mode), a space, forty hexadecimal digits (the hash), a space, a
    stage among 1, 2 and 3, a tab, and takes everything after it as
    the path.  At most one match, whose four groups are returned. *)
Definition stages_re_findall (line : string)
    : list (string * string * string * string) :=
  let '(mode, r1) := span is_octal_digit line in
  if nonempty mode then
    match r1 with
    | String sp1 r2 =>
        match exactly 40 is_hex_digit r2 with
        | Some (hash, String sp2 (String stage (String tab path))) =>
            if bool_decide (sp1 = SPACE) && bool_decide (sp2 = SPACE)
               && is_stage_digit stage && bool_decide (tab = TAB)
            then [(mode, hash, String stage EmptyString, path)]
            else []
        | _ => []
        end
    | EmptyString => []
    end
  else [].

Definition unset_stages : stage_dict :=
  <["1" := (EmptyString, EmptyString)]>
    (<["2" := (EmptyString, EmptyString)]>
       (<["3" := (EmptyString, EmptyString)]> ∅)).

(** The loop over the lines of [git-ls-files --unmerged --stage -z]
    (lines 706-719). *)
Fixpoint unmerged_entries (lines : list string) (files : files_dict) : res files_dict :=
  match lines with
  | [] => Ok files
  | line :: rest =>
      if nonempty line then
        match stages_re_findall line with
        | (mode, hash, stage, path) :: _ =>
            let files :=
              if bool_decide (path ∉ dom files)
              then <[path := unset_stages]> files else files in
            unmerged_entries rest
              (<[path := <[stage := (mode, hash)]> (files !!! path)]> files)
        | [] => Raise IndexError
        end
      else unmerged_entries rest files
  end.

(** The body of the loop over the unmerged paths (lines 728-742):
    leftover [path~suffix] files are removed, then the single-file
    merge runs; the result is its exit code. *)
Definition merge_path (base head1 head2 : string) (path : string) (stages : stage_dict)
    : M Z :=
  for_each [base; head1; head2]
    (λ suffix,
       if nonempty suffix then
         w <- get_world ;;
         let fname := path +:+ TILDE +:+ suffix in
         if bool_decide (is_Some (fs w !! fname))
         then set_fs (delete fname (fs w)) else ret tt
       else ret tt) ;;
  w <- get_world ;;
  let '(code, fs') :=
    gitmergeonefile_merge (stages !!! "1").2 (stages !!! "2").2 (stages !!! "3").2
      path (stages !!! "1").1 (stages !!! "2").1 (stages !!! "3").1 (fs w) in
  set_fs fs' ;;
  log_event (MergedFile path code) ;;
  ret code.

(** [for path in files: ...] with the [errors] flag threaded through. *)
Fixpoint merge_paths (base head1 head2 : string)
    (todo : list (string * stage_dict)) (errors : bool) : M bool :=
  match todo with
  | [] => ret errors
  | (path, stages) :: rest =>
      code <- merge_path base head1 head2 path stages ;;
      merge_paths base head1 head2 rest (if bool_decide (code ≠ 0%Z) then true else errors)
  end.

(** The tree-level step of [merge] (lines 681-700): the text of the
    error of a failed recursive merge, or [None]. *)
Definition merge_trees (base head1 head2 : string) (recursive : bool)
    : M (option string) :=
  if recursive then
    try_except
      (GRun_run (cmd ["git-merge-recursive"; base; "--"; head1; head2]) ;; ret None)
      is_GitRunException
      (λ ex, ret (Some (str_exn ex)))
  else
    try_except
      (GRun_run (cmd ["git-read-tree"; "-u"; "-m"; "--aggressive"; base; head1; head2]) ;;
       ret None)
      is_GitRunException
      (λ _, raise (GitException "git-read-tree failed (local changes maybe?)")).

(** The unmerged entries of the index (lines 703-719). *)
Definition unmerged_files : M files_dict :=
  out <- GRun_raw_output (cmd ["git-ls-files"; "--unmerged"; "--stage"; "-z"]) ;;
  match unmerged_entries (split NUL out) ∅ with
  | Ok files => ret files
  | Raise e => raise e
  end.

(** [merge(base, head1, head2, recursive)] (lines 675-745) *)
Definition merge (base head1 head2 : string) (recursive : bool) : M unit :=
  refresh_index ;;
  err_output <- merge_trees base head1 head2 recursive ;;
  (* check the index for unmerged entries *)
  files <- unmerged_files ;;
  if truthy err_output && bool_decide (files = ∅)
  then raise (GitException (default EmptyString err_output))
  else
    (* merge the unmerged files *)
    errors <- merge_paths base head1 head2 (map_to_list files) false ;;
    if errors
    then raise (GitException "GIT index merging failed (possible conflicts)")
    else ret tt.

(** [switch(tree_id, keep)] (lines 820-833) *)
Definition switch (tree_id : string) (keep : bool) : M unit :=
  (if keep then
     (* only update the index while keeping the local changes *)
     GRun_run (cmd ["git-read-tree"; tree_id])
   else
     refresh_index ;;
     try_except
       (head <- get_head ;;
        GRun_run (cmd ["git-read-tree"; "-u"; "-m"; head; tree_id]))
       is_GitRunException
       (λ _, raise (GitException "git-read-tree failed (local changes maybe?)"))) ;;
  __set_head tree_id.

(** The [git-apply] run of [apply_patch]. *)
Definition apply_patch_call (diff : string) : call :=
  mkCall ["git-apply"; "--index"] (Some diff) [].

(** [apply_patch(filename, diff, base, fail_dump)] (lines 911-949) *)
Definition apply_patch (filename diff base : option string) (fail_dump : bool)
    : M unit :=
  diff <-
    match diff with
    | Some diff => ret diff
    | None =>
        w <- get_world ;;
        if truthy filename then
          match fs w !! default EmptyString filename with
          | Some content => ret content
          | None => raise IOError
          end
        else ret (stdin w)
    end ;;
  orig_head <-
    (if truthy base then
       orig_head <- get_head ;;
       switch (default EmptyString base) false ;;
       ret orig_head
     else refresh_index ;; ret EmptyString) ;;
  try_except (GRun_run (apply_patch_call diff))
    is_GitRunException
    (λ ex,
       (if truthy base then switch orig_head false else ret tt) ;;
       (if fail_dump then
          (* write the failed diff to a file *)
          w <- get_world ;;
          set_fs (<[".stgit-failed.patch" := diff]> (fs w)) ;;
          out_print (OutWarn "Diff written to the .stgit-failed.patch file")
        else ret tt) ;;
       raise ex) ;;
  if truthy base then
    let base := default EmptyString base in
    top <- commit "temporary commit used for applying a patch"
             (mkCommitOptions None (Some [base]) false true None false
                              None None None None None) ;;
    switch orig_head false ;;
    merge base orig_head top false
  else ret tt.

(** ** Clients *)

(** A caller that catches whatever [m] raises. *)
Definition attempt {A} (m : M A) : M (res A) :=
  λ w, let '(r, w') := m w in (Ok r, w').

(** The other functions of the module a client may call. *)
Inductive operation :=
  | Use_get_conflicts
  | Use_tree_status (files : option (list string)) (tree_id : string)
      (unknown noexclude verbose : bool) (diff_flags : list string)
  | Use_get_head
  | Use_set_head_file (ref : string)
  | Use_set_ref (ref val : string)
  | Use_set_branch (branch val : string)
  | Use_refresh_index
  | Use_rev_parse (git_id : string)
  | Use_update_cache (files : option (list string)) (force : bool)
  | Use_commit (message : string) (o : commit_options)
  | Use_apply_diff (rev1 rev2 : option string) (check_index : bool)
      (files : option (list string))
  | Use_merge (base head1 head2 : string) (recursive : bool)
  | Use_diff (files : option (list string)) (rev1 rev2 : option string)
      (diff_flags : list string)
  | Use_switch (tree_id : string) (keep : bool)
  | Use_apply_patch (filename diff base : option string) (fail_dump : bool).

(** The call itself; what it returns is dropped. *)
Definition perform (o : operation) : M unit :=
  match o with
  | Use_get_conflicts => get_conflicts ;; ret tt
  | Use_tree_status files tree_id unknown noexclude verbose diff_flags =>
      tree_status files tree_id unknown noexclude verbose diff_flags ;; ret tt
  | Use_get_head => get_head ;; ret tt
  | Use_set_head_file ref => set_head_file ref
  | Use_set_ref ref val => set_ref ref val
  | Use_set_branch branch val => set_branch branch val
  | Use_refresh_index => refresh_index
  | Use_rev_parse git_id => rev_parse git_id ;; ret tt
  | Use_update_cache files force => update_cache files force ;; ret tt
  | Use_commit message o => commit message o ;; ret tt
  | Use_apply_diff rev1 rev2 check_index files =>
      apply_diff rev1 rev2 check_index files ;; ret tt
  | Use_merge base head1 head2 recursive => merge base head1 head2 recursive
  | Use_diff files rev1 rev2 diff_flags => diff files rev1 rev2 diff_flags ;; ret tt
  | Use_switch tree_id keep => switch tree_id keep
  | Use_apply_patch filename diff base fail_dump =>
      apply_patch filename diff base fail_dump
  end.

(** A client making these calls one after the other, catching the
    failures. *)
Fixpoint perform_all (os : list operation) : M unit :=
  match os with
  | [] => ret tt
  | o :: rest => attempt (perform o) ;; perform_all rest
  end.

(** A process that asks for commits one after the other, with other
    calls in between, catching the failures; it keeps what each call
    of [get_commit] gave. *)
Fixpoint get_commits (steps : list (list operation * string)) : M (list (res nat)) :=
  match steps with
  | [] => ret []
  | (others, id_hash) :: rest =>
      perform_all others ;;
      r <- attempt (get_commit id_hash) ;;
      rs <- get_commits rest ;;
      ret (r :: rs)
  end.
End Interface.
End Git.

(** ** Observations on a run *)
Module Observe.
Import Git.

#[export] Instance call_eq_dec : EqDecision call.
Proof. solve_decision. Defined.
#[export] Instance event_eq_dec : EqDecision event.
Proof. solve_decision. Defined.
#[export] Instance exn_eq_dec : EqDecision exn.
Proof. solve_decision. Defined.

(** The world once [e] has been logged. *)
Definition logged (e : event) (w : world) : world :=
  mkWorld (refs w) (symbolic_head w) (__head w) (__commits w)
          (heap w) (fs w) (stdin w) (history w ++ [e]) (printed w).

(** The world with another ref store. *)
Definition with_refs (r : gmap string string) (w : world) : world :=
  mkWorld r (symbolic_head w) (__head w) (__commits w)
          (heap w) (fs w) (stdin w) (history w) (printed w).

(** The world with another value in the HEAD cache. *)
Definition with_head (h : option string) (w : world) : world :=
  mkWorld (refs w) (symbolic_head w) h (__commits w)
          (heap w) (fs w) (stdin w) (history w) (printed w).

(** The runs that read and write refs. *)
Definition rev_parse_call (git_id : string) : call :=
  cmd ["git-rev-parse"; "--verify"; git_id].
Definition update_ref_call (ref val : string) : call :=
  cmd ["git-update-ref"; ref; val].

(** The [git-cat-file] run that reads commit [id_hash]. *)
Definition commit_read (id_hash : string) : event :=
  Ran (cmd ["git-cat-file"; "commit"; id_hash]).

(** How many times commit [id_hash] is read in a stretch of history. *)
Definition reads (id_hash : string) (h : list event) : nat :=
  length (filter (λ e, e = commit_read id_hash) h).

(** What every function of the module other than [get_commit]
    leaves alone: the commit cache and the commit objects; and it
    reads no commit. *)
Definition kept (w w' : world) : Prop :=
  __commits w' = __commits w
  ∧ heap w' = heap w
  ∧ ∃ new, history w' = history w ++ new ∧ ∀ id_hash, reads id_hash new = 0.

Definition keeps {A} (m : M A) : Prop := ∀ w, kept w (m w).2.

(** A command other than [git-cat-file]. *)
Definition other_program (c : call) : Prop := head (argv c) ≠ Some "git-cat-file".

Definition raised {A} (r : res A) : Prop :=
  match r with Raise _ => True | Ok _ => False end.

#[export] Instance raised_dec {A} (r : res A) : Decision (raised r).
Proof. destruct r; simpl; apply _. Defined.

(** How many of the calls for [id_hash] raised. *)
Definition failed_calls (id_hash : string) (ids : list string) (results : list (res nat)) : nat :=
  length (filter (λ p, p.1 = id_hash ∧ raised p.2) (zip ids results)).

(** How many of the calls for [id_hash] returned. *)
Definition returned_calls (id_hash : string) (ids : list string) (results : list (res nat)) : nat :=
  length (filter (λ p, p.1 = id_hash ∧ ¬ raised p.2) (zip ids results)).

(** [Commit(id)] is run, and gives [r], at some point between [w]
    and [w'] where [id] is not in the cache: there its read is the
    next event of the history. *)
Definition read_between (git : list event → call → reply) (w w' : world)
    (id : string) (r : res Commit) : Prop :=
  ∃ wi, history w `prefix_of` history wi
        ∧ (history wi ++ [commit_read id]) `prefix_of` history w'
        ∧ __commits wi !! id = None
        ∧ (Commit_init git id wi).1 = r.

(** What a run of [get_commit] calls for [ids], giving [results] and
    leading from [w] to [w'], maintains. *)
Definition memoized (git : list event → call → reply) (w : world) (ids : list string)
    (results : list (res nat)) (w' : world) : Prop :=
  ∃ new,
    history w' = history w ++ new
    ∧ length results = length ids
    ∧ __commits w ⊆ __commits w'
    ∧ heap w `prefix_of` heap w'
    ∧ (∀ i id commit, ids !! i = Some id → results !! i = Some (Ok commit) →
         __commits w' !! id = Some commit)
    ∧ (∀ id commit, __commits w !! id = Some commit →
         reads id new = 0
         ∧ failed_calls id ids results = 0
         ∧ ∀ i, ids !! i = Some id → results !! i = Some (Ok commit))
    ∧ (∀ id, __commits w !! id = None →
         reads id new
         = failed_calls id ids results + min (returned_calls id ids results) 1)
    ∧ (∀ i j id commit, i ≤ j → ids !! i = Some id → ids !! j = Some id →
         results !! i = Some (Ok commit) → results !! j = Some (Ok commit))
    ∧ (∀ i id e, ids !! i = Some id → results !! i = Some (Raise e) →
         read_between git w w' id (Raise e))
    ∧ (∀ i id commit, ids !! i = Some id → results !! i = Some (Ok commit) →
         __commits w !! id = None →
         ∃ c, read_between git w w' id (Ok c) ∧ heap w' !! commit = Some c).


(** What was logged between two worlds. *)
Definition since (w w' : world) : list event :=
  drop (length (history w)) (history w').

(** The persisted conflicts list as [tree_status] uses it: empty when
    the file is missing. *)
Definition conflicts_of (basedir : string) (w : world) : list string :=
  match fs w !! path_join basedir "conflicts" with
  | Some content => strip <$> readlines content
  | None => []
  end.

(** Whether a command is one of those that act on the ref store. *)
Definition ref_command (c : call) : bool :=
  match argv c with
  | prog :: _ =>
      bool_decide (prog ∈ ["git-update-ref"; "git-symbolic-ref"; "git-rev-parse"])
  | [] => false
  end.


(** The runs of [refresh_index] and of the unmerged listing. *)
Definition refresh_index_call : call :=
  cmd ["git-update-index"; "-q"; "--unmerged"; "--refresh"].

(** A run of a command that does not touch the ref store. *)
Definition plain_run (git : list event → call → reply) (c : call) (w : world)
    : res string * world :=
  match git (history w) c with
  | Failed text => (Raise (GitRunException c text), logged (Ran c) w)
  | Done out => (Ok out, logged (Ran c) w)
  end.



End Observe.

(** * Concrete repositories and runs *)
Module Scenario.
Import Git Observe.
Local Open Scope git_scope.

(** A forty-character id starting with the given letter. *)
Definition sha (c : string) : string :=
  c +:+ "000000000000000000000000000000000000000".

(** A stack with three applied patches, one unapplied and one hidden. *)
Definition stack : Hide.StackState :=
  Hide.mkStack ["A"; "B"; "C"] ["E"] ["D"].

(** A request parser that takes every argument as a patch name, and a
    push engine that never conflicts. *)
Definition parse_names (args all_patches : list string) : Hide.exn + list string :=
  inr args.
Definition push_clean (patch : string) (live : list string) : list string := [].

(** A repository on branch master, at commit a, in a fresh process. *)
Definition repository : world :=
  mkWorld {[ "refs/heads/master" := sha "a" ]} (Some "refs/heads/master")
          None ∅ [] ∅ "" [] [].

(** The same with a conflicts file naming the paths in [names]. *)
Definition with_conflicts (names : list string) : world :=
  mkWorld {[ "refs/heads/master" := sha "a" ]} (Some "refs/heads/master")
          None ∅ [] {[ ".git/conflicts" := join "" ((λ n, snoc n LF) <$> names) ]}
          "" [] [].

(** Git programs that all succeed and print nothing. *)
Definition git_quiet (h : list event) (c : call) : reply := Done "".

(** As [git_quiet], but the programs named in [failing] fail. *)
Definition git_failing (failing : list string) (h : list event) (c : call) : reply :=
  match argv c with
  | prog :: _ =>
      if bool_decide (prog ∈ failing) then Failed (prog +:+ " failed with code 1")
      else Done ""
  | [] => Done ""
  end.

(** As [git_quiet], but [git-ls-files] lists the file f. *)
Definition git_unknown_f (h : list event) (c : call) : reply :=
  match argv c with
  | "git-ls-files" :: _ => Done (snoc "f" NUL)
  | _ => Done ""
  end.

(** As [git_failing], with an index holding the stages 1 and 3 of
    path p unmerged, and a diff between any two revisions. *)
Definition git_unmerged_p (failing : list string) (h : list event) (c : call) : reply :=
  match argv c with
  | "git-ls-files" :: _ =>
      Done (snoc ("100644 " +:+ sha "1" +:+ " 1" +:+ String TAB "p") NUL
            +:+ snoc ("100644 " +:+ sha "3" +:+ " 3" +:+ String TAB "p") NUL)
  | "git-diff-tree" :: _ => Done "diff --git a/p b/p"
  | _ => git_failing failing h c
  end.

(** A single-file merge that always succeeds, and one that always
    reports a conflict; neither touches the files. *)
Definition merge_clean (orig_hash file1_hash file2_hash path
    orig_mode file1_mode file2_mode : string) (files : gmap string string)
    : Z * gmap string string := (0%Z, files).

(** What is left of a result that is known to be there. *)
Definition value {A} (d : A) (r : res A) : A :=
  match r with Ok a => a | Raise _ => d end.


(** A patch that does not apply on base c. *)
Definition rejecting_git : list event → call → reply := git_failing ["git-apply"].
Definition no_config (name : string) : option string := None.
Definition at_start : world := (get_head rejecting_git repository).2.
Definition on_base : world := (switch rejecting_git (sha "c") false at_start).2.

(** The same patch in a tree that [git-read-tree] cannot switch any
    more once [git-apply] has run. *)
Definition stuck_git (h : list event) (c : call) : reply :=
  match argv c with
  | "git-read-tree" :: _ =>
      if bool_decide (Ran (apply_patch_call "the diff") ∈ h)
      then Failed "git-read-tree failed with code 128"
      else Done ""
  | _ => rejecting_git h c
  end.

(** A process whose HEAD cache holds a, after which HEAD was moved
    to b with [set_ref]. *)
Definition stale_head : world :=
  ((get_head rejecting_git ;; set_ref rejecting_git "HEAD" (sha "b")) repository).2.

(** A backend that cannot read commits. *)
Definition unreadable_git : list event → call → reply := git_failing ["git-cat-file"].

End Scenario.

(** * Branches, working tree and remotes (stgit/git.py, continued) *)
Module Repo.
Import Git.
Local Open Scope git_scope.

(** ** Characters *)

(** Whether a character occurs in a string. *)
Fixpoint has_char (c : Ascii.ascii) (s : string) : bool :=
  match s with
  | EmptyString => false
  | String c' s' => bool_decide (c' = c) || has_char c s'
  end.

(** How many times a character occurs in a string. *)
Fixpoint count_char (c : Ascii.ascii) (s : string) : nat :=
  match s with
  | EmptyString => 0
  | String c' s' => (if bool_decide (c' = c) then 1 else 0) + count_char c s'
  end.

(** Whether every character of a string is of one class. *)
Fixpoint all_chars (f : Ascii.ascii → bool) (s : string) : bool :=
  match s with
  | EmptyString => true
  | String c s' => f c && all_chars f s'
  end.

(** [s.split()]: the pieces between runs of white space; [cur] is
    the piece being read. *)
Fixpoint words_from (cur : string) (s : string) : list string :=
  match s with
  | EmptyString => if nonempty cur then [cur] else []
  | String c s' =>
      if is_space c
      then (if nonempty cur then [cur] else []) ++ words_from EmptyString s'
      else words_from (snoc cur c) s'
  end.
Definition words (s : string) : list string := words_from EmptyString s.

(** ** Persons *)

(** A [Person]: its attributes [name], [email] and [date]. *)
Record Person := mkPerson {
  person_name : option string;
  person_email : option string;
  person_date : option string
}.

Definition LESS : Ascii.ascii := char 60.
Definition GREATER : Ascii.ascii := char 62.

(** A string without its last character, and that character. *)
Fixpoint unsnoc (s : string) : option (string * Ascii.ascii) :=
  match s with
  | EmptyString => None
  | String c s' =>
      match unsnoc s' with
      | Some (a, l) => Some (String c a, l)
      | None => Some (EmptyString, c)
      end
  end.

(** What precedes and what follows the last occurrence of a character. *)
Fixpoint rsplit_char (c : Ascii.ascii) (s : string) : option (string * string) :=
  match s with
  | EmptyString => None
  | String x s' =>
      match rsplit_char c s' with
      | Some (a, b) => Some (String x a, b)
      | None => if bool_decide (x = c) then Some (EmptyString, s') else None
      end
  end.

(** [x.strip() or None] *)
Definition strip_or_None (x : string) : option string :=
  if nonempty (strip x) then Some (strip x) else None.

(** [parse_desc(s)] (lines 59-62).  The pattern is matched from the
    start: one or more characters, a less-than sign, one or more
    characters, a greater-than sign, any characters, the end.  A dot
    matches no newline and the end may come before a final newline,
    so there is a match only when the string, without a final
    newline, holds no newline.  The groups are greedy: the second
    one ends at the last greater-than sign, the first one at the last
    less-than sign that leaves it a character; the first group cannot
    be empty. *)
Definition parse_desc (s : string)
    : option (option string * option string * option string) :=
  let body := match unsnoc s with
              | Some (a, l) => if bool_decide (l = LF) then a else s
              | None => s
              end in
  if has_char LF body then None else
  match rsplit_char GREATER body with
  | Some (before, tail) =>
      match unsnoc before with
      | Some (init, l) =>
          match rsplit_char LESS init with
          | Some (group1, group2) =>
              if nonempty group1
              then Some (strip_or_None group1, strip_or_None (snoc group2 l),
                         strip_or_None tail)
              else None
          | None => None
          end
      | None => None
      end
  | None => None
  end.

(** [Person(name, email, date, desc)] (lines 49-63) *)
Definition Person_init (name email date desc : option string) : res Person :=
  if truthy name || truthy email || truthy date then
    if truthy desc then Raise AssertionError
    else Ok (mkPerson name email date)
  else if truthy desc then
    match parse_desc (default EmptyString desc) with
    | Some (name, email, date) => Ok (mkPerson name email date)
    | None => Raise AssertionError
    end
  else Ok (mkPerson None None None).

(** [Person.set_name(val)], [set_email(val)], [set_date(val)]
    (lines 64-72) *)
Definition Person_set_name (p : Person) (val : option string) : Person :=
  if truthy val then mkPerson val (person_email p) (person_date p) else p.
Definition Person_set_email (p : Person) (val : option string) : Person :=
  if truthy val then mkPerson (person_name p) val (person_date p) else p.
Definition Person_set_date (p : Person) (val : option string) : Person :=
  if truthy val then mkPerson (person_name p) (person_email p) val else p.

(** [str(person)] (lines 73-77) *)
Definition Person_str (p : Person) : res string :=
  if truthy (person_name p) && truthy (person_email p)
  then Ok (default EmptyString (person_name p) +:+ " <"
           +:+ default EmptyString (person_email p) +:+ ">")
  else Raise (GitException "not enough identity data").

(** ** Refspecs *)

Definition COLON : Ascii.ascii := char 58.

Definition not_colon (c : Ascii.ascii) : bool := negb (bool_decide (c = COLON)).

(** The two refspec patterns (lines 963 and 970) differ only in the
    group they keep: any characters but a colon, a colon, any
    characters but a colon, up to the end.  A character class matches
    newlines too, so the second part runs to the end of the string. *)
Definition refspec_match (refspec : string) : option (string * string) :=
  let '(remote, r) := span not_colon refspec in
  match r with
  | String _ r' =>
      let '(localpart, rest) := span not_colon r' in
      if nonempty rest then None else Some (remote, localpart)
  | EmptyString => None
  end.

(** [refspec_localpart(refspec)] (lines 962-967).  The message of the
    exception is formatted from [line], a name that neither the
    function nor the module binds: what is raised is a [NameError]. *)
Definition refspec_localpart (refspec : string) : res string :=
  match refspec_match refspec with
  | Some m => Ok m.2
  | None => Raise NameError
  end.

(** [refspec_remotepart(refspec)] (lines 969-974) *)
Definition refspec_remotepart (refspec : string) : res string :=
  match refspec_match refspec with
  | Some m => Ok m.1
  | None => Raise NameError
  end.

(** ** FETCH_HEAD *)

Definition not_tab (c : Ascii.ascii) : bool := negb (bool_decide (c = TAB)).

(** The pattern of line 1039, matched at the start of a line:
    characters other than a tab, then two tabs; the group is what
    precedes the tabs. *)
Definition for_merge (line : string) : option string :=
  let '(id, r) := span not_tab line in
  match r with
  | String t1 (String t2 _) =>
      if bool_decide (t1 = TAB) && bool_decide (t2 = TAB) then Some id else None
  | _ => None
  end.

(** The loop over the lines of the file (lines 1037-1044). *)
Fixpoint fetch_head_lines (lines : list string) (fetch_head : option string)
    : res (option string) :=
  match lines with
  | [] => Ok fetch_head
  | line :: rest =>
      match for_merge line with
      | Some id =>
          if truthy fetch_head
          then Raise (GitException "StGit does not support multiple FETCH_HEAD")
          else fetch_head_lines rest (Some id)
      | None => fetch_head_lines rest fetch_head
      end
  end.

Section Interface.
Variable git : list event → call → reply.
Variable basedir : string.
Variable config_get : string → option string.

(** ** Commit objects *)

(** [Commit.get_parents()] (lines 114-116) *)
Definition Commit_get_parents (c : Commit) : M (list string) :=
  line <- GRun_output_one_line git
            (cmd ["git-rev-list"; "--parents"; "--max-count=1"; commit_id_hash c]) ;;
  ret (drop 1 (words line)).

(** [Commit.get_parent()] (lines 107-112) *)
Definition Commit_get_parent (c : Commit) : M (option string) :=
  parents <- Commit_get_parents c ;;
  match parents with
  | parent :: _ => ret (Some parent)
  | [] => ret None
  end.

(** ** Remotes *)

(** [fetch_head()] (lines 1030-1051) *)
Definition fetch_head : M (option string) :=
  w <- get_world ;;
  match fs w !! path_join basedir "FETCH_HEAD" with
  | None => raise IOError
  | Some content =>
      match fetch_head_lines (readlines content) None with
      | Raise e => raise e
      | Ok fetch_head =>
          (if truthy fetch_head then ret tt
           else out_print (OutWarn "No for-merge remote head found in FETCH_HEAD")) ;;
          (* here we are sure to have a single fetch_head *)
          ret fetch_head
      end
  end.

(** ** Branches *)

(** [ref_exists(ref)] (lines 337-342) *)
Definition ref_exists (ref : string) : M bool :=
  try_except (rev_parse git ref ;; ret true)
    is_GitException
    (λ _, ret false).

(** [branch_exists(branch)] (lines 344-345) *)
Definition branch_exists (branch : string) : M bool :=
  ref_exists ("refs/heads/" +:+ branch).

(** The removal of a leftover [MERGE_HEAD] that ends [create_branch]
    and [switch_branch] (lines 361-362 and 382-383). *)
Definition remove_merge_head : M unit :=
  w <- get_world ;;
  let merge_head := path_join basedir "MERGE_HEAD" in
  if bool_decide (is_Some (fs w !! merge_head))
  then set_fs (delete merge_head (fs w)) else ret tt.

(** [create_branch(new_branch, tree_id)] (lines 347-362) *)
Definition create_branch (new_branch : string) (tree_id : option string) : M unit :=
  taken <- branch_exists new_branch ;;
  if (taken : bool)
  then raise (GitException ("Branch " +:+ dquote +:+ new_branch +:+ dquote
                            +:+ " already exists"))
  else
    current_head <- get_head git ;;
    set_head_file git new_branch ;;
    __set_head git current_head ;;
    (* a checkout isn't needed if new branch points to the current head *)
    (if truthy tree_id then switch git (default EmptyString tree_id) false else ret tt) ;;
    remove_merge_head.

(** [switch_branch(new_branch)] (lines 364-383) *)
Definition switch_branch (new_branch : string) : M unit :=
  present <- branch_exists new_branch ;;
  if negb present
  then raise (GitException ("Branch " +:+ dquote +:+ new_branch +:+ dquote
                            +:+ " does not exist"))
  else
    tree_id <- rev_parse git ("refs/heads/" +:+ new_branch +:+ "^{commit}") ;;
    head <- get_head git ;;
    (if bool_decide (tree_id ≠ head) then
       refresh_index git ;;
       try_except
         (head <- get_head git ;;
          GRun_run git (cmd ["git-read-tree"; "-u"; "-m"; head; tree_id]))
         is_GitRunException
         (λ _, raise (GitException "git-read-tree failed (local changes maybe?)")) ;;
       set___head (Some tree_id)
     else ret tt) ;;
    set_head_file git new_branch ;;
    remove_merge_head.

(** ** The working tree *)

(** [ls_files(files, tree, full_name)] (lines 169-188) *)
Definition ls_files (files : option (list string)) (tree : option string)
    (full_name : bool) : M (list string) :=
  if negb (list_truthy files) then ret [] else
  let args := (if truthy tree then ["--with-tree=" +:+ default EmptyString tree] else [])
              ++ (if full_name then ["--full-name"] else [])
              ++ ["--"] ++ default [] files in
  try_except
    (GRun_output_lines git (cmd ("git-ls-files" :: "--error-unmatch" :: args)))
    is_GitRunException
    (* just hide the details of the git-ls-files command we use *)
    (λ _, raise (GitException
                   "Some of the given paths are either missing or not known to GIT")).

(** [diffstat(files, rev1, rev2)] (lines 769-772) *)
Definition diffstat (files : option (list string)) (rev1 rev2 : option string)
    : M string :=
  diff_str <- diff git files rev1 rev2 [] ;;
  GRun_raw_output git (mkCall ["git-apply"; "--stat"; "--summary"] (Some diff_str) []).

(** What [barefiles] keeps of a line: what follows the fourth space
    and, there, the first tab. *)
Definition bare_path (line : string) : string :=
  List.last (split_n TAB 1 (List.last (split_n SPACE 4 line) EmptyString)) EmptyString.

(** [barefiles(rev1, rev2)] (lines 785-793) *)
Definition barefiles (rev1 rev2 : string) : M string :=
  lines <- GRun_output_lines git (cmd ["git-diff-tree"; "-r"; rev1; rev2]) ;;
  ret (join (String LF EmptyString) (bare_path <$> lines)).

(** [local_changes(verbose)] (lines 244-247) *)
Definition local_changes (verbose : bool) : M bool :=
  cache_files <- tree_status git basedir config_get None "HEAD" false true verbose [] ;;
  ret (bool_decide (length cache_files ≠ 0)).

(** [rm(files, force)] (lines 516-527); a path exists when the file
    system holds it. *)
Definition rm (files : list string) (force : bool) : M unit :=
  if negb force then
    for_each files
      (λ f, w <- get_world ;;
            if bool_decide (is_Some (fs w !! f))
            then raise (GitException (f +:+ " exists. Remove it first"))
            else ret tt) ;;
    if list_truthy (Some files)
    then GRun_xargs git ["git-update-index"; "--remove"; "--"] files
    else ret tt
  else
    if list_truthy (Some files)
    then GRun_xargs git ["git-update-index"; "--force-remove"; "--"] files
    else ret tt.

(** [checkout(files, tree_id, force)] (lines 803-818) *)
Definition checkout (files : option (list string)) (tree_id : option string)
    (force : bool) : M unit :=
  (if truthy tree_id then
     let tree_id := default EmptyString tree_id in
     try_except (GRun_run git (cmd ["git-read-tree"; "--reset"; tree_id]))
       is_GitRunException
       (λ _, raise (GitException ("Failed git-read-tree --reset " +:+ tree_id)))
   else ret tt) ;;
  let command := ["git-checkout-index"; "-q"; "-u"] ++ (if force then ["-f"] else []) in
  if list_truthy files
  then GRun_xargs git (command ++ ["--"]) (default [] files)
  else GRun_run git (cmd (command ++ ["-a"])).

End Interface.
End Repo.

(** ** More observations on a run *)
Module Trace.
Import Git Observe Repo.

(** What the functions that only look at the index and the working
    tree leave alone: the ref store, the symbolic HEAD and the HEAD
    cache; and they run no command that reads or writes a ref. *)
Definition leaves_refs (w w' : world) : Prop :=
  refs w' = refs w
  ∧ symbolic_head w' = symbolic_head w
  ∧ __head w' = __head w
  ∧ ∃ new, history w' = history w ++ new
           ∧ Forall (λ e, match e with
                          | Ran c => ref_command c = false
                          | MergedFile _ _ => True
                          end) new.

Definition leaves_refs_in {A} (m : M A) : Prop := ∀ w, leaves_refs w (m w).2.

(** A computation that leaves every ref with the value it had. *)
Definition same_refs_in {A} (m : M A) : Prop := ∀ w, refs (m w).2 = refs w.

(** Whether a command is a run of one of the given programs. *)
Definition program_in (programs : list string) (c : call) : bool :=
  match argv c with
  | prog :: _ => bool_decide (prog ∈ programs)
  | [] => false
  end.

(** Everything that happened from [w] to [w'] is a run of one of the
    given programs. *)
Definition runs_only (programs : list string) (w w' : world) : Prop :=
  ∃ new, history w' = history w ++ new
         ∧ Forall (λ e, match e with
                        | Ran c => program_in programs c = true
                        | MergedFile _ _ => False
                        end) new.

Definition runs_only_in {A} (programs : list string) (m : M A) : Prop :=
  ∀ w, runs_only programs w (m w).2.

(** The parents and the environment of the [git-commit-tree] run of
    [commit]. *)
Definition commit_parents (o : commit_options) : list string :=
  if list_truthy (co_parents o) then default [] (co_parents o) else [].

Definition commit_env (o : commit_options) : list (string * string) :=
  let var name v := if truthy v then [(name, default EmptyString v)] else [] in
  var "GIT_AUTHOR_NAME" (co_author_name o)
  ++ var "GIT_AUTHOR_EMAIL" (co_author_email o)
  ++ var "GIT_AUTHOR_DATE" (co_author_date o)
  ++ var "GIT_COMMITTER_NAME" (co_committer_name o)
  ++ var "GIT_COMMITTER_EMAIL" (co_committer_email o).

(** The message as [commit] hands it to [git-commit-tree]. *)
Definition with_final_newline (message : string) : string :=
  if ends_with_newline message then message else snoc message LF.

(** The [git-commit-tree] run of [commit]. *)
Definition commit_tree_call (tree_id : string) (parents : list string)
    (message : string) (env : list (string * string)) : call :=
  mkCall (["git-commit-tree"; tree_id] ++ flat_map (λ p, ["-p"; p]) parents)
         (Some message) env.

(** A line of [git-ls-files --unmerged --stage] for one stage of a path. *)
Definition unmerged_line (mode hash stage path : string) : string :=
  mode +:+ " " +:+ hash +:+ " " +:+ stage +:+ String TAB path.

(** What [merge] relies on when it looks the three stages of a path
    up: they are there, and one of them is set. *)
Definition staged (files : files_dict) : Prop :=
  ∀ path stages, files !! path = Some stages →
    dom stages = {[ "1"; "2"; "3" ]}
    ∧ ∃ stage mode hash, stages !! stage = Some (mode, hash)
                         ∧ mode ≠ "" ∧ String.length hash = 40.

(** An entry of [git-diff-index] or [git-diff-tree] in its raw format: the two modes and
    the two hashes, then the status and, after a tab, the path. *)
Record diff_entry := mkDiffEntry {
  de_mode1 : string;
  de_mode2 : string;
  de_hash1 : string;
  de_hash2 : string;
  de_status : string;
  de_path : string
}.

(** The line git prints for an entry. *)
Definition diff_index_line (e : diff_entry) : string :=
  ":" +:+ de_mode1 e +:+ " " +:+ de_mode2 e +:+ " " +:+ de_hash1 e +:+ " "
  +:+ de_hash2 e +:+ " " +:+ de_status e +:+ String TAB (de_path e).

(** The fields before the path hold no space and the status no tab. *)
Definition plain_fields (e : diff_entry) : Prop :=
  has_char SPACE (de_mode1 e) = false
  ∧ has_char SPACE (de_mode2 e) = false
  ∧ has_char SPACE (de_hash1 e) = false
  ∧ has_char SPACE (de_hash2 e) = false
  ∧ has_char SPACE (de_status e) = false
  ∧ has_char TAB (de_status e) = false.

(** Moreover the path does not end with white space. *)
Definition plain_entry (e : diff_entry) : Prop :=
  plain_fields e ∧ de_path e ≠ "" ∧ rstrip (de_path e) = de_path e.

(** The [git-diff-index] run of [tree_status]. *)
Definition diff_index_call (files : option (list string)) (tree_id : string)
    (diff_flags : list string) : call :=
  cmd ("git-diff-index"
       :: diff_flags ++ [tree_id]
          ++ (if list_truthy files then "--" :: default [] files else [])).

(** The value of a header line of a commit object if it is a header
    of the given name, and the value of the last such header. *)
Definition header (key : string) (line : string) : option string :=
  match split_n SPACE 1 line with
  | [k; v] => if bool_decide (k = key) then Some v else None
  | _ => None
  end.

Definition last_header (key : string) (headers : list string) : option string :=
  last (omap (header key) headers).

(** The [git-rev-list] run of [Commit.get_parents]. *)
Definition rev_list_call (id_hash : string) : call :=
  cmd ["git-rev-list"; "--parents"; "--max-count=1"; id_hash].

(** A word: not empty and without white space. *)
Definition word (s : string) : Prop :=
  s ≠ "" ∧ all_chars (λ c, negb (is_space c)) s = true.

(** The [git-read-tree] run of [switch] and [switch_branch]. *)
Definition read_tree_call (head tree_id : string) : call :=
  cmd ["git-read-tree"; "-u"; "-m"; head; tree_id].

(** The file [create_branch] and [switch_branch] remove. *)
Definition merge_head_file (basedir : string) : string := path_join basedir "MERGE_HEAD".

End Trace.

(** ** More repositories *)
Module Cases.
Import Git Observe Scenario Repo Trace.
Local Open Scope git_scope.

(** The repository of [Scenario], with a merge left unfinished. *)
Definition mid_merge : world :=
  mkWorld {[ "refs/heads/master" := sha "a" ]} (Some "refs/heads/master")
          None ∅ [] {[ ".git/MERGE_HEAD" := sha "m" ]} "" [] [].

(** A repository with the branches master, at commit a, and topic, at
    commit b; HEAD is on master. *)
Definition two_branches : world :=
  mkWorld {[ "refs/heads/master" := sha "a"; "refs/heads/topic" := sha "b" ]}
          (Some "refs/heads/master") None ∅ [] ∅ "" [] [].

(** A working tree that holds the file f. *)
Definition with_file_f : world :=
  mkWorld {[ "refs/heads/master" := sha "a" ]} (Some "refs/heads/master")
          None ∅ [] {[ "f" := "text" ]} "" [] [].

(** A repository whose FETCH_HEAD has the given content. *)
Definition fetched (content : string) : world :=
  mkWorld {[ "refs/heads/master" := sha "a" ]} (Some "refs/heads/master")
          None ∅ [] {[ ".git/FETCH_HEAD" := content ]} "" [] [].

(** The lines of FETCH_HEAD after a fetch of two branches, one of
    them for merge; and after a fetch of four branches, the first and
    the third of them for merge. *)
Definition for_merge_line (id branch : string) : string :=
  snoc (id +:+ String TAB (String TAB ("branch " +:+ branch +:+ " of ../repo"))) LF.
Definition not_for_merge_line (id branch : string) : string :=
  snoc (id +:+ String TAB ("not-for-merge" +:+ String TAB
                             ("branch " +:+ branch +:+ " of ../repo"))) LF.
Definition one_for_merge : string :=
  not_for_merge_line (sha "c") "next" +:+ for_merge_line (sha "b") "master".
Definition two_for_merge : string :=
  for_merge_line (sha "b") "master" +:+ not_for_merge_line (sha "d") "maint"
  +:+ for_merge_line (sha "c") "next" +:+ not_for_merge_line (sha "e") "topic".

(** The repository of [Scenario] once its head is cached. *)
Definition headed : world := (get_head git_quiet repository).2.

(** Git programs that write a tree t and a commit n. *)
Definition git_committing (h : list event) (c : call) : reply :=
  match argv c with
  | "git-write-tree" :: _ => Done (snoc (sha "t") LF)
  | "git-commit-tree" :: _ => Done (snoc (sha "n") LF)
  | _ => Done ""
  end.

(** The commit object n as [git-cat-file] prints it. *)
Definition headers_of_n : list string :=
  ["tree " +:+ sha "t";
   "author A U Thor <author@example.com> 1 +0000";
   "committer C O Mitter <committer@example.com> 2 +0000"].
Definition body_of_n : list string := ["subject"; ""; "details"].
Definition git_object (h : list event) (c : call) : reply :=
  match argv c with
  | "git-cat-file" :: _ =>
      Done (snoc (join (String LF "") (headers_of_n ++ "" :: body_of_n)) LF)
  | _ => Done ""
  end.

(** A working tree in which the file f is modified. *)
Definition modified_f : diff_entry :=
  mkDiffEntry "100644" "100644" (sha "1") (sha "2") "M" "f".
Definition git_modified (h : list event) (c : call) : reply :=
  match argv c with
  | "git-diff-index" :: _ | "git-diff-tree" :: _ =>
      Done (snoc (diff_index_line modified_f) LF)
  | _ => Done ""
  end.

(** Git programs that know the commit of the branch topic. *)
Definition git_peeling (h : list event) (c : call) : reply :=
  if bool_decide (argv c = ["git-rev-parse"; "--verify"; "refs/heads/topic^{commit}"])
  then Done (snoc (sha "b") LF)
  else Done "".



(** Git programs for which commit n has the parents a and b. *)
Definition git_merged (h : list event) (c : call) : reply :=
  match argv c with
  | "git-rev-list" :: _ => Done (snoc (join " " [sha "n"; sha "a"; sha "b"]) LF)
  | _ => Done ""
  end.
Definition commit_n : Commit := mkCommit (sha "n") None None None "".

(** The two unmerged stages of path p. *)
Definition stages_of_p : list string :=
  [unmerged_line "100644" (sha "1") "1" "p"; unmerged_line "100644" (sha "3") "3" "p"].

End Cases.

(** Decides a closed proposition by evaluating its decision procedure. *)
Ltac by_evaluation := apply (bool_decide_unpack _); vm_compute; exact I.

(** * Properties of the hide command *)
Section HideProperties.
Import Hide.

Implicit Types (trans : StackState) (patches : list string) (p : string).

Lemma hide_patches_filter trans patches :
  hide_patches trans patches = filter (λ p, p ∉ hidden trans) patches.
Proof.
  unfold hide_patches. apply list_filter_iff. intros p.
  by rewrite elem_of_list_to_set.
Qed.

Lemma hide_patches_elem trans patches p :
  p ∈ hide_patches trans patches ↔ p ∈ patches ∧ p ∉ hidden trans.
Proof. rewrite hide_patches_filter, list_elem_of_filter. tauto. Qed.

Lemma hide_patches_none_hidden trans patches :
  (∀ p, p ∈ patches → p ∉ hidden trans) → hide_patches trans patches = patches.
Proof.
  intros H. rewrite hide_patches_filter.
  induction patches as [|q l IH]; [done|].
  rewrite filter_cons_True by (apply H; left).
  f_equal. apply IH. intros p Hp. apply H. by right.
Qed.

Lemma hide_patches_all_hidden trans patches :
  (∀ p, p ∈ patches → p ∈ hidden trans) → hide_patches trans patches = [].
Proof.
  intros H. rewrite hide_patches_filter.
  induction patches as [|q l IH]; [done|].
  rewrite filter_cons_False by (intros Hq; apply Hq, H; left).
  apply IH. intros p Hp. apply H. by right.
Qed.

Lemma hide_patches_idemp trans patches :
  hide_patches trans (hide_patches trans patches) = hide_patches trans patches.
Proof.
  apply hide_patches_none_hidden. intros p Hp.
  by apply hide_patches_elem in Hp as [_ ?].
Qed.

Lemma filter_not_in_set (s : list string) (l : list string) :
  filter (λ p, p ∉ (list_to_set s : gset string)) l = filter (λ p, p ∉ s) l.
Proof. apply list_filter_iff. intros p. by rewrite elem_of_list_to_set. Qed.

Lemma filter_nothing_removed (s l : list string) :
  (∀ p, p ∈ s → p ∉ l) → filter (λ p, p ∉ s) l = l.
Proof.
  intros H. induction l as [|q l IH]; [done|].
  rewrite filter_cons_True.
  - f_equal. apply IH. intros p Hp Hl. apply (H p Hp). by right.
  - intros Hq. apply (H q Hq). left.
Qed.

Lemma occurrences_app p (l1 l2 : list string) :
  occurrences p (l1 ++ l2) = occurrences p l1 + occurrences p l2.
Proof. unfold occurrences. by rewrite filter_app, length_app. Qed.

Lemma occurrences_absent p (l : list string) : p ∉ l → occurrences p l = 0.
Proof.
  unfold occurrences. induction l as [|q l IH]; intros Hp; [done|].
  rewrite not_elem_of_cons in Hp. destruct Hp as [Hne Hp].
  rewrite filter_cons_False by congruence. by apply IH.
Qed.

Lemma occurrences_filter_keep p (s l : list string) :
  p ∉ s → occurrences p (filter (λ q, q ∉ s) l) = occurrences p l.
Proof.
  intros Hp. unfold occurrences. induction l as [|q l IH]; [done|].
  destruct (decide (q = p)) as [->|Hne].
  - rewrite (filter_cons_True (λ q, q ∉ s)) by done.
    rewrite !(filter_cons_True (λ y, y = p)) by done. simpl. by rewrite IH.
  - rewrite (filter_cons_False (λ y, y = p) q l) by done.
    destruct (decide (q ∉ s)).
    + rewrite (filter_cons_True (λ q, q ∉ s)) by done.
      by rewrite (filter_cons_False (λ y, y = p)) by done.
    + by rewrite (filter_cons_False (λ q, q ∉ s)) by done.
Qed.

Lemma hide_warnings_filter trans patches :
  hide_warnings trans patches
  = (already_hidden_message <$> filter (λ p, p ∈ hidden trans) patches).
Proof.
  unfold hide_warnings. induction patches as [|q l IH]; [done|].
  simpl. rewrite IH. case_bool_decide.
  - by rewrite filter_cons_True by done.
  - by rewrite filter_cons_False by done.
Qed.

Lemma hide_target_applied trans patches :
  applied (hide_target trans patches)
  = filter (λ p, p ∉ hide_patches trans patches) (applied trans).
Proof. unfold hide_target. simpl. apply filter_not_in_set. Qed.

Lemma hide_target_unapplied trans patches :
  unapplied (hide_target trans patches)
  = filter (λ p, p ∉ hide_patches trans patches) (unapplied trans).
Proof. unfold hide_target. simpl. apply filter_not_in_set. Qed.

Lemma hide_target_hidden trans patches :
  hidden (hide_target trans patches) = hide_patches trans patches ++ hidden trans.
Proof. done. Qed.

(** C1 (as the code has it): every requested name that is already
    hidden is warned about with the text [Patch "<name>" already hidden],
    once per request, and is left out of the working list of patches
    to hide; the target keeps that name where it was (the old hidden
    list is kept whole, behind the newly hidden names, and the name's
    number of occurrences in every list is unchanged); and the command
    ends exactly as it would have without the already-hidden requests,
    so these never make it fail. *)
Theorem hide_already_hidden_warned_and_dropped
    (push : string → list string → list string) trans patches p :
  p ∈ patches → p ∈ hidden trans →
  hide_warnings trans patches
    = (already_hidden_message <$> filter (λ q, q ∈ hidden trans) patches)
  ∧ already_hidden_message p ∈ hide_warnings trans patches
  ∧ (p ∉ hide_patches trans patches)
  ∧ hidden (hide_target trans patches) = hide_patches trans patches ++ hidden trans
  ∧ occurrences p (hidden (hide_target trans patches)) = occurrences p (hidden trans)
  ∧ occurrences p (applied (hide_target trans patches)) = occurrences p (applied trans)
  ∧ occurrences p (unapplied (hide_target trans patches)) = occurrences p (unapplied trans)
  ∧ hide_target trans patches = hide_target trans (hide_patches trans patches)
  ∧ returned (func_body push trans patches)
    = returned (func_body push trans (hide_patches trans patches))
  ∧ stored_after (func_body push trans patches)
    = stored_after (func_body push trans (hide_patches trans patches)).
Proof.
  intros Hp Hh.
  assert (Hdrop : p ∉ hide_patches trans patches).
  { rewrite hide_patches_elem. tauto. }
  assert (Hsame : hide_target trans patches
                  = hide_target trans (hide_patches trans patches)).
  { unfold hide_target. by rewrite hide_patches_idemp. }
  split; [apply hide_warnings_filter|].
  split.
  { rewrite hide_warnings_filter. apply list_elem_of_fmap_2.
    by apply list_elem_of_filter. }
  split; [done|]. split; [done|].
  split.
  { rewrite hide_target_hidden, occurrences_app.
    by rewrite (occurrences_absent _ _ Hdrop). }
  split; [rewrite hide_target_applied; by apply occurrences_filter_keep|].
  split; [rewrite hide_target_unapplied; by apply occurrences_filter_keep|].
  split; [done|].
  unfold func_body. rewrite <- Hsame.
  destruct (setTarget trans _ _ _) as [e|target]; [done|].
  by destruct (run push trans target trans) as [[o st] ops].
Qed.

(** C2: when no requested name is hidden already, the target's applied
    list is the current applied list without the requested names, in
    the same order, likewise for the unapplied list (which is therefore
    unchanged when every requested name is applied and no name sits in
    two lists), and the target's hidden list is the requested names
    followed by the old hidden list. *)
Theorem hide_target_moves_requested trans patches :
  (∀ p, p ∈ patches → p ∉ hidden trans) →
  applied (hide_target trans patches) = filter (λ p, p ∉ patches) (applied trans)
  ∧ sublist (applied (hide_target trans patches)) (applied trans)
  ∧ unapplied (hide_target trans patches) = filter (λ p, p ∉ patches) (unapplied trans)
  ∧ sublist (unapplied (hide_target trans patches)) (unapplied trans)
  ∧ (NoDup (all_patches trans) → (∀ p, p ∈ patches → p ∈ applied trans) →
     unapplied (hide_target trans patches) = unapplied trans)
  ∧ hidden (hide_target trans patches) = patches ++ hidden trans.
Proof.
  intros Hnh.
  rewrite hide_target_applied, hide_target_unapplied, hide_target_hidden.
  rewrite (hide_patches_none_hidden _ _ Hnh).
  split; [done|]. split; [apply sublist_filter|].
  split; [done|]. split; [apply sublist_filter|].
  split; [|done].
  intros Hnd Happ. apply filter_nothing_removed.
  intros p Hp Hu. unfold all_patches in Hnd.
  apply NoDup_app in Hnd as (_ & Hdisj & _).
  apply (Hdisj p (Happ p Hp)). apply elem_of_app. by left.
Qed.

(** C3: on a stack whose names are pairwise distinct across the three
    lists, and for a request of distinct known names, the lists handed
    to [reorder_patches] again hold every name exactly once, and hold
    the same names as before. *)
Theorem hide_target_keeps_names trans patches :
  NoDup (all_patches trans) →
  NoDup patches →
  (∀ p, p ∈ patches → p ∈ all_patches trans) →
  NoDup (all_patches (hide_target trans patches))
  ∧ all_patches (hide_target trans patches) ≡ₚ all_patches trans.
Proof.
  intros Hnd Hreq Hknown.
  set (P := hide_patches trans patches).
  assert (HP : ∀ p, p ∈ P ↔ p ∈ patches ∧ p ∉ hidden trans)
    by (intros; apply hide_patches_elem).
  assert (HndP : NoDup P).
  { unfold P. rewrite hide_patches_filter. by apply NoDup_filter. }
  unfold all_patches in *.
  rewrite hide_target_applied, hide_target_unapplied, hide_target_hidden.
  fold P.
  apply NoDup_app in Hnd as (Ha & Hau & Hnd).
  apply NoDup_app in Hnd as (Hu & Huh & Hh).
  assert (Hnew : NoDup (filter (λ p, p ∉ P) (applied trans)
                        ++ filter (λ p, p ∉ P) (unapplied trans)
                        ++ P ++ hidden trans)).
  { apply NoDup_app. split; [by apply NoDup_filter|]. split.
    - intros x Hx. apply list_elem_of_filter in Hx as [HxP Hxa].
      rewrite !elem_of_app, list_elem_of_filter.
      specialize (Hau x Hxa). rewrite elem_of_app in Hau. tauto.
    - apply NoDup_app. split; [by apply NoDup_filter|]. split.
      + intros x Hx. apply list_elem_of_filter in Hx as [HxP Hxu].
        rewrite elem_of_app. specialize (Huh x Hxu). tauto.
      + apply NoDup_app. split; [done|]. split; [|done].
        intros x Hx. apply HP in Hx. tauto. }
  split; [done|].
  apply NoDup_Permutation; [done| |].
  { apply NoDup_app. split; [done|]. split; [done|].
    apply NoDup_app. by split. }
  intros x. rewrite !elem_of_app, !list_elem_of_filter, HP.
  specialize (Hknown x). rewrite !elem_of_app in Hknown.
  destruct (decide (x ∈ patches)); destruct (decide (x ∈ hidden trans)); tauto.
Qed.

Lemma first_duplicate_NoDup (l : list string) : NoDup l → first_duplicate l = None.
Proof.
  induction 1 as [|x l Hx _ IH]; [done|].
  simpl. by rewrite bool_decide_eq_false_2.
Qed.

Lemma setTarget_current trans :
  NoDup (all_patches trans) →
  setTarget trans (applied trans) (unapplied trans) (hidden trans) = inr trans.
Proof.
  intros Hnd. unfold setTarget. fold (all_patches trans).
  destruct (List.find _ _) as [p|] eqn:Hf.
  - apply find_some in Hf as [Hin Hp].
    apply bool_decide_eq_true_1 in Hp. by apply list_elem_of_In in Hin.
  - rewrite (first_duplicate_NoDup _ Hnd). by destruct trans.
Qed.

Lemma commonPrefixLen_same (l : list string) : commonPrefixLen l l = length l.
Proof.
  induction l as [|x l IH]; [done|].
  simpl. by rewrite bool_decide_eq_true_2, IH.
Qed.

Lemma run_noop (push : string → list string → list string) trans :
  run push trans trans trans = (Success, trans, [OpPublish trans trans]).
Proof.
  unfold run. rewrite commonPrefixLen_same, drop_all. simpl.
  by rewrite bool_decide_eq_true_2.
Qed.

Lemma hide_target_all_hidden trans patches :
  (∀ p, p ∈ patches → p ∈ hidden trans) → hide_target trans patches = trans.
Proof.
  intros Hall.
  pose proof (hide_target_applied trans patches) as Ha.
  pose proof (hide_target_unapplied trans patches) as Hu.
  pose proof (hide_target_hidden trans patches) as Hh.
  rewrite (hide_patches_all_hidden _ _ Hall) in Ha, Hu, Hh.
  rewrite filter_nothing_removed in Ha by (intros ? Hp; inversion Hp).
  rewrite filter_nothing_removed in Hu by (intros ? Hp; inversion Hp).
  destruct (hide_target trans patches), trans. simpl in *. congruence.
Qed.

(** C4: when every requested name is hidden already, the target's
    three lists are the current ones; [run()] is still called, so the
    stored state is published again with an equal value and no pop or
    push; and the command returns success. *)
Theorem hide_all_hidden_is_noop
    (push : string → list string → list string)
    (parse_patches : list string → list string → exn + list string)
    (args : list string) (stack : StackState) patches :
  args ≠ [] →
  parse_patches args (all_patches stack) = inr patches →
  (∀ p, p ∈ patches → p ∈ hidden stack) →
  NoDup (all_patches stack) →
  hide_target stack patches = stack
  ∧ returned (func push parse_patches args stack) = inr Success
  ∧ stored_after (func push parse_patches args stack) = stack
  ∧ backend_ops (func push parse_patches args stack) = [OpPublish stack stack].
Proof.
  intros Hargs Hparse Hall Hnd.
  pose proof (hide_target_all_hidden _ _ Hall) as Ht.
  split; [done|].
  unfold func. destruct args as [|a args]; [done|].
  rewrite Hparse. unfold func_body. rewrite Ht.
  rewrite (setTarget_current _ Hnd), run_noop. done.
Qed.

End HideProperties.

(** * Properties of the GIT interface *)
Section GitProperties.
Import Git Observe.
Local Open Scope git_scope.
Set Default Proof Using "Type".

Context (git : list event → call → reply).
Context (gitmergeonefile_merge :
  string → string → string → string → string → string → string →
  gmap string string → Z * gmap string string).
Context (basedir : string) (config_get : string → option string).

Implicit Types (w : world) (id : string).

(** ** The monad *)

Lemma bind_Ok {A B} (m : M A) (k : A → M B) w a w1 :
  m w = (Ok a, w1) → bind m k w = k a w1.
Proof. unfold bind. by intros ->. Qed.

Lemma bind_unfold {A B} (m : M A) (k : A → M B) w :
  bind m k w = match m w with
               | (Ok a, w') => k a w'
               | (Raise e, w') => (Raise e, w')
               end.
Proof. done. Qed.

Lemma bind_inv_Ok {A B} (m : M A) (k : A → M B) w b w' :
  bind m k w = (Ok b, w') → ∃ a w1, m w = (Ok a, w1) ∧ k a w1 = (Ok b, w').
Proof.
  unfold bind. destruct (m w) as [[a|e] w1]; [|done]. intros H. by exists a, w1.
Qed.

Lemma bind_Raise {A B} (m : M A) (k : A → M B) w e w1 :
  m w = (Raise e, w1) → bind m k w = (Raise e, w1).
Proof. unfold bind. by intros ->. Qed.

(** ** Subprocesses *)

Lemma store_effect_plain c out w :
  ref_command c = false → store_effect c out w = (Ok out, w).
Proof.
  unfold ref_command, store_effect, bind, get_world.
  destruct (argv c) as [|prog [|a [|b [|? ?]]]]; try done.
  intros H. apply bool_decide_eq_false_1 in H.
  rewrite !elem_of_cons in H.
  destruct (decide (prog = "git-update-ref")) as [->|?]; [by destruct H; left|].
  rewrite bool_decide_eq_false_2 by done.
  rewrite bool_decide_eq_false_2
    by (intros [-> _]; destruct H; right; left; reflexivity).
  rewrite bool_decide_eq_false_2
    by (intros [-> _]; destruct H; right; right; left; reflexivity).
  done.
Qed.

Lemma GRun_io_plain c w :
  ref_command c = false → GRun_io git c w = plain_run git c w.
Proof.
  intros H. unfold GRun_io, plain_run, bind, get_world, log_event.
  destruct (git _ _); [|done]. by rewrite store_effect_plain.
Qed.

Lemma GRun_run_plain c w :
  ref_command c = false →
  GRun_run git c w
  = match git (history w) c with
    | Failed text => (Raise (GitRunException c text), logged (Ran c) w)
    | Done _ => (Ok tt, logged (Ran c) w)
    end.
Proof.
  intros H. unfold GRun_run, bind. rewrite (GRun_io_plain _ _ H).
  unfold plain_run. by destruct (git _ _).
Qed.

Lemma GRun_io_cat_file id w :
  GRun_io git (cmd ["git-cat-file"; "commit"; id]) w
  = plain_run git (cmd ["git-cat-file"; "commit"; id]) w.
Proof. by apply GRun_io_plain. Qed.

(** ** The working-tree status *)

Lemma GRun_run_plain_Ok c w w1 :
  ref_command c = false → GRun_run git c w = (Ok tt, w1) → w1 = logged (Ran c) w.
Proof.
  intros Hc. rewrite (GRun_run_plain _ _ Hc).
  destruct (git _ _); congruence.
Qed.

Lemma GRun_io_plain_Ok c w out w1 :
  ref_command c = false → GRun_io git c w = (Ok out, w1) →
  w1 = logged (Ran c) w ∧ git (history w) c = Done out.
Proof.
  intros Hc. rewrite (GRun_io_plain _ _ Hc). unfold plain_run.
  destruct (git _ _); [|done]. by intros [= -> ->].
Qed.

Lemma refresh_index_Ok w w1 :
  refresh_index git w = (Ok tt, w1) → fs w1 = fs w.
Proof.
  unfold refresh_index. intros H.
  by apply GRun_run_plain_Ok in H as ->.
Qed.

Lemma diff_index_entry_Ok conflicts line es :
  diff_index_entry conflicts line = Ok es → Forall (λ e, e.2 ∉ conflicts) es.
Proof.
  unfold diff_index_entry.
  destruct (split_n _ _ _) as [|status [|path [|? ?]]]; try done.
  case_bool_decide; intros [= <-]; [|done].
  by constructor.
Qed.

Lemma diff_index_entries_Ok conflicts lines : ∀ w es w',
  diff_index_entries conflicts lines w = (Ok es, w') →
  w' = w ∧ Forall (λ e, e.2 ∉ conflicts) es.
Proof.
  induction lines as [|line lines IH]; intros w es w' H; simpl in H.
  { injection H as <- <-. by split. }
  destruct (diff_index_entry conflicts line) as [e|?] eqn:He; [|done].
  apply bind_inv_Ok in H as (es' & w1 & H1 & H2).
  injection H2 as <- <-.
  apply IH in H1 as [-> Hes]. split; [done|].
  apply Forall_app. split; [|done]. by eapply diff_index_entry_Ok.
Qed.

Lemma get_conflicts_of w :
  ∃ o, get_conflicts basedir w = (Ok o, w)
       ∧ match o with Some ((_ :: _) as l) => l | _ => [] end = conflicts_of basedir w.
Proof.
  unfold get_conflicts, conflicts_of, bind, get_world, ret.
  destruct (fs w !! _) as [content|]; [|by eexists].
  eexists. split; [done|]. by destruct (strip <$> readlines content).
Qed.

(** What [tree_status] returns, when it returns: the unknown files
    (if asked for), then the conflicts that pass the filter, then the
    entries of [git-diff-index] that name no conflict. *)
Lemma tree_status_entries files tree_id unknown noexclude verbose diff_flags w r w' :
  tree_status git basedir config_get files tree_id unknown noexclude verbose diff_flags w
    = (Ok r, w') →
  ∃ unknown_files rest,
    r = unknown_files
        ++ ((λ filename, ("C", filename)) <$>
              filter (λ filename, list_truthy files = false ∨ filename ∈ default [] files)
                     (conflicts_of basedir w))
        ++ rest
    ∧ Forall (λ e, e.1 = "?") unknown_files
    ∧ (unknown = false → unknown_files = [])
    ∧ Forall (λ e, e.2 ∉ conflicts_of basedir w) rest.
Proof.
  unfold tree_status. destruct (list_truthy files && unknown); [done|].
  intros H.
  apply bind_inv_Ok in H as ([] & w1 & Hprint & H).
  assert (Hfs1 : fs w1 = fs w).
  { destruct verbose; [|by injection Hprint as <-]. by injection Hprint as <-. }
  apply bind_inv_Ok in H as ([] & w2 & Hrefresh & H).
  apply refresh_index_Ok in Hrefresh as Hfs2.
  apply bind_inv_Ok in H as (unknown_files & w3 & Hunknown & H).
  assert (Hu : fs w3 = fs w2 ∧ Forall (λ e, e.1 = "?") unknown_files
               ∧ (unknown = false → unknown_files = [])).
  { destruct unknown; [|by injection Hunknown as <- <-].
    apply bind_inv_Ok in Hunknown as (w2' & w2'' & Hget & Hunknown).
    injection Hget as <- <-.
    apply bind_inv_Ok in Hunknown as (out & w3' & Hrun & Hret).
    injection Hret as <- <-.
    apply GRun_io_plain_Ok in Hrun as [-> _]; [|done].
    split; [done|]. split; [|done].
    apply Forall_fmap, Forall_forall. by intros. }
  destruct Hu as (Hfs3 & Hq & Hnone).
  apply bind_inv_Ok in H as (o & w4 & Hconf & H).
  destruct (get_conflicts_of w3) as (o' & Hconf' & Hnorm).
  rewrite Hconf' in Hconf. injection Hconf as -> <-.
  assert (Hsame : conflicts_of basedir w3 = conflicts_of basedir w).
  { unfold conflicts_of. by rewrite Hfs3, Hfs2, Hfs1. }
  rewrite Hnorm, Hsame in H.
  apply bind_inv_Ok in H as (lines & w5 & Hlines & H).
  apply bind_inv_Ok in H as (rest & w6 & Hrest & H).
  apply diff_index_entries_Ok in Hrest as [-> Hrest].
  apply bind_inv_Ok in H as ([] & w7 & _ & H).
  injection H as <- <-.
  by exists unknown_files, rest.
Qed.

Lemma filter_nil_Forall {A} (P Q : A → Prop) `{∀ x, Decision (P x)} (l : list A) :
  Forall Q l → (∀ x, Q x → ¬ P x) → filter P l = [].
Proof.
  intros Hl HQ. induction Hl as [|x l Hx _ IH]; [done|].
  rewrite filter_cons_False by (by apply HQ). apply IH.
Qed.

Lemma filter_status_C (p : string) (l : list string) :
  filter (λ e, e = ("C", p)) ((λ filename, ("C", filename)) <$> l)
  = (λ filename, ("C", filename)) <$> filter (λ y, y = p) l.
Proof.
  induction l as [|x l IH]; [done|]. rewrite fmap_cons.
  destruct (decide (x = p)) as [->|Hne].
  - rewrite !filter_cons_True by done. by rewrite fmap_cons, IH.
  - rewrite !filter_cons_False by congruence. done.
Qed.

Lemma filter_path_C (p : string) (l : list string) :
  filter (λ e : string * string, e.2 = p) ((λ filename, ("C", filename)) <$> l)
  = (λ filename, ("C", filename)) <$> filter (λ y, y = p) l.
Proof.
  induction l as [|x l IH]; [done|]. rewrite fmap_cons.
  destruct (decide (x = p)) as [->|Hne].
  - rewrite !filter_cons_True by done. by rewrite fmap_cons, IH.
  - rewrite !filter_cons_False by done. done.
Qed.

Lemma filter_eq_filter (P : string → Prop) `{∀ x, Decision (P x)} (p : string)
    (l : list string) :
  P p → filter (λ y, y = p) (filter P l) = filter (λ y, y = p) l.
Proof.
  intros Hp. induction l as [|x l IH]; [done|].
  destruct (decide (x = p)) as [->|Hne].
  - rewrite (filter_cons_True P) by done.
    rewrite !(filter_cons_True (λ y, y = p)) by done. by rewrite IH.
  - rewrite (filter_cons_False (λ y, y = p) x l) by done.
    destruct (decide (P x)).
    + rewrite (filter_cons_True P) by done.
      by rewrite (filter_cons_False (λ y, y = p)) by done.
    + by rewrite (filter_cons_False P) by done.
Qed.

Lemma filter_eq_NoDup (p : string) (l : list string) :
  NoDup l → p ∈ l → filter (λ y, y = p) l = [p].
Proof.
  induction 1 as [|x l Hx Hnd IH]; intros Hp; [by inversion Hp|].
  destruct (decide (x = p)) as [->|Hne].
  - rewrite filter_cons_True by done. f_equal.
    apply (filter_nil_Forall _ (λ y, y ≠ p)); [|done].
    apply Forall_forall. intros y Hy ->. done.
  - rewrite filter_cons_False by done. apply IH.
    apply elem_of_cons in Hp as [->|Hp]; done.
Qed.

(** C9 (as the code has it): a path of the persisted conflicts list
    that passes the file filter is reported with status C once for
    each time the list names it, and no entry taken from
    [git-diff-index] names it; the only other status it can be
    reported with is that of an unknown file, when those are asked
    for.  So, when unknown files are not asked for and the list names
    no path twice, the path is reported exactly once, with status C. *)
Theorem tree_status_reports_conflicts
    files tree_id unknown noexclude verbose diff_flags w r w' (p : string) :
  tree_status git basedir config_get files tree_id unknown noexclude verbose diff_flags w
    = (Ok r, w') →
  p ∈ conflicts_of basedir w →
  list_truthy files = false ∨ p ∈ default [] files →
  length (filter (λ e, e = ("C", p)) r) = occurrences p (conflicts_of basedir w)
  ∧ ("C", p) ∈ r
  ∧ (∀ status, (status, p) ∈ r → status = "C" ∨ (unknown = true ∧ status = "?"))
  ∧ (unknown = false → NoDup (conflicts_of basedir w) →
     filter (λ e : string * string, e.2 = p) r = [("C", p)]).
Proof.
  intros Hrun Hp Hfilter.
  destruct (tree_status_entries _ _ _ _ _ _ _ _ _ Hrun)
    as (unknown_files & rest & -> & Hq & Hnone & Hrest).
  set (conflicts := conflicts_of basedir w) in *.
  set (P := λ filename : string,
              list_truthy files = false ∨ filename ∈ default [] files).
  assert (Hu0 : filter (λ e, e = ("C", p)) unknown_files = []).
  { apply (filter_nil_Forall _ _ _ Hq). by intros [s q] Hs [= -> _]. }
  assert (Hr0 : filter (λ e, e = ("C", p)) rest = []).
  { apply (filter_nil_Forall _ _ _ Hrest). by intros [s q] Hs [= _ ->]. }
  assert (Hr1 : filter (λ e : string * string, e.2 = p) rest = []).
  { apply (filter_nil_Forall _ _ _ Hrest). intros [s q] Hs. simpl in *. congruence. }
  split.
  { rewrite !filter_app, Hu0, Hr0, app_nil_r. simpl.
    rewrite filter_status_C, length_fmap.
    unfold occurrences. by rewrite (filter_eq_filter P). }
  split.
  { rewrite !elem_of_app. right. left.
    apply list_elem_of_fmap_2. by apply list_elem_of_filter. }
  split.
  { intros status. rewrite !elem_of_app. intros [Hin|[Hin|Hin]].
    - right. rewrite Forall_forall in Hq. specialize (Hq _ Hin). simpl in Hq.
      split; [|done]. destruct unknown; [done|].
      rewrite Hnone in Hin by done. by inversion Hin.
    - left. apply list_elem_of_fmap in Hin as (q & [= -> _] & _). done.
    - rewrite Forall_forall in Hrest. by specialize (Hrest _ Hin). }
  intros Hunknown Hnd.
  rewrite (Hnone Hunknown). simpl.
  rewrite filter_app, Hr1, app_nil_r, filter_path_C.
  rewrite (filter_eq_filter P) by done.
  by rewrite filter_eq_NoDup.
Qed.

(** ** Direct application of a diff *)

Lemma nonempty_true (s : string) : nonempty s = true ↔ s ≠ "".
Proof. by destruct s. Qed.

Lemma diff_normalised files rev1 rev2 diff_flags :
  diff git (if list_truthy files then files else Some []) rev1 rev2 diff_flags
  = diff git files rev1 rev2 diff_flags.
Proof. by destruct files as [[|? ?]|]. Qed.

Lemma apply_diff_call_plain check_index d :
  ref_command (apply_diff_call check_index d) = false.
Proof. by destruct check_index. Qed.

(** C6: once the diff between the two revisions has been computed,
    [apply_diff] does not raise: for an empty diff it returns True and
    runs nothing more (in particular no [git-apply]); otherwise it
    runs [git-apply] once and returns True if that succeeds and False
    if it fails. *)
Theorem apply_diff_never_raises rev1 rev2 check_index files w d w1 :
  diff git files rev1 rev2 [] w = (Ok d, w1) →
  (d = "" → apply_diff git rev1 rev2 check_index files w = (Ok true, w1))
  ∧ (d ≠ "" →
     apply_diff git rev1 rev2 check_index files w
     = (Ok (match git (history w1) (apply_diff_call check_index d) with
            | Done _ => true
            | Failed _ => false
            end),
        logged (Ran (apply_diff_call check_index d)) w1)).
Proof.
  intros Hdiff. unfold apply_diff. rewrite diff_normalised.
  rewrite (bind_Ok _ _ _ _ _ Hdiff).
  split.
  - by intros ->.
  - intros Hd. apply nonempty_true in Hd. rewrite Hd.
    unfold try_except, bind.
    rewrite (GRun_run_plain _ _ (apply_diff_call_plain _ _)).
    by destruct (git _ _).
Qed.

(** ** The three-way merge *)




Lemma refresh_index_logged w w1 :
  refresh_index git w = (Ok tt, w1) → w1 = logged (Ran refresh_index_call) w.
Proof. unfold refresh_index. by apply GRun_run_plain_Ok. Qed.



Lemma since_app w w' l : history w' = history w ++ l → since w w' = l.
Proof. unfold since. intros ->. by rewrite drop_app_length. Qed.








(** ** HEAD and its cache *)

Lemma GRun_io_rev_parse git_id w :
  GRun_io git (rev_parse_call git_id) w
  = match git (history w) (rev_parse_call git_id) with
    | Failed text =>
        (Raise (GitRunException (rev_parse_call git_id) text),
         logged (Ran (rev_parse_call git_id)) w)
    | Done out =>
        (Ok (match resolve w git_id with
             | Some sha1 => snoc sha1 LF
             | None => out
             end),
         logged (Ran (rev_parse_call git_id)) w)
    end.
Proof.
  unfold GRun_io, bind, get_world, log_event.
  destruct (git _ _) as [out|text]; [|done].
  unfold store_effect, bind, get_world. simpl.
  change (resolve _ git_id) with (resolve w git_id).
  by destruct (resolve w git_id).
Qed.

Lemma GRun_run_update_ref ref val w :
  GRun_run git (update_ref_call ref val) w
  = match git (history w) (update_ref_call ref val) with
    | Failed text =>
        (Raise (GitRunException (update_ref_call ref val) text),
         logged (Ran (update_ref_call ref val)) w)
    | Done _ =>
        (Ok tt, with_refs (update_ref w ref val) (logged (Ran (update_ref_call ref val)) w))
    end.
Proof.
  unfold GRun_run, GRun_io, bind, get_world, log_event.
  by destruct (git _ _) as [out|text].
Qed.

Lemma rev_parse_cases git_id w :
  rev_parse git git_id w
  = (match git (history w) (rev_parse_call git_id) with
    | Failed text => Raise (GitException ("Unknown revision: " +:+ git_id))
    | Done out =>
        match lines_of (match resolve w git_id with
                        | Some sha1 => snoc sha1 LF
                        | None => out
                        end) with
        | [line] => Ok line
        | _ => Raise (GitException ("Unknown revision: " +:+ git_id))
        end
    end,
    logged (Ran (rev_parse_call git_id)) w).
Proof.
  unfold rev_parse, try_except, GRun_output_one_line.
  rewrite bind_unfold. fold (rev_parse_call git_id). rewrite GRun_io_rev_parse.
  destruct (git _ _) as [out|text]; [|done].
  by destruct (lines_of _) as [|? [|? ?]].
Qed.

(** What [get_head] does to the world: nothing when the cache holds a
    value; otherwise one [git-rev-parse], whose answer is cached. *)
Lemma get_head_cases w :
  (truthy (__head w) = true
   ∧ get_head git w = (Ok (default "" (__head w)), w))
  ∨ (truthy (__head w) = false
     ∧ ((∃ head, get_head git w
                 = (Ok head, with_head (Some head) (logged (Ran (rev_parse_call "HEAD")) w)))
        ∨ (∃ msg, get_head git w
                  = (Raise (GitException msg), logged (Ran (rev_parse_call "HEAD")) w)))).
Proof.
  unfold get_head. rewrite bind_unfold. unfold get_world.
  destruct (truthy (__head w)); [by left|]. right. split; [done|].
  rewrite bind_unfold, rev_parse_cases.
  destruct (git _ _) as [out|text]; [|right; by eexists].
  destruct (lines_of _) as [|line [|? ?]]; [right; by eexists|left; by eexists|right; by eexists].
Qed.

Lemma try_except_unfold {A} (m : M A) caught handler w :
  try_except m caught handler w
  = match m w with
    | (Ok a, w') => (Ok a, w')
    | (Raise e, w') => if caught e then handler e w' else (Raise e, w')
    end.
Proof. done. Qed.

Lemma set_ref_cases ref val w :
  set_ref git ref val w
  = match git (history w) (update_ref_call ref val) with
    | Failed _ =>
        (Raise (GitException ("Could not update " +:+ ref +:+ " to " +:+ dquote
                              +:+ val +:+ dquote +:+ ".")),
         logged (Ran (update_ref_call ref val)) w)
    | Done _ =>
        (Ok tt, with_refs (update_ref w ref val) (logged (Ran (update_ref_call ref val)) w))
    end.
Proof.
  unfold set_ref. rewrite try_except_unfold.
  fold (update_ref_call ref val). rewrite GRun_run_update_ref.
  by destruct (git _ _).
Qed.

Lemma resolve_update_ref w w' val :
  symbolic_head w' = symbolic_head w →
  refs w' = update_ref w "HEAD" val →
  resolve w' "HEAD" = Some val.
Proof.
  unfold resolve, update_ref. intros -> ->. simpl.
  destruct (symbolic_head w); apply lookup_insert_eq.
Qed.

Lemma length_40_truthy (s : string) : String.length s = 40 → truthy (Some s) = true.
Proof. by destruct s. Qed.

(** [__set_head], when it returns: the value has forty characters and
    is now cached; the ref store is written unless the cache held the
    value already. *)
Lemma __set_head_Ok val w w' :
  __set_head git val w = (Ok tt, w') →
  String.length val = 40
  ∧ __head w' = Some val
  ∧ symbolic_head w' = symbolic_head w
  ∧ ((__head w = Some val ∧ w' = w)
     ∨ ((truthy (__head w) = false ∨ __head w ≠ Some val)
        ∧ refs w' = update_ref w "HEAD" val)).
Proof.
  unfold __set_head. rewrite bind_unfold. unfold get_world.
  destruct (negb (truthy (__head w)) || bool_decide (__head w ≠ Some val)) eqn:Hcond.
  - rewrite !bind_unfold, set_ref_cases.
    destruct (git _ _) as [out|text]; [|done].
    unfold set___head, get_world. simpl. rewrite bind_unfold. simpl.
    unfold ret, raise.
    destruct (bool_decide (String.length val = 40)) eqn:Hlen; [|done].
    apply bool_decide_eq_true_1 in Hlen. intros [= <-]. simpl.
    split; [done|]. split; [done|]. split; [done|]. right. split; [|done].
    apply orb_true_iff in Hcond as [Hc|Hc].
    + left. by apply negb_true_iff.
    + right. by apply bool_decide_eq_true_1 in Hc.
  - apply orb_false_iff in Hcond as [Ht Hc].
    apply negb_false_iff in Ht. apply bool_decide_eq_false_1 in Hc.
    apply dec_stable in Hc.
    unfold bind, ret, raise, get_world.
    destruct (bool_decide (String.length _ = 40)) eqn:Hlen; [|done].
    apply bool_decide_eq_true_1 in Hlen. intros [= <-].
    rewrite Hc in Hlen. simpl in Hlen. repeat split; try done. by left.
Qed.

(** [__set_head] raises no [GitRunException]. *)
Lemma __set_head_exn val w e w' :
  __set_head git val w = (Raise e, w') → is_GitRunException e = false.
Proof.
  unfold __set_head. rewrite bind_unfold. unfold get_world.
  destruct (negb (truthy (__head w)) || bool_decide (__head w ≠ Some val)).
  - rewrite !bind_unfold, set_ref_cases.
    destruct (git _ _) as [out|text]; [|by intros [= <- _]].
    unfold set___head, get_world. simpl. rewrite bind_unfold. simpl.
    unfold ret, raise.
    destruct (bool_decide (String.length val = 40)); [done|]. by intros [= <- _].
  - unfold bind, ret, raise, get_world.
    destruct (bool_decide (String.length _ = 40)); [done|]. by intros [= <- _].
Qed.

(** The [git-read-tree] run of [switch]. *)
Lemma read_tree_run head tree_id w :
  GRun_run git (cmd ["git-read-tree"; "-u"; "-m"; head; tree_id]) w
  = match git (history w) (cmd ["git-read-tree"; "-u"; "-m"; head; tree_id]) with
    | Failed text =>
        (Raise (GitRunException (cmd ["git-read-tree"; "-u"; "-m"; head; tree_id]) text),
         logged (Ran (cmd ["git-read-tree"; "-u"; "-m"; head; tree_id])) w)
    | Done _ => (Ok tt, logged (Ran (cmd ["git-read-tree"; "-u"; "-m"; head; tree_id])) w)
    end.
Proof. by apply GRun_run_plain. Qed.

(** [switch(tree_id)], when it returns: [tree_id] has forty
    characters and is cached; the ref store is untouched if the cache
    held it already, and HEAD is moved to it if the cache held
    something else. *)
Lemma switch_Ok tree_id w w' :
  switch git tree_id false w = (Ok tt, w') →
  String.length tree_id = 40
  ∧ __head w' = Some tree_id
  ∧ symbolic_head w' = symbolic_head w
  ∧ (__head w = Some tree_id → refs w' = refs w)
  ∧ (truthy (__head w) = true → __head w ≠ Some tree_id →
     resolve w' "HEAD" = Some tree_id).
Proof.
  unfold switch. intros H.
  apply bind_inv_Ok in H as ([] & w2 & Hstep & Hset).
  apply bind_inv_Ok in Hstep as ([] & w1 & Hrefresh & Htry).
  apply refresh_index_logged in Hrefresh as ->.
  rewrite try_except_unfold, bind_unfold in Htry.
  apply __set_head_Ok in Hset as (Hlen & Hhead & Hsym & Hcase).
  pose proof (length_40_truthy _ Hlen) as Htruthy.
  destruct (get_head_cases (logged (Ran refresh_index_call) w))
    as [[Hc Hg]|[Hc [[head Hg]|[msg Hg]]]]; rewrite Hg in Htry;
    simpl in *; [| |done].
  - (* the cache held a value *)
    rewrite read_tree_run in Htry.
    destruct (git _ _); [|done]. injection Htry as <-. simpl in *.
    split; [done|]. split; [done|]. split; [done|]. split.
    + intros Heq. destruct Hcase as [[_ ->]|[[Hf|Hne] _]]; [done| |done].
      rewrite Hc in Hf. done.
    + intros _ Hne. destruct Hcase as [[Heq _]|[_ Hrefs]]; [done|].
      by eapply resolve_update_ref.
  - (* the cache was empty *)
    rewrite read_tree_run in Htry.
    destruct (git _ _); [|done]. injection Htry as <-. simpl in *.
    split; [done|]. split; [done|]. split; [done|]. split.
    + intros Heq. rewrite Heq in Hc. simpl in Hc. congruence.
    + intros Ht. congruence.
Qed.

(** The only [GitRunException] that [switch(tree_id)] lets through
    is that of the index refresh. *)
Lemma switch_exn tree_id w e w' :
  switch git tree_id false w = (Raise e, w') →
  ∀ c text, e = GitRunException c text → c = refresh_index_call.
Proof.
  unfold switch. rewrite bind_unfold. rewrite (bind_unfold (refresh_index git)).
  unfold refresh_index. rewrite GRun_run_plain by done.
  destruct (git _ _) as [out|text0].
  2: { intros [= <- _] c text [= <- _]. done. }
  rewrite try_except_unfold, bind_unfold.
  fold refresh_index_call.
  destruct (get_head_cases (logged (Ran refresh_index_call) w))
    as [[Hc ->]|[Hc [[head ->]|[msg ->]]]]; simpl.
  - rewrite read_tree_run. destruct (git _ _) as [out1|text1].
    + intros H c text ->. by apply __set_head_exn in H.
    + by intros [= <- _] c text.
  - rewrite read_tree_run. destruct (git _ _) as [out1|text1].
    + intros H c text ->. by apply __set_head_exn in H.
    + by intros [= <- _] c text.
  - by intros [= <- _] c text.
Qed.

Lemma get_head_Ok w head w0 :
  get_head git w = (Ok head, w0) →
  __head w0 = Some head ∧ refs w0 = refs w ∧ symbolic_head w0 = symbolic_head w.
Proof.
  destruct (get_head_cases w) as [[Hc ->]|[Hc [[head' ->]|[msg ->]]]]; [| |done].
  - intros [= <- <-]. split; [|done].
    destruct (__head w) as [s|]; [done|]. done.
  - by intros [= <- <-].
Qed.

Lemma resolve_same w w' name :
  refs w' = refs w → symbolic_head w' = symbolic_head w →
  resolve w' name = resolve w name.
Proof. unfold resolve. by intros -> ->. Qed.

(** [__set_head], when it raises: either HEAD could not be written,
    and nothing has changed, or it is the [AssertionError] that comes
    after the move. *)
Lemma __set_head_Raise val w e w' :
  __set_head git val w = (Raise e, w') →
  e ≠ AssertionError →
  __head w' = __head w ∧ refs w' = refs w ∧ symbolic_head w' = symbolic_head w.
Proof.
  unfold __set_head. rewrite bind_unfold. unfold get_world.
  destruct (negb (truthy (__head w)) || bool_decide (__head w ≠ Some val)).
  - rewrite !bind_unfold, set_ref_cases.
    destruct (git _ _) as [out|text]; [|by intros [= <- <-]].
    unfold set___head, get_world. simpl. rewrite bind_unfold. simpl.
    unfold ret, raise.
    destruct (bool_decide (String.length val = 40)); [done|]. by intros [= <- _].
  - unfold bind, ret, raise, get_world.
    destruct (bool_decide (String.length _ = 40)); [done|]. by intros [= <- _].
Qed.

(** [switch(tree_id)], when it raises with a head in the cache:
    unless it is the [AssertionError] of [__set_head], the head is
    left where it was. *)
Lemma switch_Raise tree_id w e w' :
  truthy (__head w) = true →
  switch git tree_id false w = (Raise e, w') →
  e ≠ AssertionError →
  __head w' = __head w ∧ refs w' = refs w ∧ symbolic_head w' = symbolic_head w.
Proof.
  intros Hc. unfold switch. rewrite bind_unfold. rewrite (bind_unfold (refresh_index git)).
  unfold refresh_index. rewrite GRun_run_plain by done.
  destruct (git _ _) as [out|text0]; [|by intros [= <- <-]].
  rewrite try_except_unfold, bind_unfold.
  fold refresh_index_call.
  destruct (get_head_cases (logged (Ran refresh_index_call) w))
    as [[_ ->]|[Hc' _]]; [|simpl in Hc'; congruence].
  simpl. rewrite read_tree_run. destruct (git _ _) as [out1|text1].
  - intros H Hne. by apply __set_head_Raise in H.
  - by intros [= <- <-].
Qed.

(** The failure branch of [apply_patch] with a base: what it comes
    to once [git-apply] has failed. *)
Lemma apply_patch_failure filename d b fail_dump w orig w0 w1 text :
  nonempty b = true →
  get_head git w = (Ok orig, w0) →
  switch git b false w0 = (Ok tt, w1) →
  git (history w1) (apply_patch_call d) = Failed text →
  apply_patch git gitmergeonefile_merge basedir config_get
    filename (Some d) (Some b) fail_dump w
  = match switch git orig false (logged (Ran (apply_patch_call d)) w1) with
    | (Ok _, w2) =>
        (Raise (GitRunException (apply_patch_call d) text),
         if fail_dump
         then mkWorld (refs w2) (symbolic_head w2) (__head w2) (__commits w2) (heap w2)
                      (<[".stgit-failed.patch" := d]> (fs w2)) (stdin w2) (history w2)
                      (printed w2
                       ++ [OutWarn "Diff written to the .stgit-failed.patch file"])
         else w2)
    | (Raise e, w2) => (Raise e, w2)
    end.
Proof.
  intros Hb Hhead Hswitch Hreply. unfold apply_patch.
  rewrite bind_unfold. unfold ret at 1. simpl. rewrite Hb.
  rewrite bind_unfold.
  rewrite (bind_Ok _ _ _ _ _ Hhead), (bind_Ok _ _ _ _ _ Hswitch).
  unfold ret at 1. rewrite bind_unfold, try_except_unfold.
  rewrite GRun_run_plain by done. rewrite Hreply. simpl.
  rewrite bind_unfold.
  destruct (switch git orig false _) as [[[]|e] w2]; [|done].
  rewrite bind_unfold. by destruct fail_dump.
Qed.

(** C8: when [apply_patch] is called with a base, has switched to it,
    and [git-apply] fails, [apply_patch] raises, having tried to
    switch back to [orig_head], the value [get_head()] gave at the
    start of the call.  When the switch back returns, what is raised
    is the exception of [git-apply] and the head is back at
    [orig_head]: it is what [get_head()] gives again, and it is what
    HEAD stands for in the ref store whenever it was so at the start.
    When the switch back raises, it is its exception that is raised,
    not that of [git-apply], in the world the switch left; and unless
    it is the [AssertionError] that [__set_head] raises after the
    move, the head stays on the base. *)
Theorem apply_patch_failure_restores_head
    filename d b fail_dump w orig w0 w1 text :
  let result := apply_patch git gitmergeonefile_merge basedir config_get
                  filename (Some d) (Some b) fail_dump w in
  let back := switch git orig false (logged (Ran (apply_patch_call d)) w1) in
  nonempty b = true →
  get_head git w = (Ok orig, w0) →
  switch git b false w0 = (Ok tt, w1) →
  git (history w1) (apply_patch_call d) = Failed text →
  (∃ e, result.1 = Raise e)
  ∧ (result.1 = Raise (GitRunException (apply_patch_call d) text) →
     get_head git result.2 = (Ok orig, result.2)
     ∧ __head result.2 = Some orig
     ∧ (resolve w "HEAD" = Some orig → resolve result.2 "HEAD" = Some orig))
  ∧ (∀ w2, back = (Ok tt, w2) →
     result.1 = Raise (GitRunException (apply_patch_call d) text))
  ∧ (∀ e w2, back = (Raise e, w2) →
     result = (Raise e, w2)
     ∧ e ≠ GitRunException (apply_patch_call d) text
     ∧ (e ≠ AssertionError →
        __head w2 = Some b ∧ resolve w2 "HEAD" = resolve w1 "HEAD")).
Proof.
  intros result back Hb Hhead Hswitch Hreply. subst result back.
  rewrite (apply_patch_failure _ _ _ _ _ _ _ _ _ Hb Hhead Hswitch Hreply).
  destruct (switch git orig false _) as [[[]|e] w2] eqn:Hback.
  2: { assert (Hne : e ≠ GitRunException (apply_patch_call d) text).
       { intros ->. by pose proof (switch_exn _ _ _ _ Hback _ _ eq_refl). }
       split; [by exists e|]. split; [simpl; by intros [= ->]|]. split; [done|].
       intros e' w2' [= <- <-]. split; [done|]. split; [done|].
       intros Hassert.
       apply switch_Ok in Hswitch as (Hlenb & Hh1 & _).
       apply switch_Raise in Hback as (Hh2 & Hr2 & Hs2); [|simpl; rewrite Hh1; by apply length_40_truthy|done].
       simpl in *. split; [congruence|]. by apply resolve_same. }
  split; [by eexists|]. split; [|split; [done|by intros e w2']]. intros _.
  apply get_head_Ok in Hhead as (Hh0 & Hr0 & Hs0).
  apply switch_Ok in Hswitch as (Hlenb & Hh1 & Hs1 & Hkeep1 & _).
  apply switch_Ok in Hback as (Hleno & Hh2 & Hs2 & Hkeep2 & Hmove2).
  simpl in *.
  set (w' := if fail_dump then _ else w2).
  assert (Hw' : __head w' = __head w2 ∧ refs w' = refs w2
                ∧ symbolic_head w' = symbolic_head w2).
  { subst w'. by destruct fail_dump. }
  destruct Hw' as (Hh' & Hr' & Hs').
  assert (Hcached : __head w' = Some orig) by congruence.
  split.
  { destruct (get_head_cases w') as [[_ ->]|[Hc _]].
    - by rewrite Hcached.
    - rewrite Hcached in Hc. by rewrite (length_40_truthy _ Hleno) in Hc. }
  split; [done|].
  intros Hstart.
  rewrite (resolve_same w2 w') by done.
  destruct (decide (b = orig)) as [->|Hne].
  - rewrite <- Hstart. apply resolve_same; [|congruence].
    rewrite Hkeep2, Hkeep1 by done. done.
  - apply Hmove2; [|congruence].
    rewrite Hh1. by apply length_40_truthy.
Qed.

(** ** What the other functions leave alone *)

Lemma reads_app id h1 h2 : reads id (h1 ++ h2) = reads id h1 + reads id h2.
Proof. unfold reads. by rewrite filter_app, length_app. Qed.

Lemma kept_refl w : kept w w.
Proof. split; [done|]. split; [done|]. exists []. by rewrite app_nil_r. Qed.

Lemma kept_trans w1 w2 w3 : kept w1 w2 → kept w2 w3 → kept w1 w3.
Proof.
  intros (Hc1 & Hh1 & new1 & Hn1 & Hr1) (Hc2 & Hh2 & new2 & Hn2 & Hr2).
  split; [congruence|]. split; [congruence|].
  exists (new1 ++ new2). split.
  - by rewrite Hn2, Hn1, <- app_assoc.
  - intros id. by rewrite reads_app, Hr1, Hr2.
Qed.

Lemma keeps_ret {A} (a : A) : keeps (ret a).
Proof. intros w. apply kept_refl. Qed.

Lemma keeps_raise {A} e : keeps (raise (A := A) e).
Proof. intros w. apply kept_refl. Qed.

Lemma keeps_get_world : keeps get_world.
Proof. intros w. apply kept_refl. Qed.

Lemma keeps_bind {A B} (m : M A) (k : A → M B) :
  keeps m → (∀ a, keeps (k a)) → keeps (bind m k).
Proof.
  intros Hm Hk w. specialize (Hm w). unfold bind.
  destruct (m w) as [[a|e] w1]; [|done].
  eapply kept_trans; [done|]. apply Hk.
Qed.

Lemma keeps_try_except {A} (m : M A) caught handler :
  keeps m → (∀ e, keeps (handler e)) → keeps (try_except m caught handler).
Proof.
  intros Hm Hh w. specialize (Hm w). unfold try_except.
  destruct (m w) as [[a|e] w1]; [done|].
  destruct (caught e); [|done].
  eapply kept_trans; [done|]. apply Hh.
Qed.

Lemma keeps_attempt {A} (m : M A) : keeps m → keeps (attempt m).
Proof. intros Hm w. specialize (Hm w). unfold attempt. by destruct (m w). Qed.

Lemma keeps_for_each {A} (l : list A) (body : A → M unit) :
  (∀ x, keeps (body x)) → keeps (for_each l body).
Proof.
  intros Hbody. induction l as [|x l IH]; [apply keeps_ret|].
  simpl. apply keeps_bind; [apply Hbody|done].
Qed.

Lemma keeps_frame (f : world → world) :
  (∀ w, __commits (f w) = __commits w ∧ heap (f w) = heap w
        ∧ history (f w) = history w) →
  keeps (λ w, (Ok tt, f w)).
Proof.
  intros Hf w. destruct (Hf w) as (Hc & Hh & Hl). simpl.
  split; [done|]. split; [done|]. exists []. by rewrite app_nil_r.
Qed.

Lemma keeps_set___head v : keeps (set___head v).
Proof. by apply keeps_frame. Qed.
Lemma keeps_set_refs r : keeps (set_refs r).
Proof. by apply keeps_frame. Qed.
Lemma keeps_set_symbolic_head h : keeps (set_symbolic_head h).
Proof. by apply keeps_frame. Qed.
Lemma keeps_set_fs f : keeps (set_fs f).
Proof. by apply keeps_frame. Qed.
Lemma keeps_out_print m : keeps (out_print m).
Proof. by apply keeps_frame. Qed.

Lemma keeps_log_event e : (∀ id, e ≠ commit_read id) → keeps (log_event e).
Proof.
  intros He w. simpl. split; [done|]. split; [done|].
  exists [e]. split; [done|]. intros id. unfold reads.
  by rewrite filter_cons_False.
Qed.

Lemma other_program_event c : other_program c → ∀ id, Ran c ≠ commit_read id.
Proof. unfold other_program, commit_read. intros Hc id [= ->]. by apply Hc. Qed.

Lemma keeps_store_effect c out : keeps (store_effect c out).
Proof.
  unfold store_effect. apply keeps_bind; [apply keeps_get_world|]. intros w.
  destruct (argv c) as [|prog [|a [|b [|? ?]]]]; try apply keeps_ret.
  repeat case_bool_decide.
  - apply keeps_bind; [apply keeps_set_refs|intros; apply keeps_ret].
  - apply keeps_bind; [apply keeps_set_symbolic_head|intros; apply keeps_ret].
  - destruct (resolve w b); apply keeps_ret.
  - apply keeps_ret.
Qed.

Lemma keeps_GRun_io c : other_program c → keeps (GRun_io git c).
Proof.
  intros Hc. unfold GRun_io.
  apply keeps_bind; [apply keeps_get_world|]. intros w.
  apply keeps_bind; [by apply keeps_log_event, other_program_event|]. intros _.
  destruct (git _ _); [apply keeps_store_effect|apply keeps_raise].
Qed.

Lemma keeps_GRun_run c : other_program c → keeps (GRun_run git c).
Proof.
  intros Hc. unfold GRun_run.
  apply keeps_bind; [by apply keeps_GRun_io|intros; apply keeps_ret].
Qed.

Lemma keeps_GRun_output_lines c : other_program c → keeps (GRun_output_lines git c).
Proof.
  intros Hc. unfold GRun_output_lines.
  apply keeps_bind; [by apply keeps_GRun_io|intros; apply keeps_ret].
Qed.

Lemma keeps_GRun_output_one_line c :
  other_program c → keeps (GRun_output_one_line git c).
Proof.
  intros Hc. unfold GRun_output_one_line.
  apply keeps_bind; [by apply keeps_GRun_io|]. intros out.
  destruct (lines_of out) as [|? [|? ?]]; apply keeps_ret || apply keeps_raise.
Qed.

Lemma keeps_GRun_xargs args files :
  head args ≠ Some "git-cat-file" → args ≠ [] → keeps (GRun_xargs git args files).
Proof.
  intros Hc Hne. unfold GRun_xargs. apply keeps_GRun_run.
  unfold other_program. simpl. by destruct args.
Qed.

Create HintDb commit_cache.
#[local] Hint Resolve keeps_ret keeps_raise keeps_get_world keeps_set___head
  keeps_set_refs keeps_set_symbolic_head keeps_set_fs keeps_out_print
  : commit_cache.

(** Walks through the body of a function, one construct at a time. *)
Ltac keeps_step :=
  lazymatch goal with
  | |- keeps (bind _ _) => apply keeps_bind; [|intros ?]
  | |- keeps (try_except _ _ _) => apply keeps_try_except; [|intros ?]
  | |- keeps (for_each _ _) => apply keeps_for_each; intros ?
  | |- keeps (attempt _) => apply keeps_attempt
  | |- keeps (GRun_run _ _) => apply keeps_GRun_run; unfold other_program; simpl; done
  | |- keeps (GRun_raw_output _ _) =>
      apply keeps_GRun_io; unfold other_program; simpl; done
  | |- keeps (GRun_io _ _) => apply keeps_GRun_io; unfold other_program; simpl; done
  | |- keeps (GRun_output_lines _ _) =>
      apply keeps_GRun_output_lines; unfold other_program; simpl; done
  | |- keeps (GRun_output_one_line _ _) =>
      apply keeps_GRun_output_one_line; unfold other_program; simpl; done
  | |- keeps (GRun_xargs _ _ _) => apply keeps_GRun_xargs; simpl; done
  | |- keeps (if ?b then _ else _) => destruct b
  | |- keeps (match ?x with _ => _ end) => destruct x
  | |- _ => solve [auto with commit_cache]
  end.
Ltac keeps_all := repeat keeps_step.

Lemma keeps_get_conflicts : keeps (get_conflicts basedir).
Proof. unfold get_conflicts. keeps_all. Qed.

Lemma keeps_refresh_index : keeps (refresh_index git).
Proof. unfold refresh_index. keeps_all. Qed.
#[local] Hint Resolve keeps_get_conflicts keeps_refresh_index : commit_cache.

Lemma keeps_diff_index_entries conflicts lines :
  keeps (diff_index_entries conflicts lines).
Proof. induction lines as [|line lines IH]; simpl; keeps_all. Qed.
#[local] Hint Resolve keeps_diff_index_entries : commit_cache.

Lemma keeps_tree_status files tree_id unknown noexclude verbose diff_flags :
  keeps (tree_status git basedir config_get files tree_id unknown noexclude verbose
           diff_flags).
Proof. unfold tree_status. keeps_all. Qed.
#[local] Hint Resolve keeps_tree_status : commit_cache.

Lemma keeps_rev_parse git_id : keeps (rev_parse git git_id).
Proof. unfold rev_parse. keeps_all. Qed.
#[local] Hint Resolve keeps_rev_parse : commit_cache.

Lemma keeps_get_head : keeps (get_head git).
Proof. unfold get_head. keeps_all. Qed.

Lemma keeps_set_head_file ref : keeps (set_head_file git ref).
Proof. unfold set_head_file, __clear_head_cache. keeps_all. Qed.

Lemma keeps_set_ref ref val : keeps (set_ref git ref val).
Proof. unfold set_ref. keeps_all. Qed.
#[local] Hint Resolve keeps_get_head keeps_set_head_file keeps_set_ref : commit_cache.

Lemma keeps_set_branch branch val : keeps (set_branch git branch val).
Proof. unfold set_branch. keeps_all. Qed.

Lemma keeps___set_head val : keeps (__set_head git val).
Proof. unfold __set_head. keeps_all. Qed.
#[local] Hint Resolve keeps_set_branch keeps___set_head : commit_cache.

Lemma keeps_update_cache files force : keeps (update_cache git basedir config_get files force).
Proof. unfold update_cache. keeps_all. Qed.
#[local] Hint Resolve keeps_update_cache : commit_cache.

Lemma keeps_commit message o : keeps (commit git basedir config_get message o).
Proof. unfold commit. keeps_all. Qed.

Lemma keeps_diff files rev1 rev2 diff_flags : keeps (diff git files rev1 rev2 diff_flags).
Proof. unfold diff. keeps_all. Qed.
#[local] Hint Resolve keeps_commit keeps_diff : commit_cache.

Lemma keeps_apply_diff rev1 rev2 check_index files :
  keeps (apply_diff git rev1 rev2 check_index files).
Proof. unfold apply_diff, apply_diff_call. keeps_all. Qed.

Lemma keeps_merge_path base head1 head2 path stages :
  keeps (merge_path gitmergeonefile_merge base head1 head2 path stages).
Proof.
  unfold merge_path. keeps_all.
  by apply keeps_log_event.
Qed.
#[local] Hint Resolve keeps_apply_diff keeps_merge_path : commit_cache.

Lemma keeps_merge_paths base head1 head2 todo : ∀ errors,
  keeps (merge_paths gitmergeonefile_merge base head1 head2 todo errors).
Proof. induction todo as [|[path stages] todo IH]; intros errors; simpl; keeps_all. Qed.
#[local] Hint Resolve keeps_merge_paths : commit_cache.

Lemma keeps_merge base head1 head2 recursive :
  keeps (merge git gitmergeonefile_merge base head1 head2 recursive).
Proof. unfold merge, merge_trees, unmerged_files. keeps_all. Qed.

Lemma keeps_switch tree_id keep : keeps (switch git tree_id keep).
Proof. unfold switch. keeps_all. Qed.
#[local] Hint Resolve keeps_merge keeps_switch : commit_cache.

Lemma keeps_apply_patch filename diff base fail_dump :
  keeps (apply_patch git gitmergeonefile_merge basedir config_get
           filename diff base fail_dump).
Proof. unfold apply_patch, apply_patch_call. keeps_all. Qed.
#[local] Hint Resolve keeps_apply_patch : commit_cache.

(** Every call a client can make, other than [get_commit], leaves the
    commit cache and the commit objects as they were and reads no
    commit. *)
Lemma keeps_perform o :
  keeps (perform git gitmergeonefile_merge basedir config_get o).
Proof. destruct o; simpl; keeps_all. Qed.

Lemma keeps_perform_all os :
  keeps (perform_all git gitmergeonefile_merge basedir config_get os).
Proof.
  induction os as [|o os IH]; simpl; [apply keeps_ret|].
  apply keeps_bind; [apply keeps_attempt, keeps_perform|done].
Qed.

(** ** The commit cache *)

Lemma Commit_init_logs id w :
  ∃ r, Commit_init git id w = (r, logged (commit_read id) w).
Proof.
  unfold Commit_init, GRun_output_lines, bind.
  rewrite GRun_io_cat_file. unfold plain_run, commit_read.
  destruct (git _ _) as [out|text]; [|by eexists].
  unfold ret. destruct (lines_of out) as [|l ls]; [by eexists|].
  destruct (read_headers _ _) as [[c rest]|e]; by eexists.
Qed.

(** The three ways a call of [get_commit] can go: the commit is in
    the cache; it is read, built and stored; or reading or building it
    fails. *)
Lemma get_commit_cases id w :
  match __commits w !! id with
  | Some commit => get_commit git id w = (Ok commit, w)
  | None =>
      match (Commit_init git id w).1 with
      | Ok c =>
          get_commit git id w
          = (Ok (length (heap w)),
             mkWorld (refs w) (symbolic_head w) (__head w)
                     (<[id := length (heap w)]> (__commits w)) (heap w ++ [c])
                     (fs w) (stdin w) (history w ++ [commit_read id]) (printed w))
      | Raise e => get_commit git id w = (Raise e, logged (commit_read id) w)
      end
  end.
Proof.
  unfold get_commit, bind, get_world.
  destruct (__commits w !! id) as [commit|] eqn:Hc; [done|].
  by destruct (Commit_init_logs id w) as [[c|e] ->].
Qed.

Lemma commit_read_inj id id' : commit_read id = commit_read id' → id = id'.
Proof. unfold commit_read, cmd. congruence. Qed.

Lemma reads_cons id e h :
  reads id (e :: h) = (if decide (e = commit_read id) then 1 else 0) + reads id h.
Proof.
  unfold reads. destruct (decide (e = commit_read id)).
  - by rewrite filter_cons_True.
  - by rewrite filter_cons_False.
Qed.

Lemma failed_calls_cons id id0 r ids results :
  failed_calls id (id0 :: ids) (r :: results)
  = (if decide (id0 = id ∧ raised r) then 1 else 0) + failed_calls id ids results.
Proof.
  unfold failed_calls. simpl. destruct (decide (id0 = id ∧ raised r)).
  - by rewrite filter_cons_True.
  - by rewrite filter_cons_False.
Qed.

Lemma returned_calls_cons id id0 r ids results :
  returned_calls id (id0 :: ids) (r :: results)
  = (if decide (id0 = id ∧ ¬ raised r) then 1 else 0) + returned_calls id ids results.
Proof.
  unfold returned_calls. simpl. destruct (decide (id0 = id ∧ ¬ raised r)).
  - by rewrite filter_cons_True.
  - by rewrite filter_cons_False.
Qed.

Lemma read_between_weaken w0 w w' id r :
  history w0 `prefix_of` history w →
  read_between git w w' id r → read_between git w0 w' id r.
Proof.
  intros Hpre (wi & H1 & H2 & H3 & H4). exists wi.
  split; [by etrans|done].
Qed.

(** The read a call makes at [w] when [id] is not cached. *)
Lemma read_between_here w w0 w' id :
  history w0 `prefix_of` history w →
  (history w ++ [commit_read id]) `prefix_of` history w' →
  __commits w !! id = None →
  read_between git w0 w' id (Commit_init git id w).1.
Proof. intros H1 H2 H3. by exists w. Qed.

Lemma memoized_nil w : memoized git w [] [] w.
Proof.
  exists []. rewrite app_nil_r. repeat split; try done.
Qed.

(** Calls that keep the cache can be put in front. *)
Lemma memoized_kept w w0 ids results w' :
  kept w w0 → memoized git w0 ids results w' → memoized git w ids results w'.
Proof.
  intros (Hc & Hh & new0 & Hn0 & Hr0)
         (new & Hn & Hlen & Hsub & Hheap & Hres & Hcached & Hfresh & Hlater
          & Hfailed & Hbuilt).
  assert (Hpre : history w `prefix_of` history w0) by (rewrite Hn0; by apply prefix_app_r).
  exists (new0 ++ new). rewrite Hc, Hh in *.
  split; [by rewrite Hn, Hn0, <- app_assoc|].
  split; [done|]. split; [done|]. split; [done|]. split; [done|].
  split.
  { intros id commit Hid. rewrite reads_app, Hr0. by apply Hcached. }
  split.
  { intros id Hid. rewrite reads_app, Hr0. by apply Hfresh. }
  split; [done|]. split.
  - intros i id e Hi Hr. eapply read_between_weaken; [done|]. by eapply Hfailed.
  - intros i id commit Hi Hr Hid.
    destruct (Hbuilt i id commit Hi Hr Hid) as (c & Hread & Hc').
    exists c. split; [by eapply read_between_weaken|done].
Qed.

(** One more call of [get_commit] in front. *)
Lemma memoized_step id0 w ids rs w' :
  memoized git (get_commit git id0 w).2 ids rs w' →
  memoized git w (id0 :: ids) ((get_commit git id0 w).1 :: rs) w'.
Proof.
  pose proof (get_commit_cases id0 w) as Hcase.
  destruct (__commits w !! id0) as [commit0|] eqn:Hc0;
    [|destruct (Commit_init git id0 w).1 as [c0|e0] eqn:Hinit];
    rewrite Hcase; clear Hcase; simpl;
    intros (new & Hn & Hlen & Hsub & Hheap & Hres & Hcached & Hfresh & Hlater
            & Hfailed & Hbuilt); simpl in *.
  - (* found in the cache *)
    exists new.
    split; [done|]. split; [simpl; by rewrite Hlen|]. split; [done|]. split; [done|].
    split.
    { intros [|i] id c' Hi Hr; simpl in *.
      - simplify_eq. by eapply lookup_weaken.
      - by eapply Hres. }
    split.
    { intros id commit Hid. destruct (Hcached id commit Hid) as (Hreads & Hnofail & Hall).
      split; [done|]. split.
      - rewrite failed_calls_cons.
        by rewrite (decide_False (P := id0 = id ∧ _)) by (intros [_ Hx]; exact Hx).
      - intros [|i] Hi; simpl in *; [|by apply Hall]. simplify_eq. done. }
    split.
    { intros id Hid. rewrite failed_calls_cons, returned_calls_cons.
      rewrite (decide_False (P := id0 = id ∧ raised _)) by (intros [_ Hx]; exact Hx).
      rewrite (decide_False (P := id0 = id ∧ ¬ _)) by (intros [-> _]; congruence).
      by apply Hfresh. }
    split.
    { intros [|i] [|j] id c' Hij Hi Hj Hr; simpl in *; try lia.
      - done.
      - simplify_eq. by apply (Hcached id c').
      - eapply (Hlater i j); [lia|done..]. }
    split.
    { intros [|i] id e Hi Hr; simpl in *; [done|]. by eapply Hfailed. }
    intros [|i] id c' Hi Hr Hid; simpl in *; [simplify_eq|]. by eapply Hbuilt.
  - (* read, built and stored *)
    exists (commit_read id0 :: new).
    assert (Hhere : read_between git w w' id0 (Ok c0)).
    { rewrite <- Hinit. apply read_between_here; [done| |done].
      rewrite Hn. by apply prefix_app_r. }
    assert (Hobj : heap w' !! length (heap w) = Some c0).
    { eapply prefix_lookup_Some; [|done]. by apply list_lookup_middle. }
    assert (Hin : __commits w' !! id0 = Some (length (heap w))).
    { eapply lookup_weaken; [|done]. apply lookup_insert_eq. }
    destruct (Hcached id0 (length (heap w))) as (Hreads0 & Hnofail0 & Hall0);
      [apply lookup_insert_eq|].
    split; [by rewrite Hn, <- app_assoc|]. split; [simpl; by rewrite Hlen|].
    split; [etrans; [|done]; by apply insert_subseteq|].
    split; [etrans; [|done]; by apply prefix_app_r|].
    split.
    { intros [|i] id c' Hi Hr; simpl in *; [by simplify_eq|]. by eapply Hres. }
    split.
    { intros id commit Hid.
      assert (Hne : id0 ≠ id) by congruence.
      destruct (Hcached id commit) as (Hreads & Hnofail & Hall);
        [by rewrite lookup_insert_ne|].
      split; [|split].
      - rewrite reads_cons, decide_False; [done|]. by intros ?%commit_read_inj.
      - rewrite failed_calls_cons.
        by rewrite (decide_False (P := id0 = id ∧ _)) by (intros [_ Hx]; exact Hx).
      - intros [|i] Hi; simpl in *; [congruence|by apply Hall]. }
    split.
    { intros id Hid. rewrite reads_cons, failed_calls_cons, returned_calls_cons.
      rewrite (decide_False (P := id0 = id ∧ raised _)) by (intros [_ Hx]; exact Hx).
      destruct (decide (id0 = id)) as [<-|Hne].
      - rewrite decide_True by done.
        rewrite (decide_True (P := id0 = id0 ∧ _)) by (split; [done|by intros []]).
        rewrite Hreads0, Hnofail0. lia.
      - rewrite decide_False by (by intros ?%commit_read_inj).
        rewrite (decide_False (P := id0 = id ∧ _)) by (by intros [? _]).
        apply Hfresh. by rewrite lookup_insert_ne. }
    split.
    { intros [|i] [|j] id c' Hij Hi Hj Hr; simpl in *; try lia.
      - done.
      - simplify_eq. by apply Hall0.
      - eapply (Hlater i j); [lia|done..]. }
    split.
    { intros [|i] id e Hi Hr; simpl in *; [done|].
      eapply read_between_weaken; [|by eapply Hfailed]. simpl. by apply prefix_app_r. }
    intros [|i] id c' Hi Hr Hid; simpl in *.
    { simplify_eq. by exists c0. }
    destruct (decide (id0 = id)) as [<-|Hne].
    + rewrite (Hall0 i Hi) in Hr. simplify_eq. by exists c0.
    + destruct (Hbuilt i id c' Hi Hr) as (c & Hread & Hc'); [by rewrite lookup_insert_ne|].
      exists c. split; [|done].
      eapply read_between_weaken; [|done]. simpl. by apply prefix_app_r.
  - (* the read or the parse failed *)
    exists (commit_read id0 :: new).
    assert (Hhere : read_between git w w' id0 (Raise e0)).
    { rewrite <- Hinit. apply read_between_here; [done| |done].
      rewrite Hn. by apply prefix_app_r. }
    split; [by rewrite Hn, <- app_assoc|]. split; [simpl; by rewrite Hlen|].
    split; [done|]. split; [done|].
    split.
    { intros [|i] id c' Hi Hr; simpl in *; [done|]. by eapply Hres. }
    split.
    { intros id commit Hid.
      assert (Hne : id0 ≠ id) by congruence.
      destruct (Hcached id commit Hid) as (Hreads & Hnofail & Hall).
      split; [|split].
      - rewrite reads_cons, decide_False; [done|]. by intros ?%commit_read_inj.
      - rewrite failed_calls_cons.
        by rewrite (decide_False (P := id0 = id ∧ _)) by (by intros [? _]).
      - intros [|i] Hi; simpl in *; [congruence|by apply Hall]. }
    split.
    { intros id Hid. rewrite reads_cons, failed_calls_cons, returned_calls_cons.
      rewrite (decide_False (P := id0 = id ∧ ¬ _)) by (intros [_ Hx]; by apply Hx).
      destruct (decide (id0 = id)) as [<-|Hne].
      - rewrite decide_True by done.
        rewrite (decide_True (P := id0 = id0 ∧ _)) by done.
        rewrite (Hfresh id0 Hc0). lia.
      - rewrite decide_False by (by intros ?%commit_read_inj).
        rewrite (decide_False (P := id0 = id ∧ _)) by (by intros [? _]).
        by apply Hfresh. }
    split.
    { intros [|i] [|j] id c' Hij Hi Hj Hr; simpl in *; try lia; try done.
      eapply (Hlater i j); [lia|done..]. }
    split.
    { intros [|i] id e Hi Hr; simpl in *.
      - by simplify_eq.
      - eapply read_between_weaken; [|by eapply Hfailed]. simpl. by apply prefix_app_r. }
    intros [|i] id c' Hi Hr Hid; simpl in *; [done|].
    destruct (Hbuilt i id c' Hi Hr Hid) as (c & Hread & Hc').
    exists c. split; [|done].
    eapply read_between_weaken; [|done]. simpl. by apply prefix_app_r.
Qed.

Lemma perform_all_Ok os w :
  (perform_all git gitmergeonefile_merge basedir config_get os w).1 = Ok tt.
Proof.
  revert w. induction os as [|o os IH]; intros w; [done|].
  simpl. unfold bind at 1, attempt.
  destruct (perform _ _ _ _ o w) as [r w1]. apply IH.
Qed.

Lemma get_commits_memoized steps : ∀ w,
  ∃ results w',
    get_commits git gitmergeonefile_merge basedir config_get steps w = (Ok results, w')
    ∧ memoized git w steps.*2 results w'.
Proof.
  induction steps as [|[others id0] steps IH]; intros w.
  { exists [], w. split; [done|]. apply memoized_nil. }
  simpl. rewrite bind_unfold.
  pose proof (keeps_perform_all others w) as Hkept.
  pose proof (perform_all_Ok others w) as Hok.
  destruct (perform_all _ _ _ _ others w) as [r w0]. simpl in Hkept, Hok. subst r.
  rewrite bind_unfold. unfold attempt.
  pose proof (memoized_step id0 w0 steps.*2) as Hstep.
  destruct (get_commit git id0 w0) as [r0 w1]. simpl in Hstep.
  destruct (IH w1) as (rs & w' & Hrun & Hmemo).
  rewrite (bind_Ok _ _ _ _ _ Hrun). unfold ret.
  exists (r0 :: rs), w'. split; [done|].
  eapply memoized_kept; [done|]. by apply Hstep.
Qed.

(** C10: in any sequence of [get_commit] calls, with any other calls
    of the module in between, all the calls for one id that return
    give the very same object, which stays in the cache (and in the
    heap) unchanged, and once a call for an id has returned, every
    later call for it returns too; nothing is ever dropped from the
    cache.  A call raises only what [Commit(id)] raises where the
    call is made, and the object returned for an id that was not
    cached at the start is the one [Commit(id)] built.  An id that is
    cached at the start is never read and none of its calls fails; an
    id that is not is read once by each of its calls that fails and
    once more when one of its calls returns: so at most once, plus
    once for each of its calls that failed. *)
Theorem get_commit_memoizes (steps : list (list operation * string)) w :
  ∃ results w' new,
    get_commits git gitmergeonefile_merge basedir config_get steps w = (Ok results, w')
    ∧ history w' = history w ++ new
    ∧ length results = length steps
    ∧ (∀ i j id commit commit',
         steps.*2 !! i = Some id → steps.*2 !! j = Some id →
         results !! i = Some (Ok commit) → results !! j = Some (Ok commit') →
         commit = commit' ∧ __commits w' !! id = Some commit)
    ∧ (∀ i j id commit,
         i ≤ j → steps.*2 !! i = Some id → steps.*2 !! j = Some id →
         results !! i = Some (Ok commit) → results !! j = Some (Ok commit))
    ∧ (∀ i id e,
         steps.*2 !! i = Some id → results !! i = Some (Raise e) →
         read_between git w w' id (Raise e))
    ∧ (∀ i id commit,
         steps.*2 !! i = Some id → results !! i = Some (Ok commit) →
         __commits w !! id = None →
         ∃ c, read_between git w w' id (Ok c) ∧ heap w' !! commit = Some c)
    ∧ (∀ id, reads id new
             = if decide (is_Some (__commits w !! id)) then 0
               else failed_calls id steps.*2 results
                    + min (returned_calls id steps.*2 results) 1)
    ∧ (∀ id, reads id new ≤ 1 + failed_calls id steps.*2 results)
    ∧ (∀ id, is_Some (__commits w !! id) →
         reads id new = 0 ∧ failed_calls id steps.*2 results = 0)
    ∧ __commits w ⊆ __commits w'
    ∧ heap w `prefix_of` heap w'.
Proof.
  destruct (get_commits_memoized steps w)
    as (rs & w' & Hrun & new & Hh & Hlen & Hsub & Hheap & Hres & Hcached & Hfresh
        & Hlater & Hfailed & Hbuilt).
  exists rs, w', new.
  split; [done|]. split; [done|]. split; [by rewrite Hlen, length_fmap|].
  split.
  { intros i j id commit commit' Hi Hj Hri Hrj.
    pose proof (Hres _ _ _ Hi Hri). pose proof (Hres _ _ _ Hj Hrj).
    split; congruence. }
  split; [done|]. split; [done|]. split; [done|].
  assert (Hexact : ∀ id, reads id new
             = if decide (is_Some (__commits w !! id)) then 0
               else failed_calls id steps.*2 rs + min (returned_calls id steps.*2 rs) 1).
  { intros id. destruct (__commits w !! id) as [commit|] eqn:Hid.
    - rewrite decide_True by done. by apply (Hcached id commit).
    - rewrite decide_False by (by intros [? ?]). by apply Hfresh. }
  split; [done|].
  split.
  { intros id. rewrite Hexact. case_decide; lia. }
  split; [|done].
  intros id [commit Hid]. destruct (Hcached id commit Hid) as (? & ? & _). done.
Qed.

End GitProperties.

(** * The properties on concrete runs *)
Section Runs.
Import Git Observe Scenario.
Local Open Scope git_scope.

(** C1: the warning for an already hidden patch D reads
    [Patch "D" already hidden], not [patch D already hidden]. *)
Lemma hide_warning_text_differs :
  Hide.hide_warnings (Hide.mkStack [] [] ["D"]) ["D"]
    = ["Patch " +:+ dquote +:+ "D" +:+ dquote +:+ " already hidden"]
  ∧ Hide.hide_warnings (Hide.mkStack [] [] ["D"]) ["D"] ≠ ["patch D already hidden"].
Proof. split; [done|]. vm_compute. discriminate. Qed.

(** C1 on the stack A B C | E | D, asked to hide C and D. *)
Lemma hide_already_hidden_witness :
  "D" ∈ ["C"; "D"] ∧ "D" ∈ Hide.hidden stack
  ∧ Hide.hide_warnings stack ["C"; "D"]
    = (Hide.already_hidden_message <$> filter (λ q, q ∈ Hide.hidden stack) ["C"; "D"])
  ∧ Hide.already_hidden_message "D" ∈ Hide.hide_warnings stack ["C"; "D"]
  ∧ ("D" ∉ Hide.hide_patches stack ["C"; "D"])
  ∧ Hide.hidden (Hide.hide_target stack ["C"; "D"])
    = Hide.hide_patches stack ["C"; "D"] ++ Hide.hidden stack
  ∧ occurrences "D" (Hide.hidden (Hide.hide_target stack ["C"; "D"]))
    = occurrences "D" (Hide.hidden stack)
  ∧ occurrences "D" (Hide.applied (Hide.hide_target stack ["C"; "D"]))
    = occurrences "D" (Hide.applied stack)
  ∧ occurrences "D" (Hide.unapplied (Hide.hide_target stack ["C"; "D"]))
    = occurrences "D" (Hide.unapplied stack)
  ∧ Hide.hide_target stack ["C"; "D"]
    = Hide.hide_target stack (Hide.hide_patches stack ["C"; "D"])
  ∧ Hide.returned (Hide.func_body push_clean stack ["C"; "D"])
    = Hide.returned (Hide.func_body push_clean stack (Hide.hide_patches stack ["C"; "D"]))
  ∧ Hide.stored_after (Hide.func_body push_clean stack ["C"; "D"])
    = Hide.stored_after
        (Hide.func_body push_clean stack (Hide.hide_patches stack ["C"; "D"])).
Proof.
  split; [by_evaluation|]. split; [by_evaluation|].
  apply (hide_already_hidden_warned_and_dropped push_clean stack ["C"; "D"] "D");
    by_evaluation.
Defined.

(** C2 on the stack A B C | E | D, asked to hide C. *)
Lemma hide_target_moves_requested_witness :
  (∀ p, p ∈ ["C"] → p ∉ Hide.hidden stack)
  ∧ Hide.applied (Hide.hide_target stack ["C"]) = ["A"; "B"]
  ∧ Hide.unapplied (Hide.hide_target stack ["C"]) = Hide.unapplied stack
  ∧ Hide.hidden (Hide.hide_target stack ["C"]) = ["C"] ++ Hide.hidden stack.
Proof.
  assert (Hreq : ∀ p, p ∈ ["C"] → p ∉ Hide.hidden stack).
  { intros p Hp. apply list_elem_of_singleton in Hp as ->. by_evaluation. }
  destruct (hide_target_moves_requested stack ["C"] Hreq)
    as (Ha & _ & _ & _ & Hu & Hh).
  split; [done|]. split; [by rewrite Ha|]. split; [|done].
  apply Hu; [by_evaluation|].
  intros p Hp. apply list_elem_of_singleton in Hp as ->. by_evaluation.
Defined.

(** C3 on the stack A B C | E | D, asked to hide B and D. *)
Lemma hide_target_keeps_names_witness :
  NoDup (Hide.all_patches stack) ∧ NoDup ["B"; "D"]
  ∧ (∀ p, p ∈ ["B"; "D"] → p ∈ Hide.all_patches stack)
  ∧ NoDup (Hide.all_patches (Hide.hide_target stack ["B"; "D"]))
  ∧ Hide.all_patches (Hide.hide_target stack ["B"; "D"]) ≡ₚ Hide.all_patches stack.
Proof.
  assert (Hknown : ∀ p, p ∈ ["B"; "D"] → p ∈ Hide.all_patches stack).
  { intros p Hp. apply elem_of_cons in Hp as [->|Hp]; [by_evaluation|].
    apply list_elem_of_singleton in Hp as ->. by_evaluation. }
  split; [by_evaluation|]. split; [by_evaluation|]. split; [done|].
  apply hide_target_keeps_names; [by_evaluation|by_evaluation|done].
Defined.

(** C4 on the stack A B C | E | D, asked to hide D. *)
Lemma hide_all_hidden_witness :
  Hide.hide_target stack ["D"] = stack
  ∧ Hide.returned (Hide.func push_clean parse_names ["D"] stack) = inr Hide.Success
  ∧ Hide.stored_after (Hide.func push_clean parse_names ["D"] stack) = stack
  ∧ Hide.backend_ops (Hide.func push_clean parse_names ["D"] stack)
    = [Hide.OpPublish stack stack].
Proof.
  apply (hide_all_hidden_is_noop push_clean parse_names ["D"] stack ["D"]).
  - done.
  - done.
  - intros p Hp. apply list_elem_of_singleton in Hp as ->. by_evaluation.
  - by_evaluation.
Defined.



(** C6 on a diff that [git-apply] rejects. *)
Lemma apply_diff_witness :
  diff rejecting_git None (Some (sha "a")) (Some (sha "b")) [] repository
    = (Ok "", (diff rejecting_git None (Some (sha "a")) (Some (sha "b")) []
                 repository).2)
  ∧ apply_diff rejecting_git (Some (sha "a")) (Some (sha "b")) true None repository
    = (Ok true, (diff rejecting_git None (Some (sha "a")) (Some (sha "b")) []
                   repository).2)
  ∧ diff (git_unmerged_p ["git-apply"]) None (Some (sha "a")) (Some (sha "b")) []
      repository
    = (Ok "diff --git a/p b/p",
       (diff (git_unmerged_p ["git-apply"]) None (Some (sha "a")) (Some (sha "b")) []
          repository).2)
  ∧ (apply_diff (git_unmerged_p ["git-apply"]) (Some (sha "a")) (Some (sha "b")) true
       None repository).1
    = Ok false.
Proof.
  assert (H0 : diff rejecting_git None (Some (sha "a")) (Some (sha "b")) [] repository
               = (Ok "", (diff rejecting_git None (Some (sha "a")) (Some (sha "b")) []
                            repository).2))
    by (vm_compute; reflexivity).
  assert (H1 : diff (git_unmerged_p ["git-apply"]) None (Some (sha "a"))
                 (Some (sha "b")) [] repository
               = (Ok "diff --git a/p b/p",
                  (diff (git_unmerged_p ["git-apply"]) None (Some (sha "a"))
                     (Some (sha "b")) [] repository).2))
    by (vm_compute; reflexivity).
  split; [done|]. split.
  { by apply (apply_diff_never_raises rejecting_git _ _ true None _ _ _ H0). }
  split; [done|].
  destruct (apply_diff_never_raises (git_unmerged_p ["git-apply"]) _ _ true None
              _ _ _ H1) as [_ Hfail].
  rewrite Hfail by discriminate. reflexivity.
Defined.

(** C8 on a patch that does not apply on base c, from head a. *)
Lemma apply_patch_failure_witness :
  get_head rejecting_git repository = (Ok (sha "a"), at_start)
  ∧ switch rejecting_git (sha "c") false at_start = (Ok tt, on_base)
  ∧ rejecting_git (history on_base) (apply_patch_call "the diff")
    = Failed "git-apply failed with code 1"
  ∧ (apply_patch rejecting_git merge_clean ".git" no_config
       None (Some "the diff") (Some (sha "c")) true repository).1
    = Raise (GitRunException (apply_patch_call "the diff") "git-apply failed with code 1")
  ∧ resolve repository "HEAD" = Some (sha "a")
  ∧ resolve (apply_patch rejecting_git merge_clean ".git" no_config
               None (Some "the diff") (Some (sha "c")) true repository).2 "HEAD"
    = Some (sha "a")
  ∧ __head (apply_patch rejecting_git merge_clean ".git" no_config
              None (Some "the diff") (Some (sha "c")) true repository).2
    = Some (sha "a").
Proof.
  assert (H1 : get_head rejecting_git repository = (Ok (sha "a"), at_start))
    by (vm_compute; reflexivity).
  assert (H2 : switch rejecting_git (sha "c") false at_start = (Ok tt, on_base))
    by (vm_compute; reflexivity).
  assert (H3 : rejecting_git (history on_base) (apply_patch_call "the diff")
               = Failed "git-apply failed with code 1")
    by (vm_compute; reflexivity).
  assert (H4 : switch rejecting_git (sha "a") false
                 (logged (Ran (apply_patch_call "the diff")) on_base)
               = (Ok tt, (switch rejecting_git (sha "a") false
                            (logged (Ran (apply_patch_call "the diff")) on_base)).2))
    by (vm_compute; reflexivity).
  assert (H5 : resolve repository "HEAD" = Some (sha "a")) by (vm_compute; reflexivity).
  destruct (apply_patch_failure_restores_head rejecting_git merge_clean ".git" no_config
              None "the diff" (sha "c") true repository (sha "a") at_start on_base
              "git-apply failed with code 1" eq_refl H1 H2 H3)
    as (_ & Hrestored & Hraised & _).
  specialize (Hraised _ H4).
  destruct (Hrestored Hraised) as (_ & Hcache & Hstore).
  split; [done|]. split; [done|]. split; [done|]. split; [done|].
  split; [done|]. split; [by apply Hstore|done].
Defined.

(** C8: when the switch back fails as well, it is its exception that
    propagates, and the head stays on the base c although it was at a
    when the call started; and when the HEAD cache was stale at the
    start, holding a while HEAD stood for b, the failed call leaves
    HEAD on a, not where it stood. *)
Lemma apply_patch_failure_leaves_base :
  (let result := apply_patch stuck_git merge_clean ".git" no_config
                   None (Some "the diff") (Some (sha "c")) true repository in
   (get_head stuck_git repository).1 = Ok (sha "a")
   ∧ resolve repository "HEAD" = Some (sha "a")
   ∧ result.1 = Raise (GitException "git-read-tree failed (local changes maybe?)")
   ∧ (get_head stuck_git result.2).1 = Ok (sha "c")
   ∧ resolve result.2 "HEAD" = Some (sha "c"))
  ∧ (let result := apply_patch rejecting_git merge_clean ".git" no_config
                     None (Some "the diff") (Some (sha "c")) true stale_head in
     (get_head rejecting_git stale_head).1 = Ok (sha "a")
     ∧ resolve stale_head "HEAD" = Some (sha "b")
     ∧ result.1 = Raise (GitRunException (apply_patch_call "the diff")
                           "git-apply failed with code 1")
     ∧ resolve result.2 "HEAD" = Some (sha "a")).
Proof. repeat split; vm_compute; reflexivity. Qed.

(** C9: with unknown files asked for, a conflicted path that is also
    listed as unknown is reported twice, once with status [?]; and a
    path that the conflicts list names twice is reported twice. *)
Lemma tree_status_reports_twice :
  (tree_status git_unknown_f ".git" no_config None "HEAD" true true false []
     (with_conflicts ["f"])).1
    = Ok [("?", "f"); ("C", "f")]
  ∧ (tree_status git_quiet ".git" no_config None "HEAD" false true false []
       (with_conflicts ["f"; "f"])).1
    = Ok [("C", "f"); ("C", "f")].
Proof. split; vm_compute; reflexivity. Qed.

(** C9 on a conflicts list naming f and g, with a quiet index. *)
Lemma tree_status_conflicts_witness :
  (tree_status git_quiet ".git" no_config None "HEAD" false true false []
     (with_conflicts ["f"; "g"])).1
    = Ok [("C", "f"); ("C", "g")]
  ∧ "f" ∈ conflicts_of ".git" (with_conflicts ["f"; "g"])
  ∧ length (filter (λ e, e = ("C", "f")) [("C", "f"); ("C", "g")])
    = occurrences "f" (conflicts_of ".git" (with_conflicts ["f"; "g"]))
  ∧ ("C", "f") ∈ [("C", "f"); ("C", "g")]
  ∧ (∀ status, (status, "f") ∈ [("C", "f"); ("C", "g")] →
       status = "C" ∨ (false = true ∧ status = "?"))
  ∧ (false = false → NoDup (conflicts_of ".git" (with_conflicts ["f"; "g"])) →
     filter (λ e : string * string, e.2 = "f") [("C", "f"); ("C", "g")] = [("C", "f")]).
Proof.
  assert (H1 : tree_status git_quiet ".git" no_config None "HEAD" false true false []
                 (with_conflicts ["f"; "g"])
               = (Ok [("C", "f"); ("C", "g")],
                  (tree_status git_quiet ".git" no_config None "HEAD" false true false []
                     (with_conflicts ["f"; "g"])).2))
    by (vm_compute; reflexivity).
  assert (H2 : "f" ∈ conflicts_of ".git" (with_conflicts ["f"; "g"])) by by_evaluation.
  split; [by rewrite H1|]. split; [done|].
  apply (tree_status_reports_conflicts git_quiet ".git" no_config None "HEAD"
           false true false [] _ _ _ "f" H1 H2).
  by left.
Defined.

(** C7: once the head is cached, moving HEAD with [set_ref], or the
    current branch with [set_branch], leaves the cache as it was:
    [get_head()] still answers a although HEAD stands for b.  The same
    move made with [__set_head] updates the cache. *)
Lemma set_ref_leaves_head_cache_stale :
  (let after := (get_head git_quiet ;; set_ref git_quiet "HEAD" (sha "b") ;;
                 get_head git_quiet) repository in
   after.1 = Ok (sha "a") ∧ resolve after.2 "HEAD" = Some (sha "b"))
  ∧ (let after := (get_head git_quiet ;; set_branch git_quiet "master" (sha "b") ;;
                   get_head git_quiet) repository in
     after.1 = Ok (sha "a") ∧ resolve after.2 "HEAD" = Some (sha "b"))
  ∧ (let after := (get_head git_quiet ;; __set_head git_quiet (sha "b") ;;
                   get_head git_quiet) repository in
     after.1 = Ok (sha "b") ∧ resolve after.2 "HEAD" = Some (sha "b")).
Proof. repeat split; vm_compute; reflexivity. Qed.

(** C10: with a backend that cannot read commit a, three calls of
    [get_commit] for a raise three times and read it three times,
    and nothing is cached. *)
Lemma get_commit_failed_reads_again :
  let run := get_commits unreadable_git merge_clean ".git" no_config
               [([], sha "a"); ([], sha "a"); ([], sha "a")] repository in
  run.1 = Ok (replicate 3
                (Raise (GitRunException (cmd ["git-cat-file"; "commit"; sha "a"])
                          "git-cat-file failed with code 1")))
  ∧ reads (sha "a") (history run.2) = 3
  ∧ __commits run.2 = ∅.
Proof. repeat split; vm_compute; reflexivity. Qed.

End Runs.

(** * Strings *)
Section StringFacts.
Import Git Repo Trace.

Lemma append_cons c (a b : string) : String c a +:+ b = String c (a +:+ b).
Proof. reflexivity. Qed.

Lemma append_nil_l (b : string) : "" +:+ b = b.
Proof. reflexivity. Qed.

Lemma append_nil_r (s : string) : s +:+ "" = s.
Proof. induction s as [|c s IH]; [done|]. by rewrite append_cons, IH. Qed.

Lemma append_assoc (a b c : string) : (a +:+ b) +:+ c = a +:+ (b +:+ c).
Proof. induction a as [|x a IH]; [done|]. by rewrite !append_cons, IH. Qed.

Lemma snoc_append (cur : string) c (s : string) : snoc cur c +:+ s = cur +:+ String c s.
Proof. unfold snoc. by rewrite append_assoc. Qed.

Lemma length_append (a b : string) :
  String.length (a +:+ b) = String.length a + String.length b.
Proof. induction a as [|x a IH]; [done|]. rewrite append_cons. simpl. by rewrite IH. Qed.

Lemma has_char_append c (a b : string) :
  has_char c (a +:+ b) = has_char c a || has_char c b.
Proof.
  induction a as [|x a IH]; [done|]. rewrite append_cons. simpl.
  by rewrite IH, orb_assoc.
Qed.

(** A separator ends the piece being read. *)
Lemma split_from_sep sep n (s : string) : ∀ cur rest,
  has_char sep s = false →
  split_from sep (S n) cur (s +:+ String sep rest)
  = (cur +:+ s) :: split_from sep n "" rest.
Proof.
  induction s as [|c s IH]; intros cur rest Hs.
  - rewrite append_nil_l, append_nil_r. simpl.
    by rewrite bool_decide_eq_true_2.
  - simpl in Hs. apply orb_false_iff in Hs as [Hc Hs].
    rewrite append_cons. simpl. rewrite Hc. rewrite IH by done.
    by rewrite snoc_append.
Qed.

(** Without a separator there is one piece. *)
Lemma split_from_end sep (s : string) : ∀ n cur,
  has_char sep s = false → split_from sep n cur s = [cur +:+ s].
Proof.
  induction s as [|c s IH]; intros n cur Hs; simpl.
  - by rewrite append_nil_r.
  - simpl in Hs. apply orb_false_iff in Hs as [Hc Hs].
    destruct n as [|n]; [done|].
    rewrite Hc. rewrite IH by done. by rewrite snoc_append.
Qed.

(** After the last allowed split the rest is one piece. *)
Lemma split_from_exhausted sep cur (s : string) : split_from sep 0 cur s = [cur +:+ s].
Proof. destruct s; simpl; [by rewrite append_nil_r|done]. Qed.

Lemma lines_of_one_line (s : string) :
  has_char LF s = false → lines_of (snoc s LF) = [s].
Proof.
  intros Hs. unfold lines_of, split, snoc.
  rewrite length_append. simpl. rewrite Nat.add_1_r.
  rewrite split_from_sep by done. rewrite append_nil_l.
  by destruct (String.length s).
Qed.

Lemma span_all f (s : string) c rest :
  all_chars f s = true → f c = false → span f (s +:+ String c rest) = (s, String c rest).
Proof.
  intros Hs Hc. induction s as [|x s IH].
  - rewrite append_nil_l. simpl. by rewrite Hc.
  - simpl in Hs. apply andb_true_iff in Hs as [Hx Hs].
    rewrite append_cons. simpl. by rewrite Hx, IH.
Qed.

Lemma span_all_end f (s : string) : all_chars f s = true → span f s = (s, "").
Proof.
  intros Hs. induction s as [|x s IH]; simpl; [done|].
  simpl in Hs. apply andb_true_iff in Hs as [Hx Hs]. by rewrite Hx, IH.
Qed.

(** What [span] gives: the two parts make up the string, the first is
    of the class, and the second does not start with it. *)
Lemma span_spec f (s : string) :
  s = (span f s).1 +:+ (span f s).2
  ∧ all_chars f (span f s).1 = true
  ∧ match (span f s).2 with String c _ => f c = false | EmptyString => True end.
Proof.
  induction s as [|x s IH]; simpl; [done|].
  destruct (f x) eqn:Hx.
  - destruct (span f s) as [p r]. simpl in *. destruct IH as (-> & Hp & Hr).
    rewrite Hx. by repeat split.
  - simpl. by repeat split.
Qed.

Lemma exactly_all f (s rest : string) :
  all_chars f s = true → exactly (String.length s) f (s +:+ rest) = Some (s, rest).
Proof.
  intros Hs. induction s as [|x s IH]; [done|].
  simpl in Hs. apply andb_true_iff in Hs as [Hx Hs].
  rewrite append_cons. simpl. by rewrite Hx, IH.
Qed.

Lemma exactly_length n f : ∀ (s p r : string),
  exactly n f s = Some (p, r) → String.length p = n ∧ s = p +:+ r.
Proof.
  induction n as [|n IH]; intros s p r H; simpl in H.
  - by injection H as <- <-.
  - destruct s as [|c s]; [done|]. destruct (f c); [|done].
    destruct (exactly n f s) as [[p' r']|] eqn:He; [|done].
    injection H as <- <-. apply IH in He as [<- ->]. done.
Qed.

Lemma rstrip_append (a b : string) : rstrip b ≠ "" → rstrip (a +:+ b) = a +:+ rstrip b.
Proof.
  intros Hb. induction a as [|c a IH]; [done|].
  rewrite !append_cons. simpl. rewrite IH.
  destruct (a +:+ rstrip b) eqn:Hab; [|done].
  destruct a; [by rewrite append_nil_l in Hab|done].
Qed.

End StringFacts.

(** * More properties of the GIT interface *)
Section RepoProperties.
Import Git Observe Repo Trace.
Local Open Scope git_scope.
Set Default Proof Using "Type".

Context (git : list event → call → reply).
Context (gitmergeonefile_merge :
  string → string → string → string → string → string → string →
  gmap string string → Z * gmap string string).
Context (basedir : string) (config_get : string → option string).

Implicit Types (w : world).

(** ** HEAD *)

(** X1: once [get_head()] has returned a non-empty id, calling it
    again gives the same id and runs nothing: the world is left as it
    is.  The first call itself runs nothing when the cache held a
    value. *)
Theorem get_head_memoizes w head w1 :
  get_head git w = (Ok head, w1) →
  head ≠ "" →
  get_head git w1 = (Ok head, w1)
  ∧ __head w1 = Some head
  ∧ (truthy (__head w) = true → w1 = w).
Proof.
  intros Hget Hne.
  pose proof (get_head_Ok git _ _ _ Hget) as (Hcache & _ & _).
  assert (Htruthy : truthy (__head w1) = true).
  { rewrite Hcache. by destruct head. }
  split; [|split; [done|]].
  - destruct (get_head_cases git w1) as [[_ ->]|[Hc _]]; [|congruence].
    by rewrite Hcache.
  - intros Hw. destruct (get_head_cases git w) as [[_ H]|[Hc _]]; [|congruence].
    rewrite H in Hget. by injection Hget as _ <-.
Qed.

Lemma set_head_file_cases ref w :
  set_head_file git ref w
  = match git (history w) (cmd ["git-symbolic-ref"; "HEAD"; "refs/heads/" +:+ ref]) with
    | Failed _ =>
        (Raise (GitException ("Could not set head to " +:+ dquote +:+ ref +:+ dquote)),
         logged (Ran (cmd ["git-symbolic-ref"; "HEAD"; "refs/heads/" +:+ ref]))
                (with_head None w))
    | Done _ =>
        (Ok tt,
         mkWorld (refs w) (Some ("refs/heads/" +:+ ref)) None (__commits w) (heap w)
                 (fs w) (stdin w)
                 (history w ++ [Ran (cmd ["git-symbolic-ref"; "HEAD"; "refs/heads/" +:+ ref])])
                 (printed w))
    end.
Proof.
  unfold set_head_file, __clear_head_cache. rewrite bind_unfold. simpl.
  rewrite try_except_unfold.
  unfold GRun_run, GRun_io, bind, get_world, log_event. simpl.
  by destruct (git _ _).
Qed.

(** X2: when [set_head_file(ref)] succeeds the HEAD cache is empty,
    HEAD points to the branch, no ref has changed, and the next
    [get_head()] reads the commit of that branch from the ref store. *)
Theorem set_head_file_then_get_head ref w w1 sha1 out :
  set_head_file git ref w = (Ok tt, w1) →
  refs w !! ("refs/heads/" +:+ ref) = Some sha1 →
  has_char LF sha1 = false →
  git (history w1) (rev_parse_call "HEAD") = Done out →
  __head w1 = None
  ∧ symbolic_head w1 = Some ("refs/heads/" +:+ ref)
  ∧ refs w1 = refs w
  ∧ get_head git w1
    = (Ok sha1, with_head (Some sha1) (logged (Ran (rev_parse_call "HEAD")) w1)).
Proof.
  intros Hset Href Hline Hgit.
  rewrite set_head_file_cases in Hset.
  destruct (git (history w) _) as [out0|text]; [|done].
  injection Hset as <-. simpl in *.
  split; [done|]. split; [done|]. split; [done|].
  unfold get_head. rewrite bind_unfold. unfold get_world. simpl.
  rewrite bind_unfold, rev_parse_cases. simpl. fold (rev_parse_call "HEAD").
  rewrite Hgit. unfold resolve. simpl. rewrite Href.
  by rewrite lines_of_one_line.
Qed.

(** X3: [__set_head(val)] checks that the value has forty characters
    only after it has written it: for a value of another length that
    the cache does not hold and that [git-update-ref] accepts, it
    raises [AssertionError] with HEAD moved to the value and the value
    cached. *)
Theorem set_head_asserts_after_writing val w out :
  String.length val ≠ 40 →
  __head w ≠ Some val →
  git (history w) (update_ref_call "HEAD" val) = Done out →
  __set_head git val w
  = (Raise AssertionError,
     with_head (Some val)
       (with_refs (update_ref w "HEAD" val) (logged (Ran (update_ref_call "HEAD" val)) w)))
  ∧ resolve (__set_head git val w).2 "HEAD" = Some val.
Proof.
  intros Hlen Hcache Hgit.
  assert (Heq : __set_head git val w
    = (Raise AssertionError,
       with_head (Some val)
         (with_refs (update_ref w "HEAD" val)
            (logged (Ran (update_ref_call "HEAD" val)) w)))).
  { unfold __set_head. rewrite bind_unfold. unfold get_world.
    rewrite (bool_decide_eq_true_2 (__head w ≠ Some val)) by done.
    rewrite orb_true_r. rewrite !bind_unfold, set_ref_cases, Hgit.
    unfold set___head. simpl. rewrite bind_unfold. simpl.
    by rewrite bool_decide_eq_false_2. }
  split; [done|]. rewrite Heq.
  by apply (resolve_update_ref w).
Qed.


(** [switch(tree_id)] once the index is refreshed and the head known. *)
Lemma switch_unfold tree_id w w1 head w2 :
  refresh_index git w = (Ok tt, w1) →
  get_head git w1 = (Ok head, w2) →
  switch git tree_id false w
  = match git (history w2) (read_tree_call head tree_id) with
    | Failed _ =>
        (Raise (GitException "git-read-tree failed (local changes maybe?)"),
         logged (Ran (read_tree_call head tree_id)) w2)
    | Done _ => __set_head git tree_id (logged (Ran (read_tree_call head tree_id)) w2)
    end.
Proof.
  intros Hrefresh Hhead. unfold switch.
  rewrite bind_unfold, (bind_Ok _ _ _ _ _ Hrefresh).
  rewrite try_except_unfold, (bind_Ok _ _ _ _ _ Hhead).
  fold (read_tree_call head tree_id). unfold read_tree_call.
  rewrite read_tree_run. by destruct (git _ _).
Qed.

(** X4: when the [git-read-tree] of [switch(tree_id)] fails, [switch]
    raises a [GitException] and HEAD is not moved: no ref has changed,
    no [git-update-ref] was run, and the cache holds the head the call
    started from. *)
Theorem switch_failure_keeps_head tree_id w w1 head w2 text :
  refresh_index git w = (Ok tt, w1) →
  get_head git w1 = (Ok head, w2) →
  git (history w2) (read_tree_call head tree_id) = Failed text →
  switch git tree_id false w
  = (Raise (GitException "git-read-tree failed (local changes maybe?)"),
     logged (Ran (read_tree_call head tree_id)) w2)
  ∧ refs (switch git tree_id false w).2 = refs w
  ∧ symbolic_head (switch git tree_id false w).2 = symbolic_head w
  ∧ __head (switch git tree_id false w).2 = Some head.
Proof.
  intros Hrefresh Hhead Hgit.
  rewrite (switch_unfold _ _ _ _ _ Hrefresh Hhead), Hgit.
  apply refresh_index_logged in Hrefresh as ->.
  apply get_head_Ok in Hhead as (Hc & Hr & Hs).
  by repeat split.
Qed.

(** ** What leaves the refs alone *)

Lemma leaves_refs_refl w : leaves_refs w w.
Proof. repeat split. exists []. by rewrite app_nil_r. Qed.

Lemma leaves_refs_trans w1 w2 w3 :
  leaves_refs w1 w2 → leaves_refs w2 w3 → leaves_refs w1 w3.
Proof.
  intros (Hr1 & Hs1 & Hh1 & new1 & Hn1 & Hf1) (Hr2 & Hs2 & Hh2 & new2 & Hn2 & Hf2).
  split; [congruence|]. split; [congruence|]. split; [congruence|].
  exists (new1 ++ new2). split.
  - by rewrite Hn2, Hn1, <- app_assoc.
  - by apply Forall_app.
Qed.

Lemma leaves_refs_ret {A} (a : A) : leaves_refs_in (ret a).
Proof. intros w. apply leaves_refs_refl. Qed.

Lemma leaves_refs_raise {A} e : leaves_refs_in (raise (A := A) e).
Proof. intros w. apply leaves_refs_refl. Qed.

Lemma leaves_refs_get_world : leaves_refs_in get_world.
Proof. intros w. apply leaves_refs_refl. Qed.

Lemma leaves_refs_bind {A B} (m : M A) (k : A → M B) :
  leaves_refs_in m → (∀ a, leaves_refs_in (k a)) → leaves_refs_in (bind m k).
Proof.
  intros Hm Hk w. specialize (Hm w). unfold bind.
  destruct (m w) as [[a|e] w1]; [|done].
  eapply leaves_refs_trans; [done|]. apply Hk.
Qed.

Lemma leaves_refs_try_except {A} (m : M A) caught handler :
  leaves_refs_in m → (∀ e, leaves_refs_in (handler e)) →
  leaves_refs_in (try_except m caught handler).
Proof.
  intros Hm Hh w. specialize (Hm w). unfold try_except.
  destruct (m w) as [[a|e] w1]; [done|].
  destruct (caught e); [|done].
  eapply leaves_refs_trans; [done|]. apply Hh.
Qed.

Lemma leaves_refs_for_each {A} (l : list A) (body : A → M unit) :
  (∀ x, leaves_refs_in (body x)) → leaves_refs_in (for_each l body).
Proof.
  intros Hbody. induction l as [|x l IH]; [apply leaves_refs_ret|].
  simpl. apply leaves_refs_bind; [apply Hbody|done].
Qed.

Lemma leaves_refs_set_fs f : leaves_refs_in (set_fs f).
Proof. intros w. repeat split. exists []. by rewrite app_nil_r. Qed.

Lemma leaves_refs_out_print m : leaves_refs_in (out_print m).
Proof. intros w. repeat split. exists []. by rewrite app_nil_r. Qed.

Lemma leaves_refs_merged path code : leaves_refs_in (log_event (MergedFile path code)).
Proof.
  intros w. repeat split. exists [MergedFile path code].
  split; [done|]. by constructor.
Qed.

Lemma leaves_refs_GRun_io c : ref_command c = false → leaves_refs_in (GRun_io git c).
Proof.
  intros Hc w. rewrite (GRun_io_plain git _ _ Hc). unfold plain_run.
  assert (leaves_refs w (logged (Ran c) w)).
  { repeat split. exists [Ran c]. split; [done|]. by constructor. }
  by destruct (git _ _).
Qed.

Lemma leaves_refs_GRun_run c : ref_command c = false → leaves_refs_in (GRun_run git c).
Proof.
  intros Hc. unfold GRun_run.
  apply leaves_refs_bind; [by apply leaves_refs_GRun_io|intros; apply leaves_refs_ret].
Qed.

Lemma leaves_refs_GRun_output_lines c :
  ref_command c = false → leaves_refs_in (GRun_output_lines git c).
Proof.
  intros Hc. unfold GRun_output_lines.
  apply leaves_refs_bind; [by apply leaves_refs_GRun_io|intros; apply leaves_refs_ret].
Qed.

Create HintDb head_frame.
#[local] Hint Resolve leaves_refs_ret leaves_refs_raise leaves_refs_get_world
  leaves_refs_set_fs leaves_refs_out_print leaves_refs_merged : head_frame.

(** Walks through the body of a function that runs no ref command. *)
Ltac leaves_refs_step :=
  lazymatch goal with
  | |- leaves_refs_in (bind _ _) => apply leaves_refs_bind; [|intros ?]
  | |- leaves_refs_in (try_except _ _ _) => apply leaves_refs_try_except; [|intros ?]
  | |- leaves_refs_in (for_each _ _) => apply leaves_refs_for_each; intros ?
  | |- leaves_refs_in (GRun_run _ _) => apply leaves_refs_GRun_run; reflexivity
  | |- leaves_refs_in (GRun_raw_output _ _) => apply leaves_refs_GRun_io; reflexivity
  | |- leaves_refs_in (GRun_io _ _) => apply leaves_refs_GRun_io; reflexivity
  | |- leaves_refs_in (GRun_output_lines _ _) =>
      apply leaves_refs_GRun_output_lines; reflexivity
  | |- leaves_refs_in (GRun_xargs _ _ _) =>
      unfold GRun_xargs; apply leaves_refs_GRun_run; reflexivity
  | |- leaves_refs_in (if ?b then _ else _) => destruct b
  | |- leaves_refs_in (match ?x with _ => _ end) => destruct x
  | |- _ => solve [auto with head_frame]
  end.
Ltac leaves_refs_all := repeat leaves_refs_step.

Lemma leaves_refs_get_conflicts : leaves_refs_in (get_conflicts basedir).
Proof. unfold get_conflicts. leaves_refs_all. Qed.

Lemma leaves_refs_refresh_index : leaves_refs_in (refresh_index git).
Proof. unfold refresh_index. leaves_refs_all. Qed.
#[local] Hint Resolve leaves_refs_get_conflicts leaves_refs_refresh_index : head_frame.

Lemma leaves_refs_diff_index_entries conflicts lines :
  leaves_refs_in (diff_index_entries conflicts lines).
Proof. induction lines as [|line lines IH]; simpl; leaves_refs_all. Qed.
#[local] Hint Resolve leaves_refs_diff_index_entries : head_frame.

Lemma leaves_refs_tree_status files tree_id unknown noexclude verbose diff_flags :
  leaves_refs_in (tree_status git basedir config_get files tree_id unknown noexclude
                    verbose diff_flags).
Proof. unfold tree_status. leaves_refs_all. Qed.
#[local] Hint Resolve leaves_refs_tree_status : head_frame.

Lemma leaves_refs_update_cache files force :
  leaves_refs_in (update_cache git basedir config_get files force).
Proof. unfold update_cache. leaves_refs_all. Qed.

Lemma leaves_refs_diff files rev1 rev2 diff_flags :
  leaves_refs_in (diff git files rev1 rev2 diff_flags).
Proof. unfold diff. leaves_refs_all. Qed.
#[local] Hint Resolve leaves_refs_update_cache leaves_refs_diff : head_frame.

Lemma leaves_refs_apply_diff rev1 rev2 check_index files :
  leaves_refs_in (apply_diff git rev1 rev2 check_index files).
Proof.
  unfold apply_diff. leaves_refs_all.
  all: apply leaves_refs_GRun_run, apply_diff_call_plain.
Qed.

Lemma leaves_refs_merge_paths base head1 head2 todo : ∀ errors,
  leaves_refs_in (merge_paths gitmergeonefile_merge base head1 head2 todo errors).
Proof.
  induction todo as [|[path stages] todo IH]; intros errors; simpl; [leaves_refs_all|].
  apply leaves_refs_bind; [|intros; apply IH].
  unfold merge_path. leaves_refs_all.
Qed.
#[local] Hint Resolve leaves_refs_merge_paths : head_frame.

Lemma leaves_refs_merge base head1 head2 recursive :
  leaves_refs_in (merge git gitmergeonefile_merge base head1 head2 recursive).
Proof. unfold merge, merge_trees, unmerged_files. leaves_refs_all. Qed.

Lemma leaves_refs_local_changes verbose :
  leaves_refs_in (local_changes git basedir config_get verbose).
Proof. unfold local_changes. leaves_refs_all. Qed.

Lemma leaves_refs_ls_files files tree full_name :
  leaves_refs_in (ls_files git files tree full_name).
Proof. unfold ls_files. leaves_refs_all. Qed.

Lemma leaves_refs_diffstat files rev1 rev2 :
  leaves_refs_in (diffstat git files rev1 rev2).
Proof. unfold diffstat. leaves_refs_all. Qed.

Lemma leaves_refs_barefiles rev1 rev2 : leaves_refs_in (barefiles git rev1 rev2).
Proof. unfold barefiles. leaves_refs_all. Qed.

Lemma leaves_refs_rm files force : leaves_refs_in (rm git files force).
Proof. unfold rm. leaves_refs_all. Qed.

Lemma leaves_refs_checkout files tree_id force :
  leaves_refs_in (checkout git files tree_id force).
Proof. unfold checkout. leaves_refs_all. Qed.

(** X5: the functions that look at the working tree and the index,
    or change them, never move HEAD: [ls_files], [tree_status],
    [local_changes], [update_cache], [diff], [diffstat], [barefiles],
    [apply_diff], [merge], [rm] and [checkout] leave every ref, the
    symbolic HEAD and the HEAD cache as they were, and run no
    [git-update-ref], [git-symbolic-ref] or [git-rev-parse], whether
    they return or raise. *)
Theorem working_tree_functions_leave_refs w :
  (∀ files tree full_name, leaves_refs w (ls_files git files tree full_name w).2)
  ∧ (∀ files tree_id unknown noexclude verbose diff_flags,
       leaves_refs w (tree_status git basedir config_get files tree_id unknown noexclude
                        verbose diff_flags w).2)
  ∧ (∀ verbose, leaves_refs w (local_changes git basedir config_get verbose w).2)
  ∧ (∀ files force, leaves_refs w (update_cache git basedir config_get files force w).2)
  ∧ (∀ files rev1 rev2 diff_flags, leaves_refs w (diff git files rev1 rev2 diff_flags w).2)
  ∧ (∀ files rev1 rev2, leaves_refs w (diffstat git files rev1 rev2 w).2)
  ∧ (∀ rev1 rev2, leaves_refs w (barefiles git rev1 rev2 w).2)
  ∧ (∀ rev1 rev2 check_index files,
       leaves_refs w (apply_diff git rev1 rev2 check_index files w).2)
  ∧ (∀ base head1 head2 recursive,
       leaves_refs w (merge git gitmergeonefile_merge base head1 head2 recursive w).2)
  ∧ (∀ files force, leaves_refs w (rm git files force w).2)
  ∧ (∀ files tree_id force, leaves_refs w (checkout git files tree_id force w).2).
Proof.
  split; [intros; apply leaves_refs_ls_files|].
  split; [intros; apply leaves_refs_tree_status|].
  split; [intros; apply leaves_refs_local_changes|].
  split; [intros; apply leaves_refs_update_cache|].
  split; [intros; apply leaves_refs_diff|].
  split; [intros; apply leaves_refs_diffstat|].
  split; [intros; apply leaves_refs_barefiles|].
  split; [intros; apply leaves_refs_apply_diff|].
  split; [intros; apply leaves_refs_merge|].
  split; [intros; apply leaves_refs_rm|].
  intros; apply leaves_refs_checkout.
Qed.

(** ** The index and commits *)

Lemma filter_cons_of_elem {A} (P : A → Prop) `{∀ x, Decision (P x)} (l : list A) x :
  x ∈ l → P x → ∃ y l', filter P l = y :: l'.
Proof.
  intros Hx HP.
  assert (Hin : x ∈ filter P l) by (by apply list_elem_of_filter).
  destruct (filter P l) as [|y l']; [by inversion Hin|by eexists _, _].
Qed.

(** X6: while the conflicts list names a path that the file filter
    lets through, [update_cache(files)] without [force] refuses: once
    the status is computed it raises a [GitException] and runs no
    [git-update-index] on any file; and so does a [commit] of these
    files that has parents and updates the cache. *)
Theorem update_cache_refuses_conflicts files w entries w1 (p : string) :
  tree_status git basedir config_get files "HEAD" false true false [] w = (Ok entries, w1) →
  p ∈ conflicts_of basedir w →
  list_truthy files = false ∨ p ∈ default [] files →
  update_cache git basedir config_get files false w
  = (Raise (GitException "Updating cache failed: unresolved conflicts"), w1)
  ∧ ∀ message o,
      co_files o = files → co_cache_update o = true → list_truthy (co_parents o) = true →
      commit git basedir config_get message o w
      = (Raise (GitException "Updating cache failed: unresolved conflicts"), w1).
Proof.
  intros Hstatus Hp Hfilter.
  assert (Hin : ("C", p) ∈ entries).
  { destruct (tree_status_entries _ _ _ _ _ _ _ _ _ _ _ _ Hstatus)
      as (unknown_files & rest & -> & _ & _ & _).
    rewrite !elem_of_app. right. left.
    apply list_elem_of_fmap_2. by apply list_elem_of_filter. }
  assert (Hupdate : update_cache git basedir config_get files false w
    = (Raise (GitException "Updating cache failed: unresolved conflicts"), w1)).
  { unfold update_cache. rewrite (bind_Ok _ _ _ _ _ Hstatus).
    destruct entries as [|e entries]; [by inversion Hin|].
    destruct (filter_cons_of_elem
                (λ x : string * string,
                   bool_decide (x.1 ∈ ["M"; "N"; "A"; "D"]) = false)
                (e :: entries) ("C", p) Hin) as (y & l' & Hf); [done|].
    simpl. rewrite Hf. done. }
  split; [done|].
  intros message o <- Hcache Hparents. unfold commit.
  rewrite Hparents, Hcache. simpl.
  rewrite bool_decide_eq_true_2
    by (destruct (co_parents o) as [[|? ?]|]; done).
  rewrite bind_unfold, bind_unfold, Hupdate. done.
Qed.

Lemma ends_with_newline_snoc (s : string) : ends_with_newline (snoc s LF) = true.
Proof.
  induction s as [|c s IH]; [done|].
  unfold snoc in *. rewrite append_cons. simpl.
  destruct (s +:+ String LF "") eqn:Hs; [by destruct s|done].
Qed.

Lemma with_final_newline_ends (message : string) :
  ends_with_newline (with_final_newline message) = true.
Proof.
  unfold with_final_newline.
  destruct (ends_with_newline message) eqn:He; [done|apply ends_with_newline_snoc].
Qed.

Lemma commit_message_normalised (message : string) :
  (if negb (nonempty message) then String LF EmptyString
   else if negb (ends_with_newline message) then snoc message LF
   else message) = with_final_newline message.
Proof.
  unfold with_final_newline. destruct message as [|c s]; [done|]. simpl.
  by destruct (match s with "" => _ | _ => _ end).
Qed.

(** The steps of a [commit] that returns. *)
Lemma commit_Ok message o w id w' :
  commit git basedir config_get message o w = (Ok id, w') →
  ∃ w1 tree_id (set_head : bool) w2 w3,
    (if co_cache_update o && bool_decide (commit_parents o ≠ [])
     then changes <- update_cache git basedir config_get (co_files o) false ;;
          if negb changes && negb (co_allowempty o)
          then raise (GitException "No changes to commit") else ret tt
     else ret tt) w = (Ok tt, w1)
    ∧ match co_tree_id o with
      | None =>
          GRun_output_one_line git (cmd ["git-write-tree"]) w1 = (Ok tree_id, w2)
          ∧ set_head = true
      | Some tree_id' => tree_id = tree_id' ∧ set_head = co_set_head o ∧ w2 = w1
      end
    ∧ GRun_output_one_line git
        (commit_tree_call tree_id (commit_parents o) (with_final_newline message)
           (commit_env o)) w2 = (Ok id, w3)
    ∧ (if set_head then __set_head git id else ret tt) w3 = (Ok tt, w').
Proof.
  unfold commit. fold (commit_parents o). rewrite commit_message_normalised.
  intros H.
  apply bind_inv_Ok in H as ([] & w1 & Hcheck & H).
  apply bind_inv_Ok in H as ([tree_id set_head] & w2 & Htree & H).
  apply bind_inv_Ok in H as (id' & w3 & Hcommit & H).
  apply bind_inv_Ok in H as ([] & w4 & Hset & H).
  injection H as -> ->.
  exists w1, tree_id, set_head, w2, w3.
  split; [done|]. split; [|by split].
  destruct (co_tree_id o) as [t|].
  - by injection Htree as <- <- <-.
  - apply bind_inv_Ok in Htree as (t & w2' & Hrun & Hret).
    by injection Hret as <- <- <-.
Qed.

Lemma GRun_output_one_line_plain c w :
  ref_command c = false →
  GRun_output_one_line git c w
  = (match git (history w) c with
     | Failed text => Raise (GitRunException c text)
     | Done out => match lines_of out with
                   | [line] => Ok line
                   | _ => Raise (GitRunException c "expected 1 line")
                   end
     end, logged (Ran c) w).
Proof.
  intros Hc. unfold GRun_output_one_line. rewrite bind_unfold.
  rewrite (GRun_io_plain git _ _ Hc). unfold plain_run.
  destruct (git _ _) as [out|text]; [|done].
  by destruct (lines_of out) as [|? [|? ?]].
Qed.

Lemma commit_tree_call_plain tree_id parents message env :
  ref_command (commit_tree_call tree_id parents message env) = false.
Proof. done. Qed.

Lemma kept_history w w' : kept w w' → ∃ new, history w' = history w ++ new.
Proof. intros (_ & _ & new & H & _). by exists new. Qed.

(** X7: a [commit] that returns has fed [git-commit-tree] the message
    with a final newline: the message itself if it ended with one, the
    message and a newline otherwise (a lone newline for an empty
    message); the command line names the tree and one [-p] for each
    parent. *)
Theorem commit_feeds_message_with_newline message o w id w' :
  commit git basedir config_get message o w = (Ok id, w') →
  ∃ tree_id,
    Ran (commit_tree_call tree_id (commit_parents o) (with_final_newline message)
           (commit_env o)) ∈ since w w'
    ∧ ends_with_newline (with_final_newline message) = true
    ∧ (ends_with_newline message = true → with_final_newline message = message)
    ∧ (ends_with_newline message = false → with_final_newline message = snoc message LF)
    ∧ (∀ t, co_tree_id o = Some t → tree_id = t).
Proof.
  intros H.
  apply commit_Ok in H as (w1 & tree_id & set_head & w2 & w3 & Hcheck & Htree & Hrun & Hset).
  exists tree_id.
  split; [|split; [apply with_final_newline_ends|]].
  2: { unfold with_final_newline. split; [by intros ->|]. split; [by intros ->|].
       intros t Ht. rewrite Ht in Htree. by destruct Htree as (-> & _). }
  assert (H1 : ∃ new, history w1 = history w ++ new).
  { destruct (co_cache_update o && _).
    - apply kept_history.
      assert (Hk : keeps (changes <- update_cache git basedir config_get (co_files o) false ;;
                          if negb changes && negb (co_allowempty o)
                          then raise (GitException "No changes to commit") else ret tt)).
      { apply keeps_bind; [apply keeps_update_cache|]. intros changes.
        destruct (negb changes && negb (co_allowempty o));
          [apply keeps_raise|apply keeps_ret]. }
      specialize (Hk w). by rewrite Hcheck in Hk.
    - injection Hcheck as <-. exists []. by rewrite app_nil_r. }
  assert (H2 : ∃ new, history w2 = history w1 ++ new).
  { destruct (co_tree_id o).
    - destruct Htree as (_ & _ & ->). exists []. by rewrite app_nil_r.
    - destruct Htree as [Htree _].
      rewrite GRun_output_one_line_plain in Htree by done.
      injection Htree as _ <-. by eexists. }
  assert (H3 : history w3 = history w2 ++ [Ran (commit_tree_call tree_id (commit_parents o)
                 (with_final_newline message) (commit_env o))]).
  { rewrite GRun_output_one_line_plain in Hrun by apply commit_tree_call_plain.
    by injection Hrun as _ <-. }
  assert (H4 : ∃ new, history w' = history w3 ++ new).
  { destruct set_head.
    - apply kept_history. pose proof (keeps___set_head git id w3) as Hk.
      by rewrite Hset in Hk.
    - injection Hset as <-. exists []. by rewrite app_nil_r. }
  destruct H1 as [n1 H1], H2 as [n2 H2], H4 as [n4 H4].
  rewrite (since_app w w' (n1 ++ n2 ++ [Ran (commit_tree_call tree_id (commit_parents o)
             (with_final_newline message) (commit_env o))] ++ n4)).
  - rewrite !elem_of_app. right. right. left. by apply list_elem_of_singleton.
  - rewrite H4, H3, H2, H1. by rewrite <- !app_assoc.
Qed.


(** ** What a function runs *)

Lemma runs_only_refl programs w : runs_only programs w w.
Proof. exists []. by rewrite app_nil_r. Qed.

Lemma runs_only_trans programs w1 w2 w3 :
  runs_only programs w1 w2 → runs_only programs w2 w3 → runs_only programs w1 w3.
Proof.
  intros (new1 & Hn1 & Hf1) (new2 & Hn2 & Hf2).
  exists (new1 ++ new2). split.
  - by rewrite Hn2, Hn1, <- app_assoc.
  - by apply Forall_app.
Qed.

Lemma runs_only_ret {A} programs (a : A) : runs_only_in programs (ret a).
Proof. intros w. apply runs_only_refl. Qed.

Lemma runs_only_raise {A} programs e : runs_only_in programs (raise (A := A) e).
Proof. intros w. apply runs_only_refl. Qed.

Lemma runs_only_get_world programs : runs_only_in programs get_world.
Proof. intros w. apply runs_only_refl. Qed.

Lemma runs_only_bind {A B} programs (m : M A) (k : A → M B) :
  runs_only_in programs m → (∀ a, runs_only_in programs (k a)) →
  runs_only_in programs (bind m k).
Proof.
  intros Hm Hk w. specialize (Hm w). unfold bind.
  destruct (m w) as [[a|e] w1]; [|done].
  eapply runs_only_trans; [done|]. apply Hk.
Qed.

Lemma runs_only_try_except {A} programs (m : M A) caught handler :
  runs_only_in programs m → (∀ e, runs_only_in programs (handler e)) →
  runs_only_in programs (try_except m caught handler).
Proof.
  intros Hm Hh w. specialize (Hm w). unfold try_except.
  destruct (m w) as [[a|e] w1]; [done|].
  destruct (caught e); [|done].
  eapply runs_only_trans; [done|]. apply Hh.
Qed.

Lemma runs_only_for_each {A} programs (l : list A) (body : A → M unit) :
  (∀ x, runs_only_in programs (body x)) → runs_only_in programs (for_each l body).
Proof.
  intros Hbody. induction l as [|x l IH]; [apply runs_only_ret|].
  simpl. apply runs_only_bind; [apply Hbody|done].
Qed.

Lemma runs_only_silent programs (f : world → world) :
  (∀ w, history (f w) = history w) → runs_only_in programs (λ w, (Ok tt, f w)).
Proof. intros Hf w. exists []. simpl. by rewrite Hf, app_nil_r. Qed.

Lemma runs_only_set___head programs v : runs_only_in programs (set___head v).
Proof. by apply runs_only_silent. Qed.
Lemma runs_only_set_fs programs f : runs_only_in programs (set_fs f).
Proof. by apply runs_only_silent. Qed.
Lemma runs_only_out_print programs m : runs_only_in programs (out_print m).
Proof. by apply runs_only_silent. Qed.

Lemma store_effect_history c out w : history (store_effect c out w).2 = history w.
Proof.
  unfold store_effect, bind, get_world.
  destruct (argv c) as [|prog [|a [|b [|? ?]]]]; try done.
  repeat case_bool_decide; try done.
  by destruct (resolve w b).
Qed.

Lemma GRun_io_history c w : history (GRun_io git c w).2 = history w ++ [Ran c].
Proof.
  unfold GRun_io, bind, get_world, log_event.
  destruct (git _ _); [|done]. by rewrite store_effect_history.
Qed.

Lemma runs_only_GRun_io programs c :
  program_in programs c = true → runs_only_in programs (GRun_io git c).
Proof.
  intros Hc w. exists [Ran c]. split; [apply GRun_io_history|]. by constructor.
Qed.

Lemma runs_only_GRun_run programs c :
  program_in programs c = true → runs_only_in programs (GRun_run git c).
Proof.
  intros Hc. unfold GRun_run.
  apply runs_only_bind; [by apply runs_only_GRun_io|intros; apply runs_only_ret].
Qed.

Lemma runs_only_GRun_output_lines programs c :
  program_in programs c = true → runs_only_in programs (GRun_output_lines git c).
Proof.
  intros Hc. unfold GRun_output_lines.
  apply runs_only_bind; [by apply runs_only_GRun_io|intros; apply runs_only_ret].
Qed.

Lemma runs_only_GRun_output_one_line programs c :
  program_in programs c = true → runs_only_in programs (GRun_output_one_line git c).
Proof.
  intros Hc. unfold GRun_output_one_line.
  apply runs_only_bind; [by apply runs_only_GRun_io|]. intros out.
  destruct (lines_of out) as [|? [|? ?]]; apply runs_only_ret || apply runs_only_raise.
Qed.

Create HintDb run_frame.
#[local] Hint Resolve runs_only_ret runs_only_raise runs_only_get_world
  runs_only_set___head runs_only_set_fs runs_only_out_print : run_frame.

(** Walks through the body of a function, checking each program run. *)
Ltac runs_only_step :=
  lazymatch goal with
  | |- runs_only_in _ (bind _ _) => apply runs_only_bind; [|intros ?]
  | |- runs_only_in _ (try_except _ _ _) => apply runs_only_try_except; [|intros ?]
  | |- runs_only_in _ (for_each _ _) => apply runs_only_for_each; intros ?
  | |- runs_only_in _ (GRun_run _ _) => apply runs_only_GRun_run; reflexivity
  | |- runs_only_in _ (GRun_raw_output _ _) => apply runs_only_GRun_io; reflexivity
  | |- runs_only_in _ (GRun_io _ _) => apply runs_only_GRun_io; reflexivity
  | |- runs_only_in _ (GRun_output_lines _ _) =>
      apply runs_only_GRun_output_lines; reflexivity
  | |- runs_only_in _ (GRun_output_one_line _ _) =>
      apply runs_only_GRun_output_one_line; reflexivity
  | |- runs_only_in _ (GRun_xargs _ _ _) =>
      unfold GRun_xargs; apply runs_only_GRun_run; reflexivity
  | |- runs_only_in _ (if ?b then _ else _) => destruct b
  | |- runs_only_in _ (match ?x with _ => _ end) => destruct x
  | |- _ => solve [auto with run_frame]
  end.
Ltac runs_only_all := repeat runs_only_step.

(** X8: a [commit] without parents does not look at the status of the
    tree, whatever [cache_update] and [allowempty] say: all it runs is
    [git-write-tree], [git-commit-tree] and, to move HEAD,
    [git-update-ref]; in particular no [git-update-index] and no
    [git-diff-index]. *)
Theorem commit_without_parents_skips_status message o w :
  list_truthy (co_parents o) = false →
  runs_only ["git-write-tree"; "git-commit-tree"; "git-update-ref"] w
    (commit git basedir config_get message o w).2.
Proof.
  intros Hparents. revert w.
  change (runs_only_in ["git-write-tree"; "git-commit-tree"; "git-update-ref"]
            (commit git basedir config_get message o)).
  unfold commit. rewrite Hparents.
  rewrite (bool_decide_eq_false_2 ([] ≠ [])) by (by intros H).
  rewrite andb_false_r.
  unfold __set_head, set_ref. runs_only_all.
Qed.

(** X9: a [commit] that is given no tree writes the index as a tree
    and always moves HEAD, whatever [set_head] says: when it returns,
    the id it returns has forty characters, is what the HEAD cache
    holds and what [get_head()] gives; and HEAD stands for it in the
    ref store, unless the cache held that very id before. *)
Theorem commit_new_tree_moves_head message o w id w' :
  co_tree_id o = None →
  commit git basedir config_get message o w = (Ok id, w') →
  String.length id = 40
  ∧ __head w' = Some id
  ∧ get_head git w' = (Ok id, w')
  ∧ (__head w ≠ Some id → resolve w' "HEAD" = Some id).
Proof.
  intros Htree H.
  apply commit_Ok in H as (w1 & tree_id & set_head & w2 & w3 & Hcheck & Ht & Hrun & Hset).
  rewrite Htree in Ht. destruct Ht as [Hwrite ->].
  assert (H1 : __head w1 = __head w).
  { destruct (co_cache_update o && _).
    - assert (Hk : leaves_refs_in
                     (changes <- update_cache git basedir config_get (co_files o) false ;;
                      if negb changes && negb (co_allowempty o)
                      then raise (GitException "No changes to commit") else ret tt)).
      { apply leaves_refs_bind; [apply leaves_refs_update_cache|]. intros changes.
        destruct (negb changes && negb (co_allowempty o));
          [apply leaves_refs_raise|apply leaves_refs_ret]. }
      specialize (Hk w). rewrite Hcheck in Hk. by destruct Hk as (_ & _ & ? & _).
    - by injection Hcheck as <-. }
  rewrite GRun_output_one_line_plain in Hwrite by done. injection Hwrite as _ <-.
  rewrite GRun_output_one_line_plain in Hrun by apply commit_tree_call_plain.
  injection Hrun as _ <-.
  apply __set_head_Ok in Hset as (Hlen & Hhead & Hsym & Hcase).
  split; [done|]. split; [done|]. split.
  - destruct (get_head_cases git w') as [[_ ->]|[Hc _]].
    + by rewrite Hhead.
    + rewrite Hhead in Hc. by rewrite (length_40_truthy _ Hlen) in Hc.
  - intros Hne. destruct Hcase as [[Heq _]|[_ Hrefs]].
    + simpl in Heq. congruence.
    + by eapply resolve_update_ref.
Qed.


(** ** What is read from git *)

Lemma nonempty_append (a b : string) : a ≠ "" → nonempty (a +:+ b) = true.
Proof. by destruct a. Qed.

Lemma is_stage_digit_cases (stage : string) :
  stage ∈ ["1"; "2"; "3"] →
  ∃ c, stage = String c "" ∧ is_stage_digit c = true.
Proof.
  rewrite !elem_of_cons, elem_of_nil.
  intros [->|[->|[->|[]]]]; by eexists.
Qed.

Lemma stages_re_findall_line mode hash stage path :
  mode ≠ "" →
  all_chars is_octal_digit mode = true →
  String.length hash = 40 →
  all_chars is_hex_digit hash = true →
  stage ∈ ["1"; "2"; "3"] →
  stages_re_findall (unmerged_line mode hash stage path) = [(mode, hash, stage, path)].
Proof.
  intros Hmode Hoct Hlen Hhex Hstage.
  apply is_stage_digit_cases in Hstage as (c & -> & Hc).
  unfold stages_re_findall, unmerged_line.
  rewrite !append_cons, !append_nil_l.
  rewrite (span_all _ _ _ _ Hoct) by done.
  rewrite (proj2 (nonempty_true mode)) by done.
  rewrite <- Hlen, (exactly_all _ _ _ Hhex).
  rewrite !bool_decide_eq_true_2 by done. by rewrite Hc.
Qed.

(** X10: the pattern [merge] reads [git-ls-files --unmerged --stage]
    with takes a line apart into what git put together: for an octal
    mode, a hash of forty hexadecimal digits, a stage among 1, 2 and 3
    and any path, the line gives back these four; and the dictionary
    built from that line alone has the path with this stage set and
    the two others empty. *)
Theorem stages_re_parses_unmerged_line mode hash stage path :
  mode ≠ "" →
  all_chars is_octal_digit mode = true →
  String.length hash = 40 →
  all_chars is_hex_digit hash = true →
  stage ∈ ["1"; "2"; "3"] →
  stages_re_findall (unmerged_line mode hash stage path) = [(mode, hash, stage, path)]
  ∧ unmerged_entries [unmerged_line mode hash stage path] ∅
    = Ok {[ path := <[stage := (mode, hash)]> unset_stages ]}.
Proof.
  clear git gitmergeonefile_merge basedir config_get.
  intros Hmode Hoct Hlen Hhex Hstage.
  pose proof (stages_re_findall_line mode hash stage path Hmode Hoct Hlen Hhex Hstage)
    as Hline.
  split; [done|]. simpl. rewrite Hline.
  unfold unmerged_line at 1. rewrite nonempty_append by done.
  rewrite bool_decide_eq_true_2 by (rewrite dom_empty; apply not_elem_of_empty).
  rewrite lookup_total_insert_eq, insert_insert_eq. done.
Qed.

Lemma stages_re_findall_inv line mode hash stage path rest :
  stages_re_findall line = (mode, hash, stage, path) :: rest →
  mode ≠ "" ∧ String.length hash = 40 ∧ stage ∈ ["1"; "2"; "3"].
Proof.
  unfold stages_re_findall.
  destruct (span is_octal_digit line) as [m r1].
  destruct (nonempty m) eqn:Hm; [|done].
  destruct r1 as [|sp1 r2]; [done|].
  destruct (exactly 40 is_hex_digit r2) as [[h r3]|] eqn:He; [|done].
  destruct r3 as [|sp2 [|st [|tab p]]]; try done.
  destruct (_ && _) eqn:Hcond; [|done].
  intros [= <- <- <- <- <-].
  apply exactly_length in He as [Hlen _].
  split; [by apply nonempty_true|]. split; [done|].
  apply andb_true_iff in Hcond as [Hcond _].
  apply andb_true_iff in Hcond as [_ Hst].
  unfold is_stage_digit in Hst. apply andb_true_iff in Hst as [H1 H2].
  apply bool_decide_eq_true_1 in H1, H2.
  assert (Hn : Ascii.nat_of_ascii st = 49 ∨ Ascii.nat_of_ascii st = 50
               ∨ Ascii.nat_of_ascii st = 51) by lia.
  rewrite !elem_of_cons.
  destruct Hn as [Hn|[Hn|Hn]];
    apply (f_equal Ascii.ascii_of_nat) in Hn;
    rewrite Ascii.ascii_nat_embedding in Hn; subst st; auto.
Qed.

Lemma staged_unmerged_entries lines : ∀ files files',
  staged files → unmerged_entries lines files = Ok files' → staged files'.
Proof.
  clear git gitmergeonefile_merge basedir config_get.
  induction lines as [|line lines IH]; intros files files' Hfiles H; simpl in H.
  { by injection H as <-. }
  destruct (nonempty line); [|by eapply IH].
  destruct (stages_re_findall line) as [|[[[mode hash] stage] path] rest] eqn:Hre; [done|].
  apply stages_re_findall_inv in Hre as (Hmode & Hlen & Hstage).
  eapply IH; [|done].
  intros p stages Hp.
  destruct (decide (p = path)) as [->|Hne].
  2: { rewrite lookup_insert_ne in Hp by done.
       case_bool_decide; [rewrite lookup_insert_ne in Hp by done|];
         exact (Hfiles _ _ Hp). }
  rewrite lookup_insert_eq in Hp. injection Hp as <-.
  assert (Hdom : dom ((if bool_decide (path ∉ dom files)
                       then <[path := unset_stages]> files else files) !!! path)
                 = ({[ "1"; "2"; "3" ]} : gset string)).
  { case_bool_decide as Hin.
    - rewrite lookup_total_insert_eq. unfold unset_stages.
      vm_compute. reflexivity.
    - apply elem_of_dom in Hin as [stages Hs].
      rewrite (lookup_total_correct _ _ _ Hs). by apply (Hfiles _ _ Hs). }
  split.
  - rewrite dom_insert_L, Hdom.
    rewrite !elem_of_cons, elem_of_nil in Hstage.
    destruct Hstage as [->|[->|[->|[]]]]; vm_compute; reflexivity.
  - exists stage, mode, hash. by rewrite lookup_insert_eq.
Qed.

(** X11: in the dictionary [merge] builds from the unmerged entries
    of the index, every path has exactly the three stages 1, 2 and 3
    (so that looking them up never fails), at least one of them with a
    mode and a hash of forty characters. *)
Theorem unmerged_entries_three_stages lines files path stages :
  unmerged_entries lines ∅ = Ok files →
  files !! path = Some stages →
  dom stages = {[ "1"; "2"; "3" ]}
  ∧ (∀ stage, stage ∈ ["1"; "2"; "3"] → is_Some (stages !! stage))
  ∧ ∃ stage mode hash, stages !! stage = Some (mode, hash)
                       ∧ mode ≠ "" ∧ String.length hash = 40.
Proof.
  clear git gitmergeonefile_merge basedir config_get.
  intros Hrun Hpath.
  assert (Hempty : staged ∅) by (by intros p s Hp).
  destruct (staged_unmerged_entries _ _ _ Hempty Hrun _ _ Hpath) as [Hdom Hset].
  split; [done|]. split; [|done].
  intros stage Hstage. apply elem_of_dom. rewrite Hdom.
  rewrite !elem_of_cons, elem_of_nil in Hstage.
  destruct Hstage as [->|[->|[->|[]]]]; by_evaluation.
Qed.


Lemma split_from_once sep (s : string) : ∀ cur,
  has_char sep s = true → ∃ key val, split_from sep 1 cur s = [key; val].
Proof.
  induction s as [|c s IH]; intros cur Hs; [done|].
  simpl in *. case_bool_decide as Hc; simpl in Hs.
  - rewrite split_from_exhausted. by eexists _, _.
  - by apply IH.
Qed.

Lemma has_char_nonempty c (s : string) : has_char c s = true → nonempty s = true.
Proof. by destruct s. Qed.

(** The header loop of [Commit.__init__] on well-formed headers
    followed by an empty line. *)
Lemma read_headers_spec (headers body : list string) : ∀ c0,
  Forall (λ h, has_char SPACE h = true) headers →
  ∃ c, read_headers (headers ++ "" :: body) c0 = Ok (c, body)
       ∧ commit_id_hash c = commit_id_hash c0
       ∧ commit_tree c = from_option Some (commit_tree c0) (last_header "tree" headers)
       ∧ commit_author c
         = from_option Some (commit_author c0) (last_header "author" headers)
       ∧ commit_committer c
         = from_option Some (commit_committer c0) (last_header "committer" headers).
Proof.
  induction headers as [|h headers IH]; intros c0 Hall.
  { exists c0. by repeat split. }
  apply Forall_cons in Hall as [Hh Hall].
  rewrite <- app_comm_cons. simpl.
  rewrite (has_char_nonempty _ _ Hh).
  destruct (split_from_once SPACE h "" Hh) as (key & val & Hsplit).
  unfold split_n. rewrite Hsplit.
  unfold last_header, header, split_n. simpl. rewrite Hsplit.
  destruct (decide (key = "tree")) as [->|Htree].
  { rewrite !bool_decide_eq_true_2 by done.
    rewrite (bool_decide_eq_false_2 ("tree" = "author")) by done.
    rewrite (bool_decide_eq_false_2 ("tree" = "committer")) by done.
    destruct (IH (mkCommit (commit_id_hash c0) (Some val) (commit_author c0)
                           (commit_committer c0) (commit_log c0)) Hall)
      as (c & -> & Hid & Ht & Ha & Hc).
    exists c. split; [done|]. split; [done|].
    rewrite last_cons. unfold last_header, header, split_n in Ht.
    split; [|by split].
    rewrite Ht. simpl. by destruct (last _). }
  rewrite (bool_decide_eq_false_2 (key = "tree")) by done.
  destruct (decide (key = "author")) as [->|Hauthor].
  { rewrite !bool_decide_eq_true_2 by done.
    rewrite (bool_decide_eq_false_2 ("author" = "committer")) by done.
    destruct (IH (mkCommit (commit_id_hash c0) (commit_tree c0) (Some val)
                           (commit_committer c0) (commit_log c0)) Hall)
      as (c & -> & Hid & Ht & Ha & Hc).
    exists c. split; [done|]. split; [done|]. split; [done|].
    rewrite last_cons. unfold last_header, header, split_n in Ha.
    split; [|done].
    rewrite Ha. simpl. by destruct (last _). }
  rewrite (bool_decide_eq_false_2 (key = "author")) by done.
  destruct (decide (key = "committer")) as [->|Hcommitter].
  { rewrite !bool_decide_eq_true_2 by done.
    destruct (IH (mkCommit (commit_id_hash c0) (commit_tree c0) (commit_author c0)
                           (Some val) (commit_log c0)) Hall)
      as (c & -> & Hid & Ht & Ha & Hc).
    exists c. split; [done|]. split; [done|]. split; [done|]. split; [done|].
    rewrite last_cons. unfold last_header, header, split_n in Hc.
    rewrite Hc. simpl. by destruct (last _). }
  rewrite (bool_decide_eq_false_2 (key = "committer")) by done.
  destruct (IH c0 Hall) as (c & -> & Hid & Ht & Ha & Hc).
  exists c. by repeat split.
Qed.

(** X12: [Commit(id_hash)] reads the object that [git-cat-file]
    prints: for header lines (each with a space) followed by an empty
    line and the message, the log is the lines after the first empty
    line, joined by newlines, and the tree, the author and the
    committer are the values of the last header of that name, or
    stay unset when there is none. *)
Theorem commit_reads_headers_and_log id_hash w out headers body :
  git (history w) (cmd ["git-cat-file"; "commit"; id_hash]) = Done out →
  lines_of out = headers ++ "" :: body →
  Forall (λ h, has_char SPACE h = true) headers →
  Commit_init git id_hash w
  = (Ok (mkCommit id_hash (last_header "tree" headers) (last_header "author" headers)
                  (last_header "committer" headers) (join (String LF "") body)),
     logged (commit_read id_hash) w).
Proof.
  intros Hgit Hlines Hheaders.
  unfold Commit_init, GRun_output_lines. rewrite !bind_unfold.
  rewrite GRun_io_cat_file. unfold plain_run. rewrite Hgit, Hlines.
  destruct (read_headers_spec headers body (mkCommit id_hash None None None "") Hheaders)
    as (c & Hread & Hid & Ht & Ha & Hc).
  unfold ret.
  destruct (headers ++ "" :: body) as [|l ls] eqn:Hl; [by destruct headers|].
  rewrite Hread. simpl in *. rewrite Hid, Ht, Ha, Hc.
  unfold commit_read.
  by destruct (last_header "tree" headers), (last_header "author" headers),
              (last_header "committer" headers).
Qed.


Lemma diff_index_line_rstrip e :
  plain_entry e → rstrip (diff_index_line e) = diff_index_line e.
Proof.
  intros (_ & Hne & Hpath).
  unfold diff_index_line.
  rewrite <- (append_nil_l (de_path e)) at 1 2.
  rewrite <- (append_cons TAB "" (de_path e)).
  rewrite <- !append_assoc.
  rewrite rstrip_append by congruence. by rewrite Hpath.
Qed.

(** What is left of a line after the fourth space, taken apart at
    the first tab. *)
Lemma diff_index_line_fields e :
  plain_fields e →
  split_n TAB 1 (List.last (split_n SPACE 4 (diff_index_line e)) "")
  = [de_status e; de_path e].
Proof.
  intros (H1 & H2 & H3 & H4 & H5 & H6).
  unfold diff_index_line, split_n.
  rewrite !append_cons, !append_nil_l.
  rewrite <- (append_cons _ (de_mode1 e)).
  rewrite split_from_sep by done.
  rewrite !split_from_sep by done.
  rewrite split_from_exhausted. rewrite !append_nil_l. simpl.
  rewrite split_from_sep by done.
  rewrite split_from_exhausted. by rewrite !append_nil_l.
Qed.

Lemma diff_index_entry_line conflicts e :
  plain_entry e →
  diff_index_entry conflicts (diff_index_line e)
  = Ok (if bool_decide (de_path e ∉ conflicts)
        then [(de_status e, de_path e)] else []).
Proof.
  intros He. unfold diff_index_entry. rewrite (diff_index_line_rstrip _ He).
  destruct He as (He & _ & _). rewrite (diff_index_line_fields _ He).
  by case_bool_decide.
Qed.

Lemma diff_index_entries_lines conflicts entries w :
  Forall plain_entry entries →
  diff_index_entries conflicts (diff_index_line <$> entries) w
  = (Ok ((λ e, (de_status e, de_path e)) <$>
           filter (λ e, de_path e ∉ conflicts) entries), w).
Proof.
  induction 1 as [|e entries He _ IH]; [done|].
  rewrite fmap_cons. simpl. rewrite (diff_index_entry_line _ _ He).
  rewrite bind_unfold, IH. unfold ret.
  case_bool_decide as Hin.
  - by rewrite filter_cons_True by done.
  - by rewrite filter_cons_False by (intros Hn; by apply Hn).
Qed.

(** X13: on the lines git prints in its raw format, [tree_status]
    (without unknown files) reports the conflicts that pass the file
    filter, with status C, followed by the status and the path of
    every line whose path is not in the conflicts list, in the order
    of the lines. *)
Theorem tree_status_reports_diff_index
    files tree_id noexclude diff_flags w w1 out entries :
  refresh_index git w = (Ok tt, w1) →
  git (history w1) (diff_index_call files tree_id diff_flags) = Done out →
  lines_of out = diff_index_line <$> entries →
  Forall plain_entry entries →
  tree_status git basedir config_get files tree_id false noexclude false diff_flags w
  = (Ok (((λ filename, ("C", filename)) <$>
            filter (λ filename, list_truthy files = false ∨ filename ∈ default [] files)
                   (conflicts_of basedir w))
         ++ ((λ e, (de_status e, de_path e)) <$>
               filter (λ e, de_path e ∉ conflicts_of basedir w) entries)),
     logged (Ran (diff_index_call files tree_id diff_flags)) w1).
Proof.
  intros Hrefresh Hgit Hlines Hplain.
  unfold tree_status. rewrite andb_false_r.
  rewrite bind_unfold. unfold ret at 1.
  rewrite (bind_Ok _ _ _ _ _ Hrefresh).
  rewrite bind_unfold. unfold ret at 1.
  destruct (get_conflicts_of basedir w1) as (o & Hconf & Hnorm).
  rewrite (bind_Ok _ _ _ _ _ Hconf).
  assert (Hsame : conflicts_of basedir w1 = conflicts_of basedir w).
  { unfold conflicts_of. by rewrite (refresh_index_Ok git _ _ Hrefresh). }
  rewrite Hnorm, Hsame.
  unfold GRun_output_lines. rewrite !bind_unfold.
  fold (diff_index_call files tree_id diff_flags).
  rewrite GRun_io_plain by done. unfold plain_run. rewrite Hgit.
  unfold ret at 1. rewrite Hlines.
  rewrite bind_unfold, (diff_index_entries_lines _ _ _ Hplain). done.
Qed.


(** X14: on the lines git prints in its raw format, [barefiles]
    gives the paths alone, one on each line, in the order of the
    lines. *)
Theorem barefiles_lists_paths rev1 rev2 w out entries :
  git (history w) (cmd ["git-diff-tree"; "-r"; rev1; rev2]) = Done out →
  lines_of out = diff_index_line <$> entries →
  Forall plain_fields entries →
  barefiles git rev1 rev2 w
  = (Ok (join (String LF "") (de_path <$> entries)),
     logged (Ran (cmd ["git-diff-tree"; "-r"; rev1; rev2])) w).
Proof.
  intros Hgit Hlines Hplain.
  unfold barefiles, GRun_output_lines. rewrite !bind_unfold.
  rewrite GRun_io_plain by done. unfold plain_run. rewrite Hgit.
  unfold ret. rewrite Hlines. do 3 f_equal. clear Hlines.
  induction Hplain as [|e entries He _ IH]; [done|].
  rewrite !fmap_cons, IH. f_equal.
  unfold bare_path. by rewrite (diff_index_line_fields _ He).
Qed.

Lemma words_from_word (s : string) : ∀ cur rest,
  all_chars (λ c, negb (is_space c)) s = true →
  cur +:+ s ≠ "" →
  words_from cur (s +:+ String SPACE rest) = (cur +:+ s) :: words_from "" rest.
Proof.
  induction s as [|c s IH]; intros cur rest Hs Hne.
  - rewrite append_nil_l, append_nil_r in *. simpl.
    by rewrite (proj2 (nonempty_true cur)).
  - simpl in Hs. apply andb_true_iff in Hs as [Hc Hs].
    apply negb_true_iff in Hc.
    rewrite append_cons. simpl. rewrite Hc.
    rewrite IH; [by rewrite snoc_append|done|].
    rewrite snoc_append. done.
Qed.

Lemma words_from_last (s : string) : ∀ cur,
  all_chars (λ c, negb (is_space c)) s = true →
  cur +:+ s ≠ "" →
  words_from cur s = [cur +:+ s].
Proof.
  induction s as [|c s IH]; intros cur Hs Hne.
  - rewrite append_nil_r in *. simpl. by rewrite (proj2 (nonempty_true cur)).
  - simpl in Hs. apply andb_true_iff in Hs as [Hc Hs].
    apply negb_true_iff in Hc. simpl. rewrite Hc.
    rewrite IH; [by rewrite snoc_append|done|].
    rewrite snoc_append. done.
Qed.

(** Words joined by spaces are split into these words. *)
Lemma words_join (ws : list string) : Forall word ws → words (join " " ws) = ws.
Proof.
  unfold words. induction 1 as [|x ws [Hne Hx] Hws IH]; [done|].
  destruct ws as [|y ws].
  - simpl. by rewrite words_from_last.
  - change (join " " (x :: y :: ws)) with (x +:+ " " +:+ join " " (y :: ws)).
    rewrite append_cons, append_nil_l.
    rewrite words_from_word by done. by rewrite IH.
Qed.

(** X15: [get_parents()] gives the ids that follow the id of the
    commit on the line of [git-rev-list --parents], and
    [get_parent()] the first of them, or None for a commit without
    parents. *)
Theorem commit_parents_of_rev_list (c : Commit) w out (parents : list string) :
  git (history w) (rev_list_call (commit_id_hash c)) = Done out →
  lines_of out = [join " " (commit_id_hash c :: parents)] →
  Forall word (commit_id_hash c :: parents) →
  Commit_get_parents git c w
  = (Ok parents, logged (Ran (rev_list_call (commit_id_hash c))) w)
  ∧ Commit_get_parent git c w
    = (Ok (head parents), logged (Ran (rev_list_call (commit_id_hash c))) w).
Proof.
  intros Hgit Hlines Hwords.
  assert (Hparents : Commit_get_parents git c w
                     = (Ok parents, logged (Ran (rev_list_call (commit_id_hash c))) w)).
  { unfold Commit_get_parents. rewrite bind_unfold.
    fold (rev_list_call (commit_id_hash c)).
    rewrite GRun_output_one_line_plain by done.
    rewrite Hgit, Hlines. unfold ret. by rewrite (words_join _ Hwords). }
  split; [done|].
  unfold Commit_get_parent. rewrite bind_unfold, Hparents.
  by destruct parents.
Qed.

(** ** Branches *)

Lemma branch_ref_not_HEAD (branch : string) : "refs/heads/" +:+ branch ≠ "HEAD".
Proof. rewrite append_cons. discriminate. Qed.

Lemma resolve_branch w (branch : string) :
  resolve w ("refs/heads/" +:+ branch) = refs w !! ("refs/heads/" +:+ branch).
Proof.
  unfold resolve. by rewrite bool_decide_eq_false_2 by apply branch_ref_not_HEAD.
Qed.

Lemma ref_exists_cases ref w :
  ref_exists git ref w
  = (Ok (match (rev_parse git ref w).1 with Ok _ => true | Raise _ => false end),
     logged (Ran (rev_parse_call ref)) w).
Proof.
  unfold ref_exists. rewrite try_except_unfold, bind_unfold, rev_parse_cases.
  destruct (git _ _) as [out|text]; [|done].
  by destruct (lines_of _) as [|? [|? ?]].
Qed.

(** X16: [ref_exists(ref)] never raises: it runs one [git-rev-parse]
    and answers True when [rev_parse(ref)] returns an id and False
    when it raises; it answers True for every ref of the ref store
    that git can read, and False when [git-rev-parse] fails. *)
Theorem ref_exists_never_raises ref w :
  ref_exists git ref w
  = (Ok (match (rev_parse git ref w).1 with Ok _ => true | Raise _ => false end),
     logged (Ran (rev_parse_call ref)) w)
  ∧ (∀ sha1 out, resolve w ref = Some sha1 → has_char LF sha1 = false →
       git (history w) (rev_parse_call ref) = Done out →
       (ref_exists git ref w).1 = Ok true)
  ∧ (∀ text, git (history w) (rev_parse_call ref) = Failed text →
       (ref_exists git ref w).1 = Ok false).
Proof.
  split; [apply ref_exists_cases|]. split.
  - intros sha1 out Href Hline Hgit.
    rewrite ref_exists_cases, rev_parse_cases, Hgit, Href.
    by rewrite lines_of_one_line.
  - intros text Hgit. by rewrite ref_exists_cases, rev_parse_cases, Hgit.
Qed.

Lemma branch_exists_present branch w sha1 out :
  refs w !! ("refs/heads/" +:+ branch) = Some sha1 →
  has_char LF sha1 = false →
  git (history w) (rev_parse_call ("refs/heads/" +:+ branch)) = Done out →
  branch_exists git branch w
  = (Ok true, logged (Ran (rev_parse_call ("refs/heads/" +:+ branch))) w).
Proof.
  intros Href Hline Hgit. unfold branch_exists.
  rewrite ref_exists_cases, rev_parse_cases, Hgit, resolve_branch, Href.
  by rewrite lines_of_one_line.
Qed.

(** X17: [create_branch] does not touch a branch that is there: for a
    branch of the ref store it raises a [GitException] saying that
    the branch already exists, having run nothing but the
    [git-rev-parse] that looked for it. *)
Theorem create_branch_refuses_existing new_branch tree_id w sha1 out :
  refs w !! ("refs/heads/" +:+ new_branch) = Some sha1 →
  has_char LF sha1 = false →
  git (history w) (rev_parse_call ("refs/heads/" +:+ new_branch)) = Done out →
  create_branch git basedir new_branch tree_id w
  = (Raise (GitException ("Branch " +:+ dquote +:+ new_branch +:+ dquote
                          +:+ " already exists")),
     logged (Ran (rev_parse_call ("refs/heads/" +:+ new_branch))) w).
Proof.
  intros Href Hline Hgit. unfold create_branch.
  by rewrite (bind_Ok _ _ _ _ _ (branch_exists_present _ _ _ _ Href Hline Hgit)).
Qed.

Lemma remove_merge_head_Ok w :
  ∃ w', remove_merge_head basedir w = (Ok tt, w')
        ∧ fs w' !! merge_head_file basedir = None
        ∧ refs w' = refs w ∧ symbolic_head w' = symbolic_head w
        ∧ __head w' = __head w ∧ history w' = history w.
Proof.
  unfold remove_merge_head, merge_head_file, bind, get_world.
  case_bool_decide as Hin.
  - eexists. split; [done|]. simpl. by rewrite lookup_delete_eq.
  - exists w. split; [done|]. split; [|done].
    by apply eq_None_not_Some.
Qed.

(** X18: when [create_branch(new_branch)] returns (no tree given),
    HEAD points to the new branch, the new branch stands for the head
    the call started from and every other ref is as before, the HEAD
    cache holds that head, which has forty characters, and no
    [MERGE_HEAD] is left. *)
Theorem create_branch_points_at_head new_branch w w' :
  create_branch git basedir new_branch None w = (Ok tt, w') →
  ∃ head w0,
    get_head git (logged (Ran (rev_parse_call ("refs/heads/" +:+ new_branch))) w)
    = (Ok head, w0)
    ∧ String.length head = 40
    ∧ symbolic_head w' = Some ("refs/heads/" +:+ new_branch)
    ∧ refs w' = <["refs/heads/" +:+ new_branch := head]> (refs w)
    ∧ __head w' = Some head
    ∧ resolve w' "HEAD" = Some head
    ∧ fs w' !! merge_head_file basedir = None.
Proof.
  unfold create_branch, branch_exists. intros H.
  rewrite bind_unfold, ref_exists_cases in H.
  destruct (rev_parse git _ w).1; [done|].
  apply bind_inv_Ok in H as (head & w0 & Hhead & H).
  apply bind_inv_Ok in H as ([] & w1 & Hfile & H).
  apply bind_inv_Ok in H as ([] & w2 & Hset & H).
  rewrite bind_unfold in H. unfold ret at 1 in H. simpl in H.
  exists head, w0. split; [done|].
  apply get_head_Ok in Hhead as (_ & Hr0 & _).
  rewrite set_head_file_cases in Hfile.
  destruct (git (history w0) _) as [out|text]; [|done].
  injection Hfile as <-.
  apply __set_head_Ok in Hset as (Hlen & Hcache & Hsym & Hcase).
  simpl in *.
  destruct Hcase as [[? _]|[_ Hrefs]]; [done|].
  unfold update_ref in Hrefs. simpl in Hrefs. rewrite Hr0 in Hrefs. simpl in Hrefs.
  destruct (remove_merge_head_Ok w2) as (w3 & Hrm & Hgone & Hr3 & Hs3 & Hh3 & _).
  rewrite Hrm in H. injection H as <-.
  split; [done|]. split; [congruence|]. split; [congruence|]. split; [congruence|].
  split; [|done].
  unfold resolve. simpl. rewrite Hs3, Hsym, Hr3, Hrefs. apply lookup_insert_eq.
Qed.

Lemma switch_branch_missing new_branch w text :
  git (history w) (rev_parse_call ("refs/heads/" +:+ new_branch)) = Failed text →
  switch_branch git basedir new_branch w
  = (Raise (GitException ("Branch " +:+ dquote +:+ new_branch +:+ dquote
                          +:+ " does not exist")),
     logged (Ran (rev_parse_call ("refs/heads/" +:+ new_branch))) w).
Proof.
  intros Hgit. unfold switch_branch, branch_exists.
  by rewrite bind_unfold, ref_exists_cases, rev_parse_cases, Hgit.
Qed.

(** *** What a ref stands for *)

Lemma same_refs_ret {A} (a : A) : same_refs_in (ret a).
Proof. done. Qed.

Lemma same_refs_raise {A} e : same_refs_in (raise (A := A) e).
Proof. done. Qed.

Lemma same_refs_get_world : same_refs_in get_world.
Proof. done. Qed.

Lemma same_refs_bind {A B} (m : M A) (k : A → M B) :
  same_refs_in m → (∀ a, same_refs_in (k a)) → same_refs_in (bind m k).
Proof.
  intros Hm Hk w. specialize (Hm w). unfold bind.
  destruct (m w) as [[a|e] w1]; [|done].
  by rewrite Hk.
Qed.

Lemma same_refs_try_except {A} (m : M A) caught handler :
  same_refs_in m → (∀ e, same_refs_in (handler e)) →
  same_refs_in (try_except m caught handler).
Proof.
  intros Hm Hh w. specialize (Hm w). unfold try_except.
  destruct (m w) as [[a|e] w1]; [done|].
  destruct (caught e); [|done]. by rewrite Hh.
Qed.

Lemma same_refs_set___head v : same_refs_in (set___head v).
Proof. done. Qed.
Lemma same_refs_set_fs f : same_refs_in (set_fs f).
Proof. done. Qed.
Lemma same_refs_out_print m : same_refs_in (out_print m).
Proof. done. Qed.

Lemma same_refs_GRun_io c :
  head (argv c) ≠ Some "git-update-ref" → same_refs_in (GRun_io git c).
Proof.
  intros Hc w. unfold GRun_io, bind, get_world, log_event.
  destruct (git _ _) as [out|text]; [|done].
  unfold store_effect, bind, get_world. simpl.
  destruct (argv c) as [|prog [|a [|b [|? ?]]]]; try done.
  rewrite bool_decide_eq_false_2 by (intros ->; by apply Hc).
  repeat case_bool_decide; try done.
  by destruct (resolve _ b).
Qed.

Lemma same_refs_GRun_run c :
  head (argv c) ≠ Some "git-update-ref" → same_refs_in (GRun_run git c).
Proof.
  intros Hc. unfold GRun_run.
  apply same_refs_bind; [by apply same_refs_GRun_io|intros; apply same_refs_ret].
Qed.

Lemma same_refs_GRun_output_one_line c :
  head (argv c) ≠ Some "git-update-ref" → same_refs_in (GRun_output_one_line git c).
Proof.
  intros Hc. unfold GRun_output_one_line.
  apply same_refs_bind; [by apply same_refs_GRun_io|]. intros out.
  by destruct (lines_of out) as [|? [|? ?]].
Qed.

Create HintDb ref_frame.
#[local] Hint Resolve same_refs_ret same_refs_raise same_refs_get_world
  same_refs_set___head same_refs_set_fs same_refs_out_print : ref_frame.

(** Walks through the body of a function that runs no [git-update-ref]. *)
Ltac same_refs_step :=
  lazymatch goal with
  | |- same_refs_in (bind _ _) => apply same_refs_bind; [|intros ?]
  | |- same_refs_in (try_except _ _ _) => apply same_refs_try_except; [|intros ?]
  | |- same_refs_in (GRun_run _ _) => apply same_refs_GRun_run; simpl; congruence
  | |- same_refs_in (GRun_io _ _) => apply same_refs_GRun_io; simpl; congruence
  | |- same_refs_in (GRun_output_one_line _ _) =>
      apply same_refs_GRun_output_one_line; simpl; congruence
  | |- same_refs_in (if ?b then _ else _) => destruct b
  | |- same_refs_in (match ?x with _ => _ end) => destruct x
  | |- _ => solve [auto with ref_frame]
  end.
Ltac same_refs_all := repeat same_refs_step.

Lemma same_refs_switch_branch new_branch :
  same_refs_in (switch_branch git basedir new_branch).
Proof.
  unfold switch_branch, branch_exists, ref_exists, rev_parse, get_head, rev_parse,
    refresh_index, set_head_file, __clear_head_cache, remove_merge_head.
  same_refs_all.
Qed.

(** X19: [switch_branch] changes what HEAD points to and nothing
    that a ref stands for: whether it returns or raises, every ref
    has the value it had and no [git-update-ref] was run.  When it
    returns, HEAD points to the branch, the HEAD cache is empty (the
    next [get_head()] reads the branch), and no [MERGE_HEAD] is left.
    For a branch that [git-rev-parse] does not find it raises a
    [GitException] saying that the branch does not exist, having run
    nothing else. *)
Theorem switch_branch_moves_only_HEAD new_branch w :
  refs (switch_branch git basedir new_branch w).2 = refs w
  ∧ runs_only ["git-rev-parse"; "git-update-index"; "git-read-tree"; "git-symbolic-ref"]
      w (switch_branch git basedir new_branch w).2
  ∧ (∀ w', switch_branch git basedir new_branch w = (Ok tt, w') →
       symbolic_head w' = Some ("refs/heads/" +:+ new_branch)
       ∧ __head w' = None
       ∧ fs w' !! merge_head_file basedir = None)
  ∧ (∀ text,
       git (history w) (rev_parse_call ("refs/heads/" +:+ new_branch)) = Failed text →
       switch_branch git basedir new_branch w
       = (Raise (GitException ("Branch " +:+ dquote +:+ new_branch +:+ dquote
                               +:+ " does not exist")),
          logged (Ran (rev_parse_call ("refs/heads/" +:+ new_branch))) w)).
Proof.
  split; [apply same_refs_switch_branch|]. split.
  { revert w.
    change (runs_only_in
              ["git-rev-parse"; "git-update-index"; "git-read-tree"; "git-symbolic-ref"]
              (switch_branch git basedir new_branch)).
    unfold switch_branch, branch_exists, ref_exists, rev_parse, get_head, rev_parse,
      refresh_index, set_head_file, __clear_head_cache, remove_merge_head.
    runs_only_all. }
  split; [|apply switch_branch_missing].
  intros w' H. unfold switch_branch in H.
  apply bind_inv_Ok in H as (present & w1 & _ & H).
  destruct (negb present); [done|].
  apply bind_inv_Ok in H as (tree_id & w2 & _ & H).
  apply bind_inv_Ok in H as (head & w3 & _ & H).
  apply bind_inv_Ok in H as ([] & w4 & _ & H).
  apply bind_inv_Ok in H as ([] & w5 & Hfile & H).
  rewrite set_head_file_cases in Hfile.
  destruct (git (history w4) _) as [out|text]; [|done].
  injection Hfile as <-.
  destruct (remove_merge_head_Ok
              (mkWorld (refs w4) (Some ("refs/heads/" +:+ new_branch)) None
                 (__commits w4) (heap w4) (fs w4) (stdin w4)
                 (history w4 ++ [Ran (cmd ["git-symbolic-ref"; "HEAD";
                                           "refs/heads/" +:+ new_branch])])
                 (printed w4)))
    as (w6 & Hrm & Hgone & _ & Hs6 & Hh6 & _).
  rewrite Hrm in H. injection H as <-. done.
Qed.


(** ** The working tree *)

Lemma rm_check_Raise (before after : list string) (f : string) w :
  Forall (λ g, fs w !! g = None) before →
  is_Some (fs w !! f) →
  for_each (before ++ f :: after)
    (λ f, w <- get_world ;;
          if bool_decide (is_Some (fs w !! f))
          then raise (GitException (f +:+ " exists. Remove it first"))
          else ret tt) w
  = (Raise (GitException (f +:+ " exists. Remove it first")), w).
Proof.
  intros Hbefore Hf. induction Hbefore as [|g before Hg _ IH]; simpl.
  - rewrite bind_unfold. unfold bind at 1, get_world.
    by rewrite bool_decide_eq_true_2.
  - rewrite bind_unfold. unfold bind at 1, get_world.
    rewrite bool_decide_eq_false_2 by (rewrite Hg; by intros [? ?]).
    unfold ret at 1. exact IH.
Qed.

(** X20: [rm(files)] without [force] refuses as long as one of the
    files is still there: it raises a [GitException] that names the
    first such file and runs nothing, so that the index is left as it
    was. *)
Theorem rm_refuses_existing_file (before after : list string) (f : string) w :
  Forall (λ g, fs w !! g = None) before →
  is_Some (fs w !! f) →
  rm git (before ++ f :: after) false w
  = (Raise (GitException (f +:+ " exists. Remove it first")), w).
Proof.
  intros Hbefore Hf.
  unfold rm. simpl. by rewrite bind_unfold, rm_check_Raise.
Qed.

(** X21: a tree with recorded conflicts has local changes: when the
    conflicts list names a path, [local_changes()] answers True
    whenever it returns. *)
Theorem local_changes_with_conflicts verbose w b w' :
  local_changes git basedir config_get verbose w = (Ok b, w') →
  conflicts_of basedir w ≠ [] →
  b = true.
Proof.
  unfold local_changes. intros H Hconf.
  apply bind_inv_Ok in H as (entries & w1 & Hstatus & H).
  injection H as <- <-.
  destruct (tree_status_entries _ _ _ _ _ _ _ _ _ _ _ _ Hstatus)
    as (unknown_files & rest & -> & _ & Hnone & _).
  rewrite (Hnone eq_refl). simpl.
  apply bool_decide_eq_true_2.
  rewrite length_app, length_fmap.
  destruct (conflicts_of basedir w) as [|p l]; [done|].
  rewrite filter_cons_True by (by left). simpl. lia.
Qed.

(** ** Remotes *)

Lemma all_not_char c (s : string) :
  all_chars (λ x, negb (bool_decide (x = c))) s = negb (has_char c s).
Proof.
  induction s as [|x s IH]; [done|]. simpl. rewrite IH.
  by rewrite negb_orb.
Qed.

Lemma count_char_append c (a b : string) :
  count_char c (a +:+ b) = count_char c a + count_char c b.
Proof.
  induction a as [|x a IH]; [done|]. rewrite append_cons. simpl. rewrite IH.
  by destruct (bool_decide (x = c)).
Qed.

Lemma count_char_none c (s : string) : has_char c s = false ↔ count_char c s = 0.
Proof.
  induction s as [|x s IH]; [done|]. simpl.
  destruct (bool_decide (x = c)); simpl; [split; [done|lia]|done].
Qed.

(** X22: a refspec made of a remote part and a local part without
    colons, with a colon in between, is taken apart into these two
    parts. *)
Theorem refspec_parts_of_pair (remote localpart : string) :
  has_char COLON remote = false →
  has_char COLON localpart = false →
  refspec_remotepart (remote +:+ ":" +:+ localpart) = Ok remote
  ∧ refspec_localpart (remote +:+ ":" +:+ localpart) = Ok localpart.
Proof.
  clear git gitmergeonefile_merge basedir config_get.
  intros Hr Hl.
  assert (Hm : refspec_match (remote +:+ ":" +:+ localpart) = Some (remote, localpart)).
  { unfold refspec_match. rewrite append_cons, append_nil_l.
    rewrite span_all; [|by unfold not_colon; rewrite all_not_char, Hr|done].
    rewrite span_all_end by (by unfold not_colon; rewrite all_not_char, Hl).
    done. }
  unfold refspec_remotepart, refspec_localpart. by rewrite Hm.
Qed.

Lemma refspec_match_Some refspec remote localpart :
  refspec_match refspec = Some (remote, localpart) →
  refspec = remote +:+ ":" +:+ localpart
  ∧ has_char COLON remote = false ∧ has_char COLON localpart = false.
Proof.
  unfold refspec_match.
  pose proof (span_spec not_colon refspec) as (Heq & Hall & Hnext).
  destruct (span not_colon refspec) as [r rest]. simpl in *.
  destruct rest as [|c rest']; [done|].
  pose proof (span_spec not_colon rest') as (Heq' & Hall' & _).
  destruct (span not_colon rest') as [l rest'']. simpl in *.
  destruct rest'' as [|? ?]; [|done]. intros [= <- <-].
  unfold not_colon in *. rewrite all_not_char in Hall, Hall'.
  apply negb_true_iff in Hall, Hall'.
  apply negb_false_iff, bool_decide_eq_true_1 in Hnext. subst c.
  rewrite append_nil_r in Heq'. subst rest'.
  by rewrite append_cons, append_nil_l.
Qed.

Lemma refspec_match_None refspec :
  refspec_match refspec = None → count_char COLON refspec ≠ 1.
Proof.
  unfold refspec_match.
  pose proof (span_spec not_colon refspec) as (Heq & Hall & Hnext).
  destruct (span not_colon refspec) as [r rest]. simpl in *.
  unfold not_colon in *. rewrite all_not_char in Hall.
  apply negb_true_iff, count_char_none in Hall.
  rewrite Heq, count_char_append, Hall.
  destruct rest as [|c rest']; [done|].
  apply negb_false_iff, bool_decide_eq_true_1 in Hnext. subst c.
  pose proof (span_spec (λ c, negb (bool_decide (c = COLON))) rest')
    as (Heq' & Hall' & Hnext').
  destruct (span _ rest') as [l rest'']. simpl in *.
  destruct rest'' as [|c rest3]; [done|]. intros _.
  apply negb_false_iff, bool_decide_eq_true_1 in Hnext'. subst c.
  rewrite Heq', count_char_append. simpl. lia.
Qed.

(** X23: [refspec_remotepart] and [refspec_localpart] return on the
    same refspecs, those with exactly one colon, and what they return
    are the two sides of that colon: put together again with a colon
    they give the refspec.  On any other refspec both raise. *)
Theorem refspec_parts_reassemble refspec :
  match refspec_remotepart refspec, refspec_localpart refspec with
  | Ok remote, Ok localpart =>
      refspec = remote +:+ ":" +:+ localpart
      ∧ has_char COLON remote = false ∧ has_char COLON localpart = false
      ∧ count_char COLON refspec = 1
  | Raise _, Raise _ => count_char COLON refspec ≠ 1
  | _, _ => False
  end.
Proof.
  clear git gitmergeonefile_merge basedir config_get.
  unfold refspec_remotepart, refspec_localpart.
  destruct (refspec_match refspec) as [[remote localpart]|] eqn:Hm.
  - apply refspec_match_Some in Hm as (-> & Hr & Hl). simpl.
    split; [done|]. split; [done|]. split; [done|].
    rewrite !count_char_append. simpl.
    apply count_char_none in Hr, Hl. rewrite Hr, Hl. done.
  - by apply refspec_match_None.
Qed.

Lemma for_merge_marked (id rest : string) :
  has_char TAB id = false →
  for_merge (id +:+ String TAB (String TAB rest)) = Some id.
Proof.
  intros Hid. unfold for_merge.
  rewrite span_all; [|by unfold not_tab; rewrite all_not_char, Hid|done].
  by rewrite !bool_decide_eq_true_2.
Qed.

Lemma fetch_head_lines_none lines fetch_head :
  Forall (λ l, for_merge l = None) lines →
  fetch_head_lines lines fetch_head = Ok fetch_head.
Proof. induction 1 as [|l lines Hl _ IH]; [done|]. simpl. by rewrite Hl. Qed.

Lemma fetch_head_cases w :
  fetch_head basedir w
  = match fs w !! path_join basedir "FETCH_HEAD" with
    | None => (Raise IOError, w)
    | Some content =>
        match fetch_head_lines (readlines content) None with
        | Raise e => (Raise e, w)
        | Ok found =>
            (Ok found,
             if truthy found then w
             else mkWorld (refs w) (symbolic_head w) (__head w) (__commits w) (heap w)
                          (fs w) (stdin w) (history w)
                          (printed w
                           ++ [OutWarn "No for-merge remote head found in FETCH_HEAD"]))
        end
    end.
Proof.
  unfold fetch_head, bind, get_world.
  destruct (fs w !! _) as [content|]; [|done].
  destruct (fetch_head_lines _ _) as [found|e]; [|done].
  by destruct (truthy found).
Qed.

(** X24: when exactly one line of FETCH_HEAD is marked for merge (an
    id without tab followed by two tabs), [fetch_head()] returns that
    id, prints nothing and changes nothing; and when no line is, it
    returns None after the warning that no for-merge head was found. *)
Theorem fetch_head_single_for_merge w content before id rest after :
  fs w !! path_join basedir "FETCH_HEAD" = Some content →
  readlines content = before ++ (id +:+ String TAB (String TAB rest)) :: after →
  has_char TAB id = false →
  id ≠ "" →
  Forall (λ l, for_merge l = None) before →
  Forall (λ l, for_merge l = None) after →
  fetch_head basedir w = (Ok (Some id), w)
  ∧ ∀ w0 content0,
      fs w0 !! path_join basedir "FETCH_HEAD" = Some content0 →
      Forall (λ l, for_merge l = None) (readlines content0) →
      (fetch_head basedir w0).1 = Ok None
      ∧ printed (fetch_head basedir w0).2
        = printed w0 ++ [OutWarn "No for-merge remote head found in FETCH_HEAD"].
Proof.
  clear git gitmergeonefile_merge config_get.
  intros Hfile Hlines Hid Hne Hbefore Hafter. split.
  - rewrite fetch_head_cases, Hfile, Hlines.
    assert (H : ∀ l1 found, Forall (λ l, for_merge l = None) l1 → truthy found = false →
              fetch_head_lines (l1 ++ (id +:+ String TAB (String TAB rest)) :: after) found
              = Ok (Some id)).
    { intros l1 found Hl1 Hfound. induction Hl1 as [|l l1 Hl _ IH]; simpl.
      - rewrite (for_merge_marked _ _ Hid), Hfound. by apply fetch_head_lines_none.
      - by rewrite Hl. }
    rewrite H by done. simpl. by destruct id.
  - intros w0 content0 Hfile0 Hnone.
    rewrite fetch_head_cases, Hfile0, (fetch_head_lines_none _ _ Hnone). done.
Qed.

Lemma fetch_head_lines_second lines found :
  truthy found = true →
  Exists (λ l, is_Some (for_merge l)) lines →
  fetch_head_lines lines found
  = Raise (GitException "StGit does not support multiple FETCH_HEAD").
Proof.
  intros Hfound. induction 1 as [l lines [id Hl]|l lines _ IH]; simpl.
  - by rewrite Hl, Hfound.
  - destruct (for_merge l); [by rewrite Hfound|done].
Qed.

(** X25: [fetch_head()] raises a [GitException] whenever the file
    holds a line marked for merge after one marked for merge with a
    non-empty id, wherever the two stand and whatever is around them:
    several heads for merge are not supported. *)
Theorem fetch_head_multiple_raises
    w content before (id : string) first between second after :
  fs w !! path_join basedir "FETCH_HEAD" = Some content →
  readlines content = before ++ [first] ++ between ++ [second] ++ after →
  for_merge first = Some id →
  id ≠ "" →
  is_Some (for_merge second) →
  fetch_head basedir w
  = (Raise (GitException "StGit does not support multiple FETCH_HEAD"), w).
Proof.
  clear git gitmergeonefile_merge config_get.
  intros Hfile Hlines Hfirst Hne Hsecond.
  rewrite fetch_head_cases, Hfile, Hlines.
  assert (H : ∀ found,
            fetch_head_lines (before ++ [first] ++ between ++ [second] ++ after) found
            = Raise (GitException "StGit does not support multiple FETCH_HEAD")).
  { clear Hlines. induction before as [|l before IH]; intros found; simpl.
    - rewrite Hfirst. destruct (truthy found); [done|].
      apply fetch_head_lines_second; [by destruct id|].
      apply Exists_app. right. by constructor.
    - destruct (for_merge l) as [id0|]; [|apply IH].
      destruct (truthy found); [done|apply IH]. }
  by rewrite H.
Qed.


(** ** Patches *)


(** X27: when [git-apply] rejects the diff (no base given),
    [apply_patch] lets its exception through; with [fail_dump] it
    first writes the diff to the file [.stgit-failed.patch] and warns
    about it, and without [fail_dump] it leaves the files and the
    output alone.  In both cases HEAD is not touched. *)
Theorem apply_patch_dumps_failed_diff filename d fail_dump w w1 text :
  let result := apply_patch git gitmergeonefile_merge basedir config_get
                  filename (Some d) None fail_dump w in
  refresh_index git w = (Ok tt, w1) →
  git (history w1) (apply_patch_call d) = Failed text →
  result.1 = Raise (GitRunException (apply_patch_call d) text)
  ∧ (if fail_dump
     then fs result.2 = <[".stgit-failed.patch" := d]> (fs w)
          ∧ printed result.2
            = printed w ++ [OutWarn "Diff written to the .stgit-failed.patch file"]
     else fs result.2 = fs w ∧ printed result.2 = printed w)
  ∧ refs result.2 = refs w
  ∧ symbolic_head result.2 = symbolic_head w
  ∧ __head result.2 = __head w.
Proof.
  intros result Hrefresh Hgit. subst result.
  apply refresh_index_logged in Hrefresh as Hw1.
  assert (Heq : apply_patch git gitmergeonefile_merge basedir config_get
                  filename (Some d) None fail_dump w
    = (Raise (GitRunException (apply_patch_call d) text),
       let w2 := logged (Ran (apply_patch_call d)) w1 in
       if fail_dump
       then mkWorld (refs w2) (symbolic_head w2) (__head w2) (__commits w2) (heap w2)
                    (<[".stgit-failed.patch" := d]> (fs w2)) (stdin w2) (history w2)
                    (printed w2 ++ [OutWarn "Diff written to the .stgit-failed.patch file"])
       else w2)).
  { unfold apply_patch. rewrite bind_unfold. unfold ret at 1. simpl.
    rewrite bind_unfold, (bind_Ok _ _ _ _ _ Hrefresh).
    unfold ret at 1. rewrite bind_unfold, try_except_unfold.
    rewrite GRun_run_plain by done. rewrite Hgit. simpl.
    rewrite bind_unfold. unfold ret at 1.
    by destruct fail_dump. }
  rewrite Heq, Hw1. by destruct fail_dump.
Qed.

(** ** Persons *)

Lemma unsnoc_snoc (a : string) l : unsnoc (a +:+ String l "") = Some (a, l).
Proof.
  induction a as [|c a IH]; [done|]. rewrite append_cons. simpl. by rewrite IH.
Qed.

Lemma unsnoc_nonempty (s : string) :
  s ≠ "" → ∃ a l, s = a +:+ String l "" ∧ unsnoc s = Some (a, l).
Proof.
  induction s as [|c s IH]; [done|]. intros _.
  destruct s as [|c' s'].
  - by exists "", c.
  - destruct IH as (a & l & Heq & Hun); [done|].
    exists (String c a), l. rewrite append_cons, <- Heq. split; [done|].
    simpl in *. by rewrite Hun.
Qed.

Lemma rsplit_char_none c (s : string) : has_char c s = false → rsplit_char c s = None.
Proof.
  induction s as [|x s IH]; [done|]. simpl. intros H.
  apply orb_false_iff in H as [Hx Hs]. by rewrite IH, Hx.
Qed.

Lemma rsplit_char_last c (a b : string) :
  has_char c b = false → rsplit_char c (a +:+ String c b) = Some (a, b).
Proof.
  intros Hb. induction a as [|x a IH].
  - rewrite append_nil_l. simpl. rewrite (rsplit_char_none _ _ Hb).
    by rewrite bool_decide_eq_true_2.
  - rewrite append_cons. simpl. by rewrite IH.
Qed.

Lemma chomp_no_newline (s : string) :
  has_char LF s = false →
  match unsnoc s with
  | Some (a, l) => if bool_decide (l = LF) then a else s
  | None => s
  end = s.
Proof.
  intros Hs. destruct (decide (s = "")) as [->|Hne]; [done|].
  destruct (unsnoc_nonempty s Hne) as (a & l & Heq & ->).
  rewrite bool_decide_eq_false_2; [done|]. intros ->.
  rewrite Heq, has_char_append in Hs.
  apply orb_false_iff in Hs as [_ Hs]. by vm_compute in Hs.
Qed.

Lemma rstrip_space (s : string) : rstrip (s +:+ " ") = rstrip s.
Proof.
  induction s as [|c s IH]; [done|]. rewrite append_cons. simpl. by rewrite IH.
Qed.

Lemma strip_or_None_stripped (s : string) :
  s ≠ "" → strip s = s → strip_or_None s = Some s.
Proof.
  intros Hne Hs. unfold strip_or_None. rewrite Hs.
  by rewrite (proj2 (nonempty_true s)).
Qed.

(** X28: a [Person] is read back from what [str] makes of it: for a
    name and an email without surrounding white space (and no
    less-than sign in the email), [str(person)] is the name, a space
    and the email in angle brackets, and [Person(desc=...)] on that
    text, followed by anything without a greater-than sign, has the
    same name and email; its date is what follows, stripped, or None
    if nothing does. *)
Theorem person_desc_round_trip (name email rest : string) date :
  name ≠ "" → strip name = name →
  email ≠ "" → strip email = email →
  has_char LESS email = false →
  has_char LF name = false → has_char LF email = false →
  has_char LF rest = false → has_char GREATER rest = false →
  Person_str (mkPerson (Some name) (Some email) date)
  = Ok (name +:+ " <" +:+ email +:+ ">")
  ∧ Person_init None None (Some "") (Some (name +:+ " <" +:+ email +:+ ">" +:+ rest))
    = Ok (mkPerson (Some name) (Some email) (strip_or_None rest)).
Proof.
  clear git gitmergeonefile_merge basedir config_get.
  intros Hname Hsname Hemail Hsemail Hless Hn1 Hn2 Hn3 Hgreater.
  split.
  { unfold Person_str. simpl.
    by rewrite (proj2 (nonempty_true name)), (proj2 (nonempty_true email)). }
  destruct (unsnoc_nonempty email Hemail) as (e & l & Heq & _).
  assert (Hless' : has_char LESS e = false).
  { rewrite Heq, has_char_append in Hless. by apply orb_false_iff in Hless as [? _]. }
  set (desc := name +:+ " <" +:+ email +:+ ">" +:+ rest).
  assert (Hdesc : desc = (((name +:+ " ") +:+ String LESS e) +:+ String l "")
                         +:+ String GREATER rest).
  { unfold desc. rewrite Heq.
    rewrite !append_assoc, !append_cons, !append_nil_l. done. }
  assert (Hline : has_char LF desc = false).
  { unfold desc. rewrite !has_char_append, Hn1, Hn2, Hn3. done. }
  assert (Hparse : parse_desc desc
                   = Some (Some name, Some email, strip_or_None rest)).
  { unfold parse_desc. rewrite (chomp_no_newline _ Hline), Hline, Hdesc.
    rewrite (rsplit_char_last _ _ _ Hgreater), unsnoc_snoc.
    rewrite (rsplit_char_last _ _ _ Hless').
    rewrite nonempty_append by done.
    unfold snoc. rewrite <- Heq.
    rewrite (strip_or_None_stripped email) by done.
    unfold strip_or_None at 1. unfold strip. rewrite rstrip_space.
    fold (strip name). rewrite Hsname.
    by rewrite (proj2 (nonempty_true name)). }
  unfold Person_init. simpl.
  fold desc. rewrite Hparse.
  destruct desc eqn:Hd; [|done].
  unfold desc in Hd. by destruct name.
Qed.

End RepoProperties.

(** * More properties of the hide command *)
Section HideTargets.
Import Hide.

Implicit Types (trans : StackState) (patches : list string) (p : string).

(** X29: hiding is idempotent on the target: once the target of a
    request is reached, the same request leaves it as it is. *)
Theorem hide_target_idempotent trans patches :
  hide_target (hide_target trans patches) patches = hide_target trans patches.
Proof.
  apply hide_target_all_hidden. intros p Hp.
  rewrite hide_target_hidden, elem_of_app, hide_patches_elem.
  destruct (decide (p ∈ hidden trans)); tauto.
Qed.

(** X30: the request is not cleared of repetitions: a name that is
    not hidden yet is put in the target's hidden list as many times as
    it is requested, and taken out of the two other lists. *)
Theorem hide_keeps_requested_repetitions trans patches p :
  p ∉ hidden trans →
  occurrences p (hidden (hide_target trans patches)) = occurrences p patches
  ∧ (p ∈ patches →
     (p ∉ applied (hide_target trans patches))
     ∧ (p ∉ unapplied (hide_target trans patches))).
Proof.
  intros Hp. split.
  - rewrite hide_target_hidden, occurrences_app, hide_patches_filter.
    rewrite (occurrences_filter_keep _ _ _ Hp).
    by rewrite (occurrences_absent _ _ Hp).
  - intros Hreq.
    rewrite hide_target_applied, hide_target_unapplied, !list_elem_of_filter.
    assert (p ∈ hide_patches trans patches) by (by apply hide_patches_elem).
    tauto.
Qed.

End HideTargets.

(** * More properties on concrete runs *)
Section MoreRuns.
Import Git Observe Scenario Repo Trace Cases.
Local Open Scope git_scope.

(** X1 on a repository at commit a. *)
Lemma get_head_memoizes_witness :
  get_head git_quiet repository = (Ok (sha "a"), headed)
  ∧ get_head git_quiet headed = (Ok (sha "a"), headed)
  ∧ __head headed = Some (sha "a").
Proof.
  assert (H : get_head git_quiet repository = (Ok (sha "a"), headed))
    by (vm_compute; reflexivity).
  split; [done|].
  destruct (get_head_memoizes git_quiet repository (sha "a") headed H) as (H1 & H2 & _);
    [discriminate|].
  by split.
Defined.

(** X2 when HEAD is pointed to the branch topic, at commit b. *)
Lemma set_head_file_then_get_head_witness :
  set_head_file git_quiet "topic" two_branches
    = (Ok tt, (set_head_file git_quiet "topic" two_branches).2)
  ∧ symbolic_head (set_head_file git_quiet "topic" two_branches).2
    = Some "refs/heads/topic"
  ∧ (get_head git_quiet (set_head_file git_quiet "topic" two_branches).2).1
    = Ok (sha "b").
Proof.
  assert (H : set_head_file git_quiet "topic" two_branches
              = (Ok tt, (set_head_file git_quiet "topic" two_branches).2))
    by (vm_compute; reflexivity).
  split; [done|].
  destruct (set_head_file_then_get_head git_quiet "topic" two_branches _ (sha "b") "" H)
    as (_ & Hsym & _ & Hget); [by_evaluation|reflexivity|reflexivity|].
  split; [done|]. by rewrite Hget.
Defined.

(** X3 when HEAD is set to a branch name instead of an id. *)
Lemma set_head_asserts_after_writing_witness :
  (__set_head git_quiet "topic" repository).1 = Raise AssertionError
  ∧ resolve (__set_head git_quiet "topic" repository).2 "HEAD" = Some "topic".
Proof.
  destruct (set_head_asserts_after_writing git_quiet "topic" repository "")
    as [Heq Hres]; [by_evaluation|discriminate|reflexivity|].
  split; [by rewrite Heq|done].
Defined.

(** X4 when [git-read-tree] rejects the switch to commit c. *)
Lemma switch_failure_keeps_head_witness :
  (switch (git_failing ["git-read-tree"]) (sha "c") false repository).1
    = Raise (GitException "git-read-tree failed (local changes maybe?)")
  ∧ refs (switch (git_failing ["git-read-tree"]) (sha "c") false repository).2
    = refs repository
  ∧ __head (switch (git_failing ["git-read-tree"]) (sha "c") false repository).2
    = Some (sha "a").
Proof.
  assert (H1 : refresh_index (git_failing ["git-read-tree"]) repository
               = (Ok tt, logged (Ran refresh_index_call) repository))
    by (vm_compute; reflexivity).
  assert (H2 : get_head (git_failing ["git-read-tree"])
                 (logged (Ran refresh_index_call) repository)
               = (Ok (sha "a"),
                  (get_head (git_failing ["git-read-tree"])
                     (logged (Ran refresh_index_call) repository)).2))
    by (vm_compute; reflexivity).
  destruct (switch_failure_keeps_head (git_failing ["git-read-tree"]) (sha "c")
              repository _ (sha "a") _ "git-read-tree failed with code 1" H1 H2)
    as (Heq & Hrefs & _ & Hhead); [vm_compute; reflexivity|].
  split; [by rewrite Heq|by split].
Defined.

(** X6 on a tree with a conflict recorded for f. *)
Lemma update_cache_refuses_conflicts_witness :
  (tree_status git_quiet ".git" no_config None "HEAD" false true false []
     (with_conflicts ["f"])).1 = Ok [("C", "f")]
  ∧ "f" ∈ conflicts_of ".git" (with_conflicts ["f"])
  ∧ (update_cache git_quiet ".git" no_config None false (with_conflicts ["f"])).1
    = Raise (GitException "Updating cache failed: unresolved conflicts").
Proof.
  assert (H : tree_status git_quiet ".git" no_config None "HEAD" false true false []
                (with_conflicts ["f"])
              = (Ok [("C", "f")],
                 (tree_status git_quiet ".git" no_config None "HEAD" false true false []
                    (with_conflicts ["f"])).2))
    by (vm_compute; reflexivity).
  assert (Hf : "f" ∈ conflicts_of ".git" (with_conflicts ["f"])) by by_evaluation.
  split; [by rewrite H|]. split; [done|].
  destruct (update_cache_refuses_conflicts git_quiet ".git" no_config None
              (with_conflicts ["f"]) _ _ "f" H Hf) as [Heq _]; [by left|].
  by rewrite Heq.
Defined.

(** X7 on a first commit with the message fix. *)
Lemma commit_feeds_message_witness :
  (commit git_committing ".git" no_config "fix" commit_defaults repository).1
    = Ok (sha "n")
  ∧ ∃ tree_id,
      Ran (commit_tree_call tree_id [] (snoc "fix" LF) [])
      ∈ since repository
          (commit git_committing ".git" no_config "fix" commit_defaults repository).2.
Proof.
  assert (H : commit git_committing ".git" no_config "fix" commit_defaults repository
              = (Ok (sha "n"),
                 (commit git_committing ".git" no_config "fix" commit_defaults
                    repository).2))
    by (vm_compute; reflexivity).
  split; [by rewrite H|].
  destruct (commit_feeds_message_with_newline git_committing ".git" no_config "fix"
              commit_defaults repository _ _ H) as (tree_id & Hin & _).
  by exists tree_id.
Defined.

(** X8 on the same commit. *)
Lemma commit_without_parents_witness :
  list_truthy (co_parents commit_defaults) = false
  ∧ runs_only ["git-write-tree"; "git-commit-tree"; "git-update-ref"] repository
      (commit git_committing ".git" no_config "fix" commit_defaults repository).2.
Proof.
  split; [reflexivity|].
  by apply (commit_without_parents_skips_status git_committing ".git" no_config "fix"
              commit_defaults repository).
Defined.

(** X9 on the same commit. *)
Lemma commit_new_tree_moves_head_witness :
  co_tree_id commit_defaults = None
  ∧ (commit git_committing ".git" no_config "fix" commit_defaults repository).1
    = Ok (sha "n")
  ∧ __head (commit git_committing ".git" no_config "fix" commit_defaults repository).2
    = Some (sha "n")
  ∧ resolve (commit git_committing ".git" no_config "fix" commit_defaults repository).2
      "HEAD" = Some (sha "n").
Proof.
  assert (H : commit git_committing ".git" no_config "fix" commit_defaults repository
              = (Ok (sha "n"),
                 (commit git_committing ".git" no_config "fix" commit_defaults
                    repository).2))
    by (vm_compute; reflexivity).
  split; [reflexivity|]. split; [by rewrite H|].
  destruct (commit_new_tree_moves_head git_committing ".git" no_config "fix"
              commit_defaults repository _ _ eq_refl H) as (_ & Hcache & _ & Hstore).
  split; [done|]. by apply Hstore.
Defined.

(** X10 on stage 2 of path p. *)
Lemma stages_re_parses_witness :
  stages_re_findall (unmerged_line "100644" (sha "2") "2" "p")
    = [("100644", sha "2", "2", "p")]
  ∧ unmerged_entries [unmerged_line "100644" (sha "2") "2" "p"] ∅
    = Ok {[ "p" := <["2" := ("100644", sha "2")]> unset_stages ]}.
Proof.
  apply (stages_re_parses_unmerged_line "100644" (sha "2") "2" "p");
    [discriminate|reflexivity|reflexivity|reflexivity|by_evaluation].
Defined.

(** X11 on the stages 1 and 3 of path p. *)
Lemma unmerged_entries_three_stages_witness :
  unmerged_entries stages_of_p ∅ = Ok (value ∅ (unmerged_entries stages_of_p ∅))
  ∧ ∃ stages,
      value ∅ (unmerged_entries stages_of_p ∅) !! "p" = Some stages
      ∧ dom stages = {[ "1"; "2"; "3" ]}
      ∧ stages !! "2" = Some ("", "").
Proof.
  assert (H : unmerged_entries stages_of_p ∅
              = Ok (value ∅ (unmerged_entries stages_of_p ∅)))
    by (vm_compute; reflexivity).
  split; [done|].
  exists (<["3" := ("100644", sha "3")]> (<["1" := ("100644", sha "1")]> unset_stages)).
  assert (Hp : value ∅ (unmerged_entries stages_of_p ∅) !! "p"
               = Some (<["3" := ("100644", sha "3")]>
                         (<["1" := ("100644", sha "1")]> unset_stages)))
    by (vm_compute; reflexivity).
  split; [done|].
  destruct (unmerged_entries_three_stages stages_of_p _ "p" _ H Hp) as (Hdom & _ & _).
  split; [done|]. vm_compute. reflexivity.
Defined.

(** X12 on the commit object n. *)
Lemma commit_reads_headers_witness :
  (Commit_init git_object (sha "n") repository).1
  = Ok (mkCommit (sha "n") (Some (sha "t"))
          (Some "A U Thor <author@example.com> 1 +0000")
          (Some "C O Mitter <committer@example.com> 2 +0000")
          (join (String LF "") ["subject"; ""; "details"])).
Proof.
  rewrite (commit_reads_headers_and_log git_object (sha "n") repository
             (snoc (join (String LF "") (headers_of_n ++ "" :: body_of_n)) LF)
             headers_of_n body_of_n).
  - reflexivity.
  - reflexivity.
  - vm_compute. reflexivity.
  - repeat constructor.
Defined.

(** X13 on a tree in which f is modified and g conflicts. *)
Lemma tree_status_reports_diff_index_witness :
  (tree_status git_modified ".git" no_config None "HEAD" false true false []
     (with_conflicts ["g"])).1
  = Ok [("C", "g"); ("M", "f")].
Proof.
  rewrite (tree_status_reports_diff_index git_modified ".git" no_config None "HEAD"
             true [] (with_conflicts ["g"])
             (logged (Ran refresh_index_call) (with_conflicts ["g"]))
             (snoc (diff_index_line modified_f) LF) [modified_f]).
  - vm_compute. reflexivity.
  - vm_compute. reflexivity.
  - reflexivity.
  - vm_compute. reflexivity.
  - constructor; [|constructor]. repeat split; try reflexivity. discriminate.
Defined.

(** X14 on the change of f between two commits. *)
Lemma barefiles_lists_paths_witness :
  (barefiles git_modified (sha "a") (sha "b") repository).1 = Ok "f".
Proof.
  rewrite (barefiles_lists_paths git_modified (sha "a") (sha "b") repository
             (snoc (diff_index_line modified_f) LF) [modified_f]).
  - reflexivity.
  - reflexivity.
  - vm_compute. reflexivity.
  - constructor; [|constructor]. by repeat split.
Defined.

(** X15 on a merge commit n of a and b. *)
Lemma commit_parents_of_rev_list_witness :
  (Commit_get_parents git_merged commit_n repository).1 = Ok [sha "a"; sha "b"]
  ∧ (Commit_get_parent git_merged commit_n repository).1 = Ok (Some (sha "a")).
Proof.
  destruct (commit_parents_of_rev_list git_merged commit_n repository
              (snoc (join " " [sha "n"; sha "a"; sha "b"]) LF) [sha "a"; sha "b"])
    as [Hparents Hparent].
  - reflexivity.
  - vm_compute. reflexivity.
  - repeat constructor; discriminate.
  - by rewrite Hparents, Hparent.
Defined.

(** X16 on a branch that is there and one that is not. *)
Lemma ref_exists_witness :
  (ref_exists git_quiet "refs/heads/topic" two_branches).1 = Ok true
  ∧ (ref_exists (git_failing ["git-rev-parse"]) "refs/heads/none" two_branches).1
    = Ok false.
Proof.
  split.
  - apply (ref_exists_never_raises git_quiet "refs/heads/topic" two_branches)
      with (sha1 := sha "b") (out := ""); reflexivity.
  - by apply (ref_exists_never_raises (git_failing ["git-rev-parse"]) "refs/heads/none"
                two_branches) with (text := "git-rev-parse failed with code 1").
Defined.

(** X17 on the branch topic. *)
Lemma create_branch_refuses_existing_witness :
  (create_branch git_quiet ".git" "topic" None two_branches).1
  = Raise (GitException ("Branch " +:+ dquote +:+ "topic" +:+ dquote +:+ " already exists"))
  ∧ refs (create_branch git_quiet ".git" "topic" None two_branches).2 = refs two_branches.
Proof.
  rewrite (create_branch_refuses_existing git_quiet ".git" "topic" None two_branches
             (sha "b") ""); [done|reflexivity..].
Defined.

(** X18 on a new branch topic, created in the middle of a merge. *)
Lemma create_branch_points_at_head_witness :
  create_branch git_quiet ".git" "topic" None mid_merge
    = (Ok tt, (create_branch git_quiet ".git" "topic" None mid_merge).2)
  ∧ symbolic_head (create_branch git_quiet ".git" "topic" None mid_merge).2
    = Some "refs/heads/topic"
  ∧ refs (create_branch git_quiet ".git" "topic" None mid_merge).2 !! "refs/heads/topic"
    = Some (sha "a")
  ∧ fs (create_branch git_quiet ".git" "topic" None mid_merge).2 !! ".git/MERGE_HEAD"
    = None.
Proof.
  assert (H : create_branch git_quiet ".git" "topic" None mid_merge
              = (Ok tt, (create_branch git_quiet ".git" "topic" None mid_merge).2))
    by (vm_compute; reflexivity).
  split; [done|].
  destruct (create_branch_points_at_head git_quiet ".git" "topic" mid_merge _ H)
    as (head & w0 & Hhead & _ & Hsym & Hrefs & _ & _ & Hgone).
  split; [done|]. split; [|done].
  rewrite Hrefs.
  assert (Hhead' : get_head git_quiet
                     (logged (Ran (rev_parse_call ("refs/heads/" +:+ "topic"))) mid_merge)
                   = (Ok (sha "a"),
                      (get_head git_quiet
                         (logged (Ran (rev_parse_call ("refs/heads/" +:+ "topic")))
                            mid_merge)).2))
    by (vm_compute; reflexivity).
  rewrite Hhead' in Hhead. injection Hhead as <- _.
  apply lookup_insert_eq.
Defined.

(** X19 on a switch from master to topic. *)
Lemma switch_branch_witness :
  switch_branch git_peeling ".git" "topic" two_branches
    = (Ok tt, (switch_branch git_peeling ".git" "topic" two_branches).2)
  ∧ symbolic_head (switch_branch git_peeling ".git" "topic" two_branches).2
    = Some "refs/heads/topic"
  ∧ __head (switch_branch git_peeling ".git" "topic" two_branches).2 = None
  ∧ refs (switch_branch git_peeling ".git" "topic" two_branches).2 = refs two_branches.
Proof.
  assert (H : switch_branch git_peeling ".git" "topic" two_branches
              = (Ok tt, (switch_branch git_peeling ".git" "topic" two_branches).2))
    by (vm_compute; reflexivity).
  split; [done|].
  destruct (switch_branch_moves_only_HEAD git_peeling ".git" "topic" two_branches)
    as (Hrefs & _ & Hok & _).
  destruct (Hok _ H) as (Hsym & Hcache & _).
  by repeat split.
Defined.

(** X20 on a request to remove g and f while f is still there. *)
Lemma rm_refuses_existing_file_witness :
  rm git_quiet ["g"; "f"] false with_file_f
  = (Raise (GitException "f exists. Remove it first"), with_file_f).
Proof.
  apply (rm_refuses_existing_file git_quiet ["g"] [] "f" with_file_f).
  - repeat constructor.
  - by_evaluation.
Defined.

(** X21 on a tree with a conflict recorded for f. *)
Lemma local_changes_with_conflicts_witness :
  (local_changes git_quiet ".git" no_config false (with_conflicts ["f"])).1 = Ok true.
Proof.
  assert (H : ∃ b, local_changes git_quiet ".git" no_config false (with_conflicts ["f"])
                   = (Ok b, (local_changes git_quiet ".git" no_config false
                               (with_conflicts ["f"])).2))
    by (eexists; vm_compute; reflexivity).
  destruct H as [b H]. rewrite H. simpl. f_equal.
  apply (local_changes_with_conflicts git_quiet ".git" no_config false
           (with_conflicts ["f"]) b _ H).
  vm_compute. discriminate.
Defined.

(** X22 on the refspec of a tracked branch. *)
Lemma refspec_parts_of_pair_witness :
  refspec_remotepart "refs/heads/master:refs/remotes/origin/master"
    = Ok "refs/heads/master"
  ∧ refspec_localpart "refs/heads/master:refs/remotes/origin/master"
    = Ok "refs/remotes/origin/master".
Proof.
  apply (refspec_parts_of_pair "refs/heads/master" "refs/remotes/origin/master");
    reflexivity.
Defined.

(** X24 on a fetch of two branches, one of them for merge. *)
Lemma fetch_head_single_witness :
  fetch_head ".git" (fetched one_for_merge) = (Ok (Some (sha "b")), fetched one_for_merge).
Proof.
  apply (fetch_head_single_for_merge ".git" (fetched one_for_merge) one_for_merge
           [not_for_merge_line (sha "c") "next"] (sha "b")
           (snoc "branch master of ../repo" LF) []).
  - reflexivity.
  - vm_compute. reflexivity.
  - reflexivity.
  - discriminate.
  - repeat constructor.
  - constructor.
Defined.

(** X25 on a fetch of four branches, two of them for merge. *)
Lemma fetch_head_multiple_witness :
  fetch_head ".git" (fetched two_for_merge)
  = (Raise (GitException "StGit does not support multiple FETCH_HEAD"),
     fetched two_for_merge).
Proof.
  apply (fetch_head_multiple_raises ".git" (fetched two_for_merge) two_for_merge
           [] (sha "b") (for_merge_line (sha "b") "master")
           [not_for_merge_line (sha "d") "maint"]
           (for_merge_line (sha "c") "next")
           [not_for_merge_line (sha "e") "topic"]).
  - reflexivity.
  - vm_compute. reflexivity.
  - vm_compute. reflexivity.
  - discriminate.
  - vm_compute. by eexists.
Defined.


(** X27 on a patch that [git-apply] rejects. *)
Lemma apply_patch_dumps_failed_diff_witness :
  (apply_patch rejecting_git merge_clean ".git" no_config None (Some "the diff") None true
     repository).1
  = Raise (GitRunException (apply_patch_call "the diff") "git-apply failed with code 1")
  ∧ fs (apply_patch rejecting_git merge_clean ".git" no_config None (Some "the diff") None
          true repository).2 !! ".stgit-failed.patch" = Some "the diff".
Proof.
  destruct (apply_patch_dumps_failed_diff rejecting_git merge_clean ".git" no_config None
              "the diff" true repository (logged (Ran refresh_index_call) repository)
              "git-apply failed with code 1")
    as (Hraise & [Hfs _] & _); [reflexivity|reflexivity|].
  split; [done|]. rewrite Hfs. apply lookup_insert_eq.
Defined.

(** X28 on an author line of a commit. *)
Lemma person_desc_round_trip_witness :
  Person_str (mkPerson (Some "A U Thor") (Some "author@example.com") None)
    = Ok "A U Thor <author@example.com>"
  ∧ Person_init None None (Some "") (Some "A U Thor <author@example.com> 1 +0000")
    = Ok (mkPerson (Some "A U Thor") (Some "author@example.com") (Some "1 +0000")).
Proof.
  apply (person_desc_round_trip "A U Thor" "author@example.com" " 1 +0000" None);
    solve [discriminate | reflexivity].
Defined.

(** X30 on a request that names C twice. *)
Lemma hide_keeps_requested_repetitions_witness :
  Hide.hidden (Hide.hide_target stack ["C"; "C"]) = ["C"; "C"; "D"]
  ∧ occurrences "C" (Hide.hidden (Hide.hide_target stack ["C"; "C"])) = 2.
Proof.
  split; [vm_compute; reflexivity|].
  destruct (hide_keeps_requested_repetitions stack ["C"; "C"] "C") as [Hocc _];
    [by_evaluation|].
  rewrite Hocc. vm_compute. reflexivity.
Defined.

End MoreRuns.
